(** * HandleDuplicateFiles: content partitioning and hard-link consolidation

    A shallow embedding of [HandleDuplicateFiles.cpp]:
    - [CompareFilesBufferedAdvanced], the chunked multi-reader comparator;
    - [GroupFilesByContentUsingMap], the recursive pivot partitioner;
    - [GetFileUniqueIdAndLinkCount], [DeduplicateGroup] and the tail of
      [wmain], the hard-link consolidation protocol;
    - [ToLower], [HasExtension] and [EnumerateFilesAndGroupBySize], the
      search that fills the size buckets, and [wmain] from its arguments.

    Files are read through a model of [std::ifstream] (content, get position,
    [eofbit], [failbit], [gcount]); [std::streamsize] values are [Z];
    a [char] is a [Byte.byte]; [std::wstring] paths are [string];
    [std::map<GroupKey, std::vector<std::wstring>>] is an association list
    kept sorted by the key order of [std::pair<std::streamsize, char>].
    Console output ([std::wcerr], [std::wcout]) and the Win32 calls are
    recorded in an event trace. *)

From Stdlib Require Import String Ascii Strings.Byte Bool List ZArith Lia
  Sorted Setoid Permutation.
Import ListNotations.
Local Open Scope Z_scope.

Set Implicit Arguments.

(* ================================================================== *)
(** ** Basic types *)

Definition path := string.

(** The file system as [std::ifstream] sees it: a path either opens and
    yields its bytes, or fails to open. *)
Definition FileSystem := path -> option (list byte).

(** [constexpr size_t BUFFER_SIZE = 4096;] *)
Definition BUFFER_SIZE : Z := 4096.

(** [constexpr size_t MAX_BATCH = 256;] *)
Definition MAX_BATCH : nat := 256.

(** Messages written to the console. *)
Inductive Msg : Type :=
| ErrOpeningMaster (p : path)        (* wcerr "Error opening master file: " *)
| ErrOpeningRight (p : path)         (* wcerr "Error opening right file: " *)
| ErrUsage                           (* wcerr "Usage: ..." and "Example: ..." *)
| OutGroupHeader (index : nat) (size : Z) (* wcout "Duplicate Group #i size s:" *)
| OutGroupFile (p : path)            (* wcout "  " << file *)
| OutNoDuplicates                    (* wcout "No duplicate files found." *)
| OutStar                            (* wcout "*" *)
| ErrFailedGroup                     (* wcerr "Failed to deduplicate group:" *)
| ErrGroupFile (p : path)            (* wcerr "  " << file *)
| ErrNoDupsInGroup                   (* wcerr "No duplicates in group to deduplicate." *)
| ErrFailedOpen (p : path) (code : Z)     (* wcerr "Failed to open file: " *)
| ErrFailedInfo (p : path) (code : Z)     (* wcerr "Failed to get file information for: " *)
| ErrMasterId (p : path)             (* wcerr "Failed to get unique ID for master file: " *)
| OutMaster (p : path)               (* wcout "Master file: " *)
| ErrDupId (p : path)                (* wcerr "Failed to get unique ID for file: " *)
| OutSkipLinked (p : path)           (* wcout "Skipping file (already linked): " *)
| ErrDelete (p : path) (code : Z)    (* wcerr "Error deleting duplicate file: " *)
| ErrHardLink (p master : path) (code : Z) (* wcerr "Error creating hard link for: " *)
| OutReplaced (p master : path).     (* wcout "Replaced duplicate ... with hard link to ..." *)

(* ================================================================== *)
(** ** A model of [std::ifstream] opened in binary mode *)

Module Stream.

Record ifstream : Type := mk {
  buf : list byte;   (* content of the underlying file *)
  gpos : Z;          (* get position *)
  eofbit : bool;
  failbit : bool;
  gcount : Z         (* characters extracted by the last unformatted read *)
}.

Definition good (s : ifstream) : bool := negb (eofbit s) && negb (failbit s).

(** [operator!], i.e. [fail()]. *)
Definition fail (s : ifstream) : bool := failbit s.

Definition eof (s : ifstream) : bool := eofbit s.

(** [std::ifstream s(path, std::ios::binary)] / [s.open(path, binary)]:
    a failed open sets [failbit]. *)
Definition open (fs : FileSystem) (p : path) : ifstream :=
  match fs p with
  | Some d => mk d 0 false false 0
  | None => mk [] 0 false true 0
  end.

(** [s.seekg(off, std::ios::beg)]: clears [eofbit]; does nothing when
    [fail()]; a negative target makes the seek fail and sets [failbit];
    seeking past the end of a file is allowed. *)
Definition seekg (s : ifstream) (off : Z) : ifstream :=
  if failbit s then mk (buf s) (gpos s) false true (gcount s)
  else if off <? 0 then mk (buf s) (gpos s) false true (gcount s)
  else mk (buf s) off false false (gcount s).

(** [s.read(buffer, n)]: when the stream is not [good()] it sets [failbit]
    and extracts nothing; otherwise it extracts up to [n] characters, and
    sets [eofbit|failbit] when the end of the file comes first.  Returns the
    characters stored in the buffer. *)
Definition read (s : ifstream) (n : Z) : list byte * ifstream :=
  if good s then
    let chunk := firstn (Z.to_nat n) (skipn (Z.to_nat (gpos s)) (buf s)) in
    let k := Z.of_nat (length chunk) in
    let short := k <? n in
    (chunk, mk (buf s) (gpos s + k) short short k)
  else ([], mk (buf s) (gpos s) (eofbit s) true 0).

(** [s.peek()]: does not move the get position; sets [eofbit] when no
    character is left, [failbit] when the stream was not [good()]. *)
Definition peek (s : ifstream) : option byte * ifstream :=
  if good s then
    match skipn (Z.to_nat (gpos s)) (buf s) with
    | [] => (None, mk (buf s) (gpos s) true false 0)
    | c :: _ => (Some c, mk (buf s) (gpos s) false false 0)
    end
  else (None, mk (buf s) (gpos s) (eofbit s) true 0).

End Stream.

Import Stream.

(** [struct RightFileState { std::wstring filePath; std::ifstream stream; }] *)
Record RightFileState : Type := mkRight {
  filePath : path;
  stream : ifstream
}.

(* ================================================================== *)
(** ** [std::map<GroupKey, std::vector<std::wstring>>] *)

(** [typedef std::pair<std::streamsize, char> GroupKey;] *)
Definition GroupKey : Type := (Z * byte)%type.

(** [char] is a signed 8-bit type for the compiler of this program. *)
Definition char_to_Z (c : byte) : Z :=
  let n := Z.of_N (Byte.to_N c) in
  if n <? 128 then n else n - 256.

(** [operator<] of [std::pair]. *)
Definition key_lt (a b : GroupKey) : bool :=
  (fst a <? fst b)
  || (negb (fst b <? fst a) && (char_to_Z (snd a) <? char_to_Z (snd b))).

Definition KeyGroups : Type := list (GroupKey * list path).

(** [keyGroups[key].push_back(p)]: [operator[]] finds the entry whose key is
    equivalent to [key], or inserts an empty vector at the sorted position. *)
Fixpoint map_push (keyGroups : KeyGroups) (key : GroupKey) (p : path)
  : KeyGroups :=
  match keyGroups with
  | [] => [(key, [p])]
  | (k, v) :: rest =>
      if key_lt key k then (key, [p]) :: (k, v) :: rest
      else if key_lt k key then (k, v) :: map_push rest key p
      else (k, v ++ [p]) :: rest
  end.

(* ================================================================== *)
(** ** [CompareFilesBufferedAdvanced] *)

(** [std::memcmp(a, b, n)] on the first [n] bytes of two buffers, compared
    as [unsigned char]. *)
Fixpoint memcmp (a b : list byte) (n : nat) : Z :=
  match n with
  | O => 0
  | S n' =>
      match a, b with
      | x :: a', y :: b' =>
          if (Byte.to_N x <? Byte.to_N y)%N then -1
          else if (Byte.to_N y <? Byte.to_N x)%N then 1
          else memcmp a' b' n'
      | _, _ => 0
      end
  end.

(** The loop of lines 104-108:
    [for (; mismatchIndex < masterBytes; ++mismatchIndex)
       if (masterBuffer[mismatchIndex] != rightBuffer[mismatchIndex]) break;] *)
Fixpoint find_mismatch (masterBuffer rightBuffer : list byte) (n : nat)
  : Z :=
  match n with
  | O => 0
  | S n' =>
      match masterBuffer, rightBuffer with
      | x :: a', y :: b' =>
          if Byte.eqb x y then 1 + find_mismatch a' b' n' else 0
      | _, _ => 0
      end
  end.

(** What the body of the inner [for] loop (lines 89-116) does with one
    right file. *)
Inductive Verdict : Type :=
| Erased                         (* short read: [rightStates.erase(it)] only *)
| Pruned (key : GroupKey)        (* mismatch: pushed under [key], then erased *)
| Kept (it : RightFileState).    (* chunk equal: [++it] *)

Definition compare_right (masterBuffer : list byte) (masterBytes : Z)
    (totalBytesRead : Z) (it : RightFileState) : Verdict :=
  let (rightBuffer, s) := read (stream it) masterBytes in
  let rightBytes := gcount s in
  if negb (rightBytes =? masterBytes) then Erased
  else
    let cmp := memcmp masterBuffer rightBuffer (Z.to_nat masterBytes) in
    if negb (cmp =? 0) then
      let mismatchIndex :=
        find_mismatch masterBuffer rightBuffer (Z.to_nat masterBytes) in
      Pruned (totalBytesRead + mismatchIndex,
              nth (Z.to_nat mismatchIndex) rightBuffer "000"%byte)
    else Kept (mkRight (filePath it) s).

(** The inner [for] loop over [rightStates] for one master chunk. *)
Fixpoint compare_chunk (masterBuffer : list byte) (masterBytes : Z)
    (totalBytesRead : Z) (rightStates : list RightFileState)
    (keyGroups : KeyGroups) : list RightFileState * KeyGroups :=
  match rightStates with
  | [] => ([], keyGroups)
  | it :: rest =>
      match compare_right masterBuffer masterBytes totalBytesRead it with
      | Erased =>
          compare_chunk masterBuffer masterBytes totalBytesRead rest keyGroups
      | Pruned key =>
          compare_chunk masterBuffer masterBytes totalBytesRead rest
            (map_push keyGroups key (filePath it))
      | Kept it' =>
          let (rs, kg) :=
            compare_chunk masterBuffer masterBytes totalBytesRead rest
              keyGroups in
          (it' :: rs, kg)
      end
  end.

(** The [while (true)] loop of lines 78-124.  [None] only when [fuel] runs
    out. *)
Fixpoint compare_loop (fuel : nat) (master : ifstream)
    (rightStates : list RightFileState) (totalBytesRead : Z)
    (keyGroups : KeyGroups) : option (list RightFileState * KeyGroups) :=
  match fuel with
  | O => None
  | S fuel' =>
      let (masterBuffer, master) := read master BUFFER_SIZE in
      let masterBytes := gcount master in
      if masterBytes <=? 0 then Some (rightStates, keyGroups)
      else
        let (rightStates, keyGroups) :=
          compare_chunk masterBuffer masterBytes totalBytesRead rightStates
            keyGroups in
        let totalBytesRead := totalBytesRead + masterBytes in
        match rightStates with
        | [] => Some (rightStates, keyGroups)
        | _ :: _ =>
            compare_loop fuel' master rightStates totalBytesRead keyGroups
        end
  end.

(** Lines 59-71: open every right file, skipping (and reporting on
    [std::wcerr]) those that do not open.  Returns the states and the
    messages written. *)
Fixpoint open_rights (fs : FileSystem) (rights : list path)
    (totalBytesRead : Z) : list RightFileState * list Msg :=
  match rights with
  | [] => ([], [])
  | p :: rest =>
      let s := open fs p in
      let (rs, log) := open_rights fs rest totalBytesRead in
      if fail s then (rs, ErrOpeningRight p :: log)
      else (mkRight p (seekg s totalBytesRead) :: rs, log)
  end.

(** Lines 128-136: the end check of the right files still active. *)
Fixpoint collect_identical (rightStates : list RightFileState)
    (duplicateGroup : list path) : list path :=
  match rightStates with
  | [] => duplicateGroup
  | state :: rest =>
      let (_, s) := peek (stream state) in
      if eof s then collect_identical rest (duplicateGroup ++ [filePath state])
      else collect_identical rest duplicateGroup
  end.

(** [keyGroups] and [duplicateGroup] are passed by reference: the function
    returns their new values, and the messages it wrote to [std::wcerr].
    [None] only when the fuel of the chunk loop runs out. *)
Definition CompareFilesBufferedAdvanced (fs : FileSystem)
    (masterFilePath : path) (rights : list path) (totalBytesRead : Z)
    (keyGroups : KeyGroups) (duplicateGroup : list path)
  : option (KeyGroups * list path * list Msg) :=
  let master := open fs masterFilePath in
  if fail master then
    Some (keyGroups, duplicateGroup, [ErrOpeningMaster masterFilePath])
  else
    let master := seekg master totalBytesRead in
    let (rightStates, log) := open_rights fs rights totalBytesRead in
    match compare_loop (S (length (buf master))) master rightStates
            totalBytesRead keyGroups with
    | None => None
    | Some (rightStates, keyGroups) =>
        Some (keyGroups, collect_identical rightStates duplicateGroup, log)
    end.

(* ================================================================== *)
(** ** [GroupFilesByContentUsingMap] *)

(** The batching loop of lines 160-176 over the right files
    [std::next(files.begin()) .. files.end()].  [totalBytesRead] is passed by
    value, so every batch starts at the same offset.  [None] only when
    [fuel] runs out. *)
Fixpoint compare_batches (fuel : nat) (fs : FileSystem) (pivot : path)
    (rights : list path) (processed : nat) (totalBytesRead : Z)
    (keyGroups : KeyGroups) (duplicateGroup : list path)
  : option (KeyGroups * list path * list Msg) :=
  let totalRightFiles := length rights in
  if (processed <? totalRightFiles)%nat then
    match fuel with
    | O => None
    | S fuel' =>
        let batchSize := Nat.min (totalRightFiles - processed) MAX_BATCH in
        let batch := firstn batchSize (skipn processed rights) in
        match CompareFilesBufferedAdvanced fs pivot batch totalBytesRead
                keyGroups duplicateGroup with
        | None => None
        | Some (keyGroups, duplicateGroup, log) =>
            match compare_batches fuel' fs pivot rights
                    (processed + batchSize) totalBytesRead keyGroups
                    duplicateGroup with
            | None => None
            | Some (keyGroups, duplicateGroup, log') =>
                Some (keyGroups, duplicateGroup, log ++ log')
            end
        end
    end
  else Some (keyGroups, duplicateGroup, []).

(** The loop of lines 183-189 over the entries of [keyGroups], in key order;
    [recurse] is the recursive call of [GroupFilesByContentUsingMap]. *)
Fixpoint recurse_key_groups
    (recurse : list path -> list (list path) -> Z ->
               option (list (list path) * list Msg))
    (entries : KeyGroups) (duplicateGroups : list (list path))
  : option (list (list path) * list Msg) :=
  match entries with
  | [] => Some (duplicateGroups, [])
  | entry :: rest =>
      if (1 <? length (snd entry))%nat then
        match recurse (snd entry) duplicateGroups (fst (fst entry)) with
        | None => None
        | Some (duplicateGroups, log) =>
            match recurse_key_groups recurse rest duplicateGroups with
            | None => None
            | Some (duplicateGroups, log') =>
                Some (duplicateGroups, log ++ log')
            end
        end
      else recurse_key_groups recurse rest duplicateGroups
  end.

(** [GroupFilesByContentUsingMap(files, duplicateGroups, totalBytesRead)]
    with a bound [fuel] on the recursion depth.  [duplicateGroups] is passed
    by reference: the function returns its new value and the messages
    written.  [None] only when [fuel] runs out. *)
Fixpoint GroupFilesByContentUsingMap_fuel (fuel : nat) (fs : FileSystem)
    (files : list path) (duplicateGroups : list (list path))
    (totalBytesRead : Z) : option (list (list path) * list Msg) :=
  match files with
  | [] | [_] => Some (duplicateGroups, [])    (* files.size() < 2 *)
  | pivot :: rights =>
      match fuel with
      | O => None
      | S fuel' =>
          let duplicateGroup := [pivot] in
          match compare_batches (length rights) fs pivot rights 0
                  totalBytesRead [] duplicateGroup with
          | None => None
          | Some (keyGroups, duplicateGroup, log) =>
              let duplicateGroups :=
                if (1 <? length duplicateGroup)%nat
                then duplicateGroups ++ [duplicateGroup]
                else duplicateGroups in
              match recurse_key_groups
                      (GroupFilesByContentUsingMap_fuel fuel' fs)
                      keyGroups duplicateGroups with
              | None => None
              | Some (duplicateGroups, log') =>
                  Some (duplicateGroups, log ++ log')
              end
          end
      end
  end.

(** Every recursive call receives strictly fewer files, so [length files]
    levels are enough. *)
Definition GroupFilesByContentUsingMap (fs : FileSystem) (files : list path)
    (duplicateGroups : list (list path)) (totalBytesRead : Z)
  : option (list (list path) * list Msg) :=
  GroupFilesByContentUsingMap_fuel (length files) fs files duplicateGroups
    totalBytesRead.

(* ================================================================== *)
(** ** The Win32 calls of the deduplicator *)

Definition HANDLE := Z.
Definition DWORD := Z.

(** The three fields of [BY_HANDLE_FILE_INFORMATION] the program reads. *)
Record BY_HANDLE_FILE_INFORMATION : Type := mkInfo {
  nFileIndexHigh : DWORD;
  nFileIndexLow : DWORD;
  nNumberOfLinks : DWORD
}.

(** The Win32 functions called by [GetFileUniqueIdAndLinkCount] and
    [DeduplicateGroup], over a state [World] of the volume.  A call that
    fails returns the value of [GetLastError()] and leaves the volume as it
    was.  [CreateFileW] stands for the call of line 291 (no access
    requested, [OPEN_EXISTING]); [CreateHardLinkW w newName existing]. *)
Class Win32 (World : Type) : Type := {
  CreateFileW : World -> path -> HANDLE + DWORD;
  GetFileInformationByHandle :
    World -> HANDLE -> BY_HANDLE_FILE_INFORMATION + DWORD;
  DeleteFileW : World -> path -> World + DWORD;
  CreateHardLinkW : World -> path -> path -> World + DWORD
}.

(** What the deduplicator does, in order: console output and Win32 calls. *)
Inductive Event : Type :=
| Say (m : Msg)
| CallCreateFileW (p : path)
| CallGetFileInformationByHandle (h : HANDLE)
| CallCloseHandle (h : HANDLE)
| CallDeleteFileW (p : path)
| CallCreateHardLinkW (newName existing : path).

(** The calls that change the volume. *)
Definition is_mutation (e : Event) : bool :=
  match e with
  | CallDeleteFileW _ | CallCreateHardLinkW _ _ => true
  | _ => false
  end.

(** The events that touch a path [p] as the target of an identity query, a
    delete or a new link name. *)
Definition touches (p : path) (e : Event) : bool :=
  match e with
  | CallCreateFileW q | CallDeleteFileW q | CallCreateHardLinkW q _ =>
      String.eqb p q
  | _ => false
  end.

(** The events that delete [p] or create a link named [p]. *)
Definition mutates (p : path) (e : Event) : bool :=
  match e with
  | CallDeleteFileW q | CallCreateHardLinkW q _ => String.eqb p q
  | _ => false
  end.

Section Deduplicator.

Context {World : Type} {api : Win32 World}.

(** [GetFileUniqueIdAndLinkCount(filePath, uniqueId, numLinks)]: [Some
    (uniqueId, numLinks)] when it returns [true]. *)
Definition GetFileUniqueIdAndLinkCount (w : World) (filePath : path)
  : option (Z * DWORD) * list Event :=
  match CreateFileW w filePath with
  | inr err =>
      (None, [CallCreateFileW filePath; Say (ErrFailedOpen filePath err)])
  | inl hFile =>
      match GetFileInformationByHandle w hFile with
      | inr err =>
          (None, [CallCreateFileW filePath;
                  CallGetFileInformationByHandle hFile;
                  Say (ErrFailedInfo filePath err);
                  CallCloseHandle hFile])
      | inl fileInfo =>
          let uniqueId :=
            Z.lor (Z.shiftl (nFileIndexHigh fileInfo) 32 mod 2 ^ 64)
                  (nFileIndexLow fileInfo) in
          (Some (uniqueId, nNumberOfLinks fileInfo),
           [CallCreateFileW filePath;
            CallGetFileInformationByHandle hFile;
            CallCloseHandle hFile])
      end
  end.

(** The body of the loop of lines 346-389 for one duplicate. *)
Definition dedup_member (w : World) (master : path) (masterId : Z)
    (dupFile : path) : World * list Event :=
  let (r, ev) := GetFileUniqueIdAndLinkCount w dupFile in
  match r with
  | None => (w, ev ++ [Say (ErrDupId dupFile)])
  | Some (dupId, dupLinks) =>
      if dupId =? masterId then (w, ev ++ [Say (OutSkipLinked dupFile)])
      else
        match DeleteFileW w dupFile with
        | inr delErr =>
            (w, ev ++ [CallDeleteFileW dupFile;
                       Say (ErrDelete dupFile delErr)])
        | inl w1 =>
            match CreateHardLinkW w1 dupFile master with
            | inr hlErr =>
                (w1, ev ++ [CallDeleteFileW dupFile;
                            CallCreateHardLinkW dupFile master;
                            Say (ErrHardLink dupFile master hlErr)])
            | inl w2 =>
                (w2, ev ++ [CallDeleteFileW dupFile;
                            CallCreateHardLinkW dupFile master;
                            Say (OutReplaced dupFile master)])
            end
        end
  end.

(** The loop [for (size_t i = 1; i < duplicateGroup.size(); ++i)]. *)
Fixpoint dedup_members (w : World) (master : path) (masterId : Z)
    (members : list path) : World * list Event :=
  match members with
  | [] => (w, [])
  | dupFile :: rest =>
      let (w1, ev) := dedup_member w master masterId dupFile in
      let (w2, ev') := dedup_members w1 master masterId rest in
      (w2, ev ++ ev')
  end.

(** [DeduplicateGroup(duplicateGroup)]: its return value, the volume
    afterwards and what it did. *)
Definition DeduplicateGroup (w : World) (duplicateGroup : list path)
  : bool * World * list Event :=
  match duplicateGroup with
  | [] | [_] => (true, w, [Say ErrNoDupsInGroup])
  | master :: members =>
      let (r, ev) := GetFileUniqueIdAndLinkCount w master in
      match r with
      | None => (false, w, ev ++ [Say (ErrMasterId master)])
      | Some (masterId, masterLinks) =>
          let (w', ev') := dedup_members w master masterId members in
          (true, w', ev ++ [Say (OutMaster master)] ++ ev')
      end
  end.

(** The loop of lines 449-460 of [wmain]; returns the exit code it forces
    ([Some 1]) or [None] when it runs to its end. *)
Fixpoint deduplicate_all (w : World) (allDuplicateGroups : list (list path))
  : option Z * World * list Event :=
  match allDuplicateGroups with
  | [] => (None, w, [])
  | group :: rest =>
      let '(ok, w1, ev) := DeduplicateGroup w group in
      if ok then
        let '(code, w2, ev') := deduplicate_all w1 rest in
        (code, w2, Say OutStar :: ev ++ ev')
      else
        (Some 1, w1,
         Say OutStar :: ev ++ Say ErrFailedGroup
           :: map (fun file => Say (ErrGroupFile file)) group)
  end.

(** The loop of lines 432-442 over the groups of one size bucket. *)
Fixpoint report_groups (size : Z) (duplicateGroups : list (list path))
    (allDuplicateGroups : list (list path))
  : list (list path) * list Event :=
  match duplicateGroups with
  | [] => (allDuplicateGroups, [])
  | group :: rest =>
      if (length group <? 2)%nat
      then report_groups size rest allDuplicateGroups
      else
        let allDuplicateGroups := allDuplicateGroups ++ [group] in
        let (all, ev) := report_groups size rest allDuplicateGroups in
        (all,
         Say (OutGroupHeader (length allDuplicateGroups) size)
           :: map (fun file => Say (OutGroupFile file)) group ++ ev)
  end.

(** The loop of lines 422-443 over [sizeGroups].  [None] only when the
    partitioner runs out of fuel. *)
Fixpoint group_all (fs : FileSystem) (sizeGroups : list (Z * list path))
    (allDuplicateGroups : list (list path))
  : option (list (list path) * list Event) :=
  match sizeGroups with
  | [] => Some (allDuplicateGroups, [])
  | entry :: rest =>
      if (length (snd entry) <? 2)%nat
      then group_all fs rest allDuplicateGroups
      else
        match GroupFilesByContentUsingMap fs (snd entry) [] 0 with
        | None => None
        | Some (duplicateGroups, log) =>
            let (all, ev) :=
              report_groups (fst entry) duplicateGroups
                allDuplicateGroups in
            match group_all fs rest all with
            | None => None
            | Some (all, ev') => Some (all, map Say log ++ ev ++ ev')
            end
        end
  end.

(** [wmain(argc, argv)].  [sizeGroups] is the map filled by
    [EnumerateFilesAndGroupBySize(rootFolder, sizeGroups, extFilter)], in
    key order; [fs] is the volume as the streams of the partitioner read
    it and [w] the volume as the Win32 calls of the deduplicator see it.
    Returns the exit code, the volume afterwards and what was done. *)
Definition wmain (argc : Z) (sizeGroups : list (Z * list path))
    (fs : FileSystem) (w : World) : option (Z * World * list Event) :=
  if argc <? 2 then Some (1, w, [Say ErrUsage])
  else
    match group_all fs sizeGroups [] with
    | None => None
    | Some (allDuplicateGroups, ev) =>
        let ev :=
          match allDuplicateGroups with
          | [] => ev ++ [Say OutNoDuplicates]
          | _ :: _ => ev
          end in
        let '(code, w', ev') := deduplicate_all w allDuplicateGroups in
        Some (match code with Some c => c | None => 0 end, w', ev ++ ev')
    end.

End Deduplicator.

(* ================================================================== *)
(** ** A small volume on which the deduplicator can be run *)

(** A volume as a list of directory entries (name, file index); the names
    in [denied] can neither be opened nor deleted; [links_supported] tells
    whether the volume supports hard links. *)
Record Volume : Type := mkVolume {
  dir_entries : list (path * Z);
  denied : list path;
  links_supported : bool
}.

Definition is_denied (v : Volume) (p : path) : bool :=
  existsb (String.eqb p) (denied v).

Fixpoint find_entry (es : list (path * Z)) (p : path) : option Z :=
  match es with
  | [] => None
  | (q, id) :: rest => if String.eqb p q then Some id else find_entry rest p
  end.

Definition count_links (es : list (path * Z)) (id : Z) : Z :=
  Z.of_nat (length (filter (fun e => snd e =? id) es)).

Definition remove_entry (es : list (path * Z)) (p : path)
  : list (path * Z) :=
  filter (fun e => negb (String.eqb p (fst e))) es.

(** Error codes: 2 is [ERROR_FILE_NOT_FOUND], 5 [ERROR_ACCESS_DENIED],
    1 [ERROR_INVALID_FUNCTION], 183 [ERROR_ALREADY_EXISTS].  The handle of
    an open file is its file index. *)
#[global] Instance Volume_Win32 : Win32 Volume := {
  CreateFileW v p :=
    if is_denied v p then inr 5
    else match find_entry (dir_entries v) p with
         | Some id => inl id
         | None => inr 2
         end;
  GetFileInformationByHandle v h :=
    inl (mkInfo (Z.shiftr h 32) (Z.land h (2 ^ 32 - 1))
           (count_links (dir_entries v) h));
  DeleteFileW v p :=
    if is_denied v p then inr 5
    else match find_entry (dir_entries v) p with
         | Some _ =>
             inl (mkVolume (remove_entry (dir_entries v) p) (denied v)
                    (links_supported v))
         | None => inr 2
         end;
  CreateHardLinkW v newName existing :=
    if negb (links_supported v) then inr 1
    else match find_entry (dir_entries v) newName with
         | Some _ => inr 183
         | None =>
             match find_entry (dir_entries v) existing with
             | Some id =>
                 inl (mkVolume (dir_entries v ++ [(newName, id)]) (denied v)
                        (links_supported v))
             | None => inr 2
             end
         end
}.

(* ================================================================== *)
(** ** The extension filter *)

(** [::towlower] in the "C" locale, which the program never changes: only
    the letters [A] to [Z] have a lower-case form. *)
Definition towlower (c : ascii) : ascii :=
  let n := N_of_ascii c in
  if ((65 <=? n) && (n <=? 90))%N then ascii_of_N (n + 32) else c.

(** [ToLower(str)]: [std::transform] of [::towlower] over the string. *)
Fixpoint ToLower (str : string) : string :=
  match str with
  | EmptyString => EmptyString
  | String c rest => String (towlower c) (ToLower rest)
  end.

(** [s.rfind(c)]: the index of the last [c] of [s]; [None] is
    [std::wstring::npos]. *)
Fixpoint rfind (s : string) (c : ascii) : option nat :=
  match s with
  | EmptyString => None
  | String x rest =>
      match rfind rest c with
      | Some i => Some (S i)
      | None => if Ascii.eqb x c then Some 0%nat else None
      end
  end.

(** [s.substr(pos)] for [pos <= s.size()]: the characters from [pos] on. *)
Fixpoint substr (s : string) (pos : nat) : string :=
  match pos, s with
  | O, _ => s
  | S p, String _ rest => substr rest p
  | S _, EmptyString => EmptyString
  end.

(** [HasExtension(file, extFilter)]. *)
Definition HasExtension (file extFilter : string) : bool :=
  match extFilter with
  | EmptyString => true                       (* no filtering applied *)
  | String _ _ =>
      let lowerFile := ToLower file in
      let lowerFilter := ToLower extFilter in
      match rfind lowerFile "."%char with
      | None => false
      | Some pos => String.eqb (substr lowerFile pos) lowerFilter
      end
  end.

(* ================================================================== *)
(** ** The enumeration of a folder *)

(** [constexpr ULONGLONG MIN_SIZE_TO_CONSIDER = 16 * 1024;] *)
Definition MIN_SIZE_TO_CONSIDER : Z := 16 * 1024.

Definition FILE_ATTRIBUTE_DIRECTORY : Z := 16.         (* 0x10 *)
Definition FILE_ATTRIBUTE_REPARSE_POINT : Z := 1024.   (* 0x400 *)

(** The fields of [WIN32_FIND_DATA] the program reads. *)
Record WIN32_FIND_DATA : Type := mkFindData {
  dwFileAttributes : DWORD;
  nFileSizeHigh : DWORD;
  nFileSizeLow : DWORD;
  cFileName : string
}.

(** What [FindFirstFile]/[FindNextFile] report for a search path
    [directory\*]: each entry with its find data and, would the entry be
    searched in turn as a directory, what that search finds ([None] when
    [FindFirstFile] returns [INVALID_HANDLE_VALUE]). *)
#[local] Unset Elimination Schemes.
Inductive DirEntry : Type :=
| Entry (findData : WIN32_FIND_DATA) (found : option (list DirEntry)).
#[local] Set Elimination Schemes.

(** [std::map<ULONGLONG, std::vector<std::wstring>>], sorted by size. *)
Definition SizeGroups : Type := list (Z * list path).

(** [sizeGroups[size].push_back(p)]. *)
Fixpoint size_push (sizeGroups : SizeGroups) (size : Z) (p : path)
  : SizeGroups :=
  match sizeGroups with
  | [] => [(size, [p])]
  | (k, v) :: rest =>
      if size <? k then (size, [p]) :: (k, v) :: rest
      else if k <? size then (k, v) :: size_push rest size p
      else (k, v ++ [p]) :: rest
  end.

(** [(static_cast<ULONGLONG>(findData.nFileSizeHigh) << 32) |
     findData.nFileSizeLow] *)
Definition file_size (findData : WIN32_FIND_DATA) : Z :=
  Z.lor (Z.shiftl (nFileSizeHigh findData) 32 mod 2 ^ 64)
        (nFileSizeLow findData).

Definition is_reparse_point (findData : WIN32_FIND_DATA) : bool :=
  negb (Z.land (dwFileAttributes findData) FILE_ATTRIBUTE_REPARSE_POINT =? 0).

Definition is_directory (findData : WIN32_FIND_DATA) : bool :=
  negb (Z.land (dwFileAttributes findData) FILE_ATTRIBUTE_DIRECTORY =? 0).

Definition is_dot_name (name : string) : bool :=
  String.eqb name "." || String.eqb name "..".

(** The body of the [do ... while (FindNextFile(...))] loop of
    [EnumerateFilesAndGroupBySize] for one entry found in [directory]; the
    inner [walk] is the recursive call on a subdirectory, over what its
    search finds. *)
Fixpoint enumerate_entry (extFilter : string) (directory : string)
    (e : DirEntry) (sizeGroups : SizeGroups) {struct e} : SizeGroups :=
  match e with
  | Entry findData found =>
      if is_reparse_point findData then sizeGroups
      else
        let name := cFileName findData in
        if is_dot_name name then sizeGroups
        else
          let fullPath := (directory ++ "\" ++ name)%string in
          if is_directory findData then
            match found with
            | None => sizeGroups
            | Some l =>
                (fix walk (l : list DirEntry) (sg : SizeGroups) : SizeGroups :=
                   match l with
                   | [] => sg
                   | e' :: l' =>
                       walk l' (enumerate_entry extFilter fullPath e' sg)
                   end) l sizeGroups
            end
          else if HasExtension fullPath extFilter then
            let size := file_size findData in
            if size <? MIN_SIZE_TO_CONSIDER then sizeGroups
            else size_push sizeGroups size fullPath
          else sizeGroups
  end.

(** [EnumerateFilesAndGroupBySize(directory, sizeGroups, extFilter)], where
    [found] is what the search of [directory\*] finds. *)
Definition EnumerateFilesAndGroupBySize (directory : string)
    (found : option (list DirEntry)) (sizeGroups : SizeGroups)
    (extFilter : string) : SizeGroups :=
  match found with
  | None => sizeGroups
  | Some l =>
      fold_left (fun sg e => enumerate_entry extFilter directory e sg) l
        sizeGroups
  end.

(* ================================================================== *)
(** ** The program from its arguments *)

Section Program.

Context {World : Type} {api : Win32 World}.

(** [wmain(argc, argv)] from its arguments: [argc] is the length of
    [argv]; lines 412-420 read the root folder and the optional extension
    filter and fill [sizeGroups], where [found] is what the search of the
    root folder finds. *)
Definition wmain_argv (argv : list string) (found : option (list DirEntry))
    (fs : FileSystem) (w : World) : option (Z * World * list Event) :=
  let argc := Z.of_nat (length argv) in
  let rootFolder := nth 1 argv ""%string in
  let extFilter := if 3 <=? argc then nth 2 argv ""%string else ""%string in
  wmain argc (EnumerateFilesAndGroupBySize rootFolder found [] extFilter)
    fs w.

End Program.

(* ================================================================== *)
(** ** A volume that is a list of names *)

(** A volume that is only a list of directory entries (name, file index):
    every name opens, deletes and links as long as it exists. *)
Definition Names : Type := list (path * Z).

#[global] Instance Names_Win32 : Win32 Names := {
  CreateFileW v p :=
    match find_entry v p with
    | Some id => inl id
    | None => inr 2
    end;
  GetFileInformationByHandle v h :=
    inl (mkInfo (Z.shiftr h 32) (Z.land h (2 ^ 32 - 1)) (count_links v h));
  DeleteFileW v p :=
    match find_entry v p with
    | Some _ => inl (remove_entry v p)
    | None => inr 2
    end;
  CreateHardLinkW v newName existing :=
    match find_entry v newName with
    | Some _ => inr 183
    | None =>
        match find_entry v existing with
        | Some id => inl (v ++ [(newName, id)])%list
        | None => inr 2
        end
    end
}.

(* ================================================================== *)
(** ** Vocabulary of the statements *)

(** The byte of a file at an offset, if any. *)
Definition byte_at (d : list byte) (i : Z) : option byte :=
  if i <? 0 then None else nth_error d (Z.to_nat i).

(** Two contents agree on the offsets of [[lo, hi)]: wherever one has a
    byte the other has the same byte. *)
Definition agree (dp dc : list byte) (lo hi : Z) : Prop :=
  forall i, lo <= i < hi -> byte_at dc i = byte_at dp i.

(** [q] opens and its content equals the pivot content [dp] from offset
    [off] to the end of both. *)
Definition same_from (fs : FileSystem) (dp : list byte) (off : Z) (q : path)
  : Prop :=
  exists dc, fs q = Some dc /\ forall i, off <= i -> byte_at dc i = byte_at dp i.

(** [q] opens, agrees with the pivot content [dp] on [[off, fst k)] and has
    at offset [fst k] the byte [snd k], where the pivot has another byte. *)
Definition diverges_at (fs : FileSystem) (dp : list byte) (off : Z)
    (k : GroupKey) (q : path) : Prop :=
  exists dc, fs q = Some dc /\ off <= fst k /\ agree dp dc off (fst k) /\
    byte_at dc (fst k) = Some (snd k) /\
    exists b, byte_at dp (fst k) = Some b /\ b <> snd k.

(** [q] is in the vector stored under key [k]. *)
Definition bucket_member (kg : KeyGroups) (k : GroupKey) (q : path) : Prop :=
  exists v, In (k, v) kg /\ In q v.

(** The number of paths stored in a map. *)
Definition kg_size (kg : KeyGroups) : nat :=
  fold_right (fun e n => (length (snd e) + n)%nat) 0%nat kg.

(** The keys of a map are strictly increasing. *)
Definition sorted_keys (kg : KeyGroups) : Prop :=
  StronglySorted (fun a b => key_lt a b = true) (map fst kg).

(** No path belongs to two groups of the list. *)
Definition pairwise_disjoint (groups : list (list path)) : Prop :=
  ForallOrdPairs (fun g1 g2 => forall p, In p g1 -> ~ In p g2) groups.

(** The invariant of an active right file when [t] bytes have been
    compared: it is open on its file, in good state, positioned at [t], and
    agrees with the pivot content on [[off, t)]. *)
Definition right_ok (fs : FileSystem) (dp : list byte) (off t : Z)
    (r : RightFileState) : Prop :=
  fs (filePath r) = Some (buf (stream r)) /\
  good (stream r) = true /\ gpos (stream r) = t /\
  agree dp (buf (stream r)) off t.

(** [p] opens for reading. *)
Definition opens (fs : FileSystem) (p : path) : bool :=
  match fs p with Some _ => true | None => false end.

(** What the chunk loop may add to the map: only paths of [paths] that
    diverge from the pivot content [dp] at the key they are stored under. *)
Definition extends_with (fs : FileSystem) (dp : list byte) (off : Z)
    (paths : list path) (kg kg' : KeyGroups) : Prop :=
  forall k q, bucket_member kg' k q ->
    bucket_member kg k q \/ (In q paths /\ diverges_at fs dp off k q).

(** What one call of the comparator, or a run of calls against the same
    pivot from the same offset, does to [duplicateGroup] and [keyGroups]:
    it appends to [duplicateGroup] right files equal to the pivot from
    [off] on, and adds to [keyGroups] right files under the key at which
    they diverge from the pivot. *)
Definition compare_post (fs : FileSystem) (pivot : path) (off : Z)
    (rights : list path) (kg : KeyGroups) (dg : list path)
    (kg' : KeyGroups) (dg' : list path) : Prop :=
  (exists new, dg' = (dg ++ new)%list /\
     (forall q, In q new ->
        In q rights /\ exists dp, fs pivot = Some dp /\ same_from fs dp off q) /\
     (kg_size kg' + length new <= kg_size kg + length rights)%nat) /\
  (forall k q, bucket_member kg' k q ->
     bucket_member kg k q \/
     (In q rights /\ exists dp, fs pivot = Some dp /\ diverges_at fs dp off k q)) /\
  (sorted_keys kg -> sorted_keys kg') /\
  (kg_size kg <= kg_size kg')%nat.

(** What the loop over [keyGroups] emits for one entry, when every
    recursive call on [files] from [off] emits groups that satisfy
    [P files off]: nothing for a bucket of fewer than two files. *)
Definition sub_results (P : list path -> Z -> list (list path) -> Prop)
    (entry : GroupKey * list path) (sub : list (list path)) : Prop :=
  if (1 <? length (snd entry))%nat
  then P (snd entry) (fst (fst entry)) sub
  else sub = [].

(** The precondition of the partitioner: the files that open have the same
    size, and the same bytes before [off]. *)
Definition equal_sizes (fs : FileSystem) (files : list path) : Prop :=
  forall p q dp dq, In p files -> In q files ->
    fs p = Some dp -> fs q = Some dq -> length dp = length dq.

Definition identical_prefix (fs : FileSystem) (files : list path) (off : Z)
  : Prop :=
  forall p q dp dq, In p files -> In q files ->
    fs p = Some dp -> fs q = Some dq -> agree dp dq 0 off.

(** The groups emitted by a call contain only files of its input, and no
    file is in two of them. *)
Definition emits_disjoint (files : list path) (off : Z)
    (new : list (list path)) : Prop :=
  (forall g p, In g new -> In p g -> In p files) /\ pairwise_disjoint new.

(** The groups emitted by a call on files that share their bytes before
    [off] hold files of one content. *)
Definition emits_identical (fs : FileSystem) (files : list path) (off : Z)
    (new : list (list path)) : Prop :=
  identical_prefix fs files off ->
  forall g p q, In g new -> In p g -> In q g ->
    exists d, fs p = Some d /\ fs q = Some d.

(** What [dedup_member] may do: besides the identity query of the
    duplicate, a delete of the duplicate and a link named as the duplicate
    to the master. *)
Definition member_event (master dupFile : path) (e : Event) : Prop :=
  (forall x, touches x e = true -> x = dupFile) /\
  (forall n ex, e = CallCreateHardLinkW n ex -> n = dupFile /\ ex = master).

(** No character of [s] is [c]. *)
Fixpoint lacks (c : ascii) (s : string) : Prop :=
  match s with
  | EmptyString => True
  | String x rest => x <> c /\ lacks c rest
  end.

(** [p] is in the vector stored under [size]. *)
Definition size_member (sg : SizeGroups) (size : Z) (p : path) : Prop :=
  exists v, In (size, v) sg /\ In p v.

Definition sorted_sizes (sg : SizeGroups) : Prop :=
  StronglySorted Z.lt (map fst sg).

(** The regular files a search reaches: [listed directory l p fd] when the
    entries [l] found in [directory], or in a subdirectory reached through
    directories that are no reparse points, hold a file of full path [p]
    and find data [fd] that is neither a reparse point nor a directory. *)
Inductive listed : string -> list DirEntry -> path -> WIN32_FIND_DATA -> Prop :=
| listed_file directory l fd found :
    In (Entry fd found) l ->
    is_reparse_point fd = false -> is_dot_name (cFileName fd) = false ->
    is_directory fd = false ->
    listed directory l (directory ++ "\" ++ cFileName fd)%string fd
| listed_sub directory l fd sub p fd' :
    In (Entry fd (Some sub)) l ->
    is_reparse_point fd = false -> is_dot_name (cFileName fd) = false ->
    is_directory fd = true ->
    listed (directory ++ "\" ++ cFileName fd)%string sub p fd' ->
    listed directory l p fd'.

(** What one entry of a search, and what a whole search, adds to the map:
    the regular files reached that pass the filter and the size bound, each
    under its size, with the keys still sorted. *)
Definition entry_post (extFilter directory : string) (e : DirEntry)
    (sg sg' : SizeGroups) : Prop :=
  (sorted_sizes sg -> sorted_sizes sg') /\
  forall size p,
    size_member sg' size p <->
    size_member sg size p \/
    exists fd, listed directory [e] p fd /\ file_size fd = size /\
               MIN_SIZE_TO_CONSIDER <= size /\
               HasExtension p extFilter = true.

Definition listing_post (extFilter directory : string) (l : list DirEntry)
    (sg sg' : SizeGroups) : Prop :=
  (sorted_sizes sg -> sorted_sizes sg') /\
  forall size p,
    size_member sg' size p <->
    size_member sg size p \/
    exists fd, listed directory l p fd /\ file_size fd = size /\
               MIN_SIZE_TO_CONSIDER <= size /\
               HasExtension p extFilter = true.

(** An active right file of the size of the pivot. *)
Definition right_full (fs : FileSystem) (dp : list byte) (off t : Z)
    (r : RightFileState) : Prop :=
  right_ok fs dp off t r /\ length (buf (stream r)) = length dp.

(** Every file of the list opens, and all have [n] bytes. *)
Definition all_of_size (fs : FileSystem) (files : list path) (n : nat)
  : Prop :=
  forall p, In p files -> exists d, fs p = Some d /\ length d = n.

(** The groups emitted by a call on files of one size keep files of one
    content together. *)
Definition emits_maximal (fs : FileSystem) (files : list path) (off : Z)
    (new : list (list path)) : Prop :=
  0 <= off -> (exists n, all_of_size fs files n) ->
  forall p q d, In p files -> In q files -> p <> q ->
    fs p = Some d -> fs q = Some d ->
    exists g, In g new /\ In p g /\ In q g.

(** Two file systems open the same paths, and every file has the same
    bytes from offset [off] on in both. *)
Definition agree_from (fs1 fs2 : FileSystem) (off : Z) : Prop :=
  forall p,
    match fs1 p, fs2 p with
    | Some d1, Some d2 =>
        skipn (Z.to_nat off) d1 = skipn (Z.to_nat off) d2
    | None, None => True
    | _, _ => False
    end.

(** Two streams that cannot be told apart by reading on: same position and
    state, and the same bytes ahead when they are good. *)
Definition stream_sim (s1 s2 : ifstream) : Prop :=
  0 <= gpos s1 /\ gpos s1 = gpos s2 /\ eofbit s1 = eofbit s2 /\
  failbit s1 = failbit s2 /\ gcount s1 = gcount s2 /\
  (good s1 = true ->
   skipn (Z.to_nat (gpos s1)) (buf s1) = skipn (Z.to_nat (gpos s1)) (buf s2)).

Definition right_sim (r1 r2 : RightFileState) : Prop :=
  filePath r1 = filePath r2 /\ stream_sim (stream r1) (stream r2).

(** [l1] is [l2] with some elements left out, the others in their order. *)
Inductive subseq (A : Type) : list A -> list A -> Prop :=
| subseq_nil : subseq [] []
| subseq_skip x l1 l2 : subseq l1 l2 -> subseq l1 (x :: l2)
| subseq_take x l1 l2 : subseq l1 l2 -> subseq (x :: l1) (x :: l2).

(** What a run of the comparator does to the vectors of the map: each
    vector of [kg'] is a vector of [kg], or a new one, with paths of
    [paths] appended in their order, under keys whose offset is in [R]. *)
Definition grows_in_order (R : Z -> Prop) (paths : list path)
    (kg kg' : KeyGroups) : Prop :=
  forall (k : GroupKey) v', In (k, v') kg' ->
    exists v add, v' = (v ++ add)%list /\ (In (k, v) kg \/ v = []) /\
                  subseq add paths /\ (add <> [] -> R (fst k)).

(** [m] reports that a file of [files] does not open. *)
Definition reports_unopenable (fs : FileSystem) (files : list path)
    (m : Msg) : Prop :=
  exists p, In p files /\ fs p = None /\
            (m = ErrOpeningMaster p \/ m = ErrOpeningRight p).

(** A list cut into consecutive pieces of [MAX_BATCH] elements, the last
    one possibly shorter; [fuel] bounds the number of pieces. *)
Fixpoint batches_of (fuel : nat) (l : list path) : list (list path) :=
  match fuel with
  | O => []
  | S fuel' =>
      match l with
      | [] => []
      | _ :: _ => firstn MAX_BATCH l :: batches_of fuel' (skipn MAX_BATCH l)
      end
  end.

(** One call of the comparator per batch, against the same pivot and from
    the same offset, each on the map and the group the one before left. *)
Fixpoint run_batches (fs : FileSystem) (pivot : path)
    (batches : list (list path)) (totalBytesRead : Z)
    (keyGroups : KeyGroups) (duplicateGroup : list path)
  : option (KeyGroups * list path * list Msg) :=
  match batches with
  | [] => Some (keyGroups, duplicateGroup, [])
  | batch :: rest =>
      match CompareFilesBufferedAdvanced fs pivot batch totalBytesRead
              keyGroups duplicateGroup with
      | None => None
      | Some (keyGroups, duplicateGroup, log) =>
          match run_batches fs pivot rest totalBytesRead keyGroups
                  duplicateGroup with
          | None => None
          | Some (keyGroups, duplicateGroup, log') =>
              Some (keyGroups, duplicateGroup, (log ++ log')%list)
          end
      end
  end.

(** The unique id [GetFileUniqueIdAndLinkCount] reports for a path, if it
    succeeds. *)
Definition unique_id {World : Type} {api : Win32 World} (w : World)
    (p : path) : option Z :=
  option_map fst (fst (GetFileUniqueIdAndLinkCount w p)).

(** The deduplicator reported that it left [m] aside. *)
Definition reported_skipped (master m : path) (ev : list Event) : Prop :=
  In (Say (ErrDupId m)) ev \/
  (exists code, In (Say (ErrDelete m code)) ev) \/
  (exists code, In (Say (ErrHardLink m master code)) ev).

(** The Win32 calls that name a path: identity query (the open of its
    file), delete, link. *)
Definition is_path_call (e : Event) : bool :=
  match e with
  | CallCreateFileW _ | CallDeleteFileW _ | CallCreateHardLinkW _ _ => true
  | _ => false
  end.

(** The calls the deduplicator may make for one member: its query alone
    (the query failed, or the member is already linked), query and delete
    (the delete failed), or query, delete and link (the delete
    succeeded). *)
Definition member_calls (master m : path) (calls : list Event) : Prop :=
  calls = [CallCreateFileW m] \/
  calls = [CallCreateFileW m; CallDeleteFileW m] \/
  calls = [CallCreateFileW m; CallDeleteFileW m;
           CallCreateHardLinkW m master].

(** What became of a duplicate the deduplicator deleted: replaced by a link
    to the master, or lost because the link could not be created. *)
Inductive Outcome : Type := Relinked | Lost.

(** [consolidates master w steps w']: the volume [w'] is reached from [w]
    by deleting the paths of [steps] one after the other, each delete
    followed by a link to [master] that succeeds ([Relinked]) or fails
    ([Lost]). *)
Inductive consolidates (World : Type) (api : Win32 World) (master : path)
  : World -> list (path * Outcome) -> World -> Prop :=
| consolidates_nil w : consolidates api master w [] w
| consolidates_relinked w p w1 w2 rest w' :
    DeleteFileW w p = inl w1 -> CreateHardLinkW w1 p master = inl w2 ->
    consolidates api master w2 rest w' ->
    consolidates api master w ((p, Relinked) :: rest) w'
| consolidates_lost w p w1 err rest w' :
    DeleteFileW w p = inl w1 -> CreateHardLinkW w1 p master = inr err ->
    consolidates api master w1 rest w' ->
    consolidates api master w ((p, Lost) :: rest) w'.

(** The log tells what was done: [Replaced duplicate] for the relinked
    paths, [Error creating hard link] for the lost ones. *)
Definition log_matches (master : path) (steps : list (path * Outcome))
    (ev : list Event) : Prop :=
  (forall p, In (p, Relinked) steps <-> In (Say (OutReplaced p master)) ev) /\
  (forall p, In (p, Lost) steps <->
             exists code, In (Say (ErrHardLink p master code)) ev).

(** Replaying a trace on the volume, one event at a time.  The state is the
    volume and the handle [CreateFileW] returned that is not closed yet.
    [CreateFileW] is called only while no handle is open, and opens one
    when it succeeds on the volume as it is; the file information is read
    through the open handle, and [CloseHandle] closes the open handle;
    [DeleteFileW] and [CreateHardLinkW] are called only while no handle is
    open, and change the volume when they succeed.  [None] when an event
    breaks this discipline. *)
Definition handle_step (World : Type) (api : Win32 World)
    (st : World * option HANDLE) (e : Event)
  : option (World * option HANDLE) :=
  match e, snd st with
  | Say _, _ => Some st
  | CallCreateFileW p, None =>
      match CreateFileW (fst st) p with
      | inl h => Some (fst st, Some h)
      | inr _ => Some (fst st, None)
      end
  | CallGetFileInformationByHandle h, Some h' =>
      if h =? h' then Some st else None
  | CallCloseHandle h, Some h' =>
      if h =? h' then Some (fst st, None) else None
  | CallDeleteFileW p, None =>
      match DeleteFileW (fst st) p with
      | inl w1 => Some (w1, None)
      | inr _ => Some (fst st, None)
      end
  | CallCreateHardLinkW newName existing, None =>
      match CreateHardLinkW (fst st) newName existing with
      | inl w2 => Some (w2, None)
      | inr _ => Some (fst st, None)
      end
  | _, _ => None
  end.

Fixpoint handle_run (World : Type) (api : Win32 World)
    (st : World * option HANDLE) (ev : list Event)
  : option (World * option HANDLE) :=
  match ev with
  | [] => Some st
  | e :: rest =>
      match handle_step api st e with
      | Some st' => handle_run api st' rest
      | None => None
      end
  end.


(** The values of a [DWORD]. *)
Definition is_dword (x : Z) : Prop := 0 <= x < 2 ^ 32.

(** The file information the identity query of [p] reads, when the file
    opens and the information is available. *)
Definition file_information {World : Type} {api : Win32 World} (w : World)
    (p : path) : option BY_HANDLE_FILE_INFORMATION :=
  match CreateFileW w p with
  | inl hFile =>
      match GetFileInformationByHandle w hFile with
      | inl fileInfo => Some fileInfo
      | inr _ => None
      end
  | inr _ => None
  end.

(** The groups handed to the deduplicator: each comes from one size bucket
    and holds files of one content. *)
Definition grouped_from (fs : FileSystem) (sizeGroups : list (Z * list path))
    (g : list path) : Prop :=
  (2 <= length g)%nat /\
  (exists size files, In (size, files) sizeGroups /\
                      forall p, In p g -> In p files) /\
  forall p q, In p g -> In q g -> exists d, fs p = Some d /\ fs q = Some d.

(** The regular files one entry of a search leads to, in the order the
    search visits them, each with its full path and find data. *)
Fixpoint files_of_entry (directory : string) (e : DirEntry) {struct e}
  : list (path * WIN32_FIND_DATA) :=
  match e with
  | Entry findData found =>
      if is_reparse_point findData then []
      else if is_dot_name (cFileName findData) then []
      else
        let fullPath := (directory ++ "\" ++ cFileName findData)%string in
        if is_directory findData then
          match found with
          | None => []
          | Some l =>
              (fix walk (l : list DirEntry) : list (path * WIN32_FIND_DATA) :=
                 match l with
                 | [] => []
                 | e' :: l' => (files_of_entry fullPath e' ++ walk l')%list
                 end) l
          end
        else [(fullPath, findData)]
  end.

(** The regular files a search of [directory] visits, in its order. *)
Definition files_found (directory : string) (found : option (list DirEntry))
  : list (path * WIN32_FIND_DATA) :=
  match found with
  | None => []
  | Some l => flat_map (files_of_entry directory) l
  end.

(** The files the enumeration keeps: those that pass the extension filter
    and have at least [MIN_SIZE_TO_CONSIDER] bytes. *)
Definition accepted (extFilter : string) (x : path * WIN32_FIND_DATA)
  : bool :=
  HasExtension (fst x) extFilter
  && negb (file_size (snd x) <? MIN_SIZE_TO_CONSIDER).

(** The files pushed one after the other under their sizes. *)
Definition push_all (files : list (path * WIN32_FIND_DATA))
    (sizeGroups : SizeGroups) : SizeGroups :=
  fold_left (fun sg x => size_push sg (file_size (snd x)) (fst x)) files
    sizeGroups.

(** The numbers of the [Duplicate Group #] headers of a trace, in order. *)
Definition header_indices (ev : list Event) : list nat :=
  flat_map (fun e => match e with
                     | Say (OutGroupHeader index _) => [index]
                     | _ => []
                     end) ev.

(** The [*] written before a group is deduplicated. *)
Definition is_star (e : Event) : bool :=
  match e with Say OutStar => true | _ => false end.

(** Events that are no part of the report of [wmain]: no group header, no
    [No duplicate files found.], no [*]. *)
Definition report_free (e : Event) : bool :=
  match e with
  | Say (OutGroupHeader _ _) | Say OutNoDuplicates | Say OutStar => false
  | _ => true
  end.

(** The deduplicator reported that it left [p] aside, whatever its
    master. *)
Definition reported_aside (p : path) (ev : list Event) : Prop :=
  exists master, reported_skipped master p ev.

(** The files open with the sizes the search reported for them. *)
Definition sizes_agree (fs : FileSystem)
    (files : list (path * WIN32_FIND_DATA)) : Prop :=
  forall p fd, In (p, fd) files ->
    exists d, fs p = Some d /\ Z.of_nat (length d) = file_size fd.

(** The groups handed to the deduplicator are sound: at least two files,
    no path twice, all from one size bucket. *)
Definition sound_group (sizeGroups : list (Z * list path)) (g : list path)
  : Prop :=
  (2 <= length g)%nat /\ NoDup g /\
  exists size files, In (size, files) sizeGroups /\ incl g files.

(* ================================================================== *)
(** ** Example inputs *)

(** Five small files: [a] and [b] are equal, [c] and [d] are equal and differ
    from [a] at offset 2, [e] is [a] without its last byte; no other path
    opens. *)
Definition fs_demo : FileSystem := fun p =>
  if String.eqb p "a"%string then Some (list_byte_of_string "hello"%string)
  else if String.eqb p "b"%string then Some (list_byte_of_string "hello"%string)
  else if String.eqb p "c"%string then Some (list_byte_of_string "hexlo"%string)
  else if String.eqb p "d"%string then Some (list_byte_of_string "hexlo"%string)
  else if String.eqb p "e"%string then Some (list_byte_of_string "hell"%string)
  else None.

(** Files longer than one chunk: [n] bytes [a] followed by [tail]. *)
Definition long_file (n : nat) (tail : string) : list byte :=
  (repeat "a"%byte n ++ list_byte_of_string tail)%list.

(** [a] and [b] are equal; [c] differs from them at offset 5002, in the
    second chunk; [d] and [e] are equal and differ from [a] at offset 4999;
    [f] differs from [a] at offset 4200 and is shorter than [a]. *)
Definition fs_long : FileSystem := fun p =>
  if String.eqb p "a"%string then Some (long_file 5000 "xyz"%string)
  else if String.eqb p "b"%string then Some (long_file 5000 "xyz"%string)
  else if String.eqb p "c"%string then Some (long_file 5000 "xyw"%string)
  else if String.eqb p "d"%string then Some (long_file 4999 "bxyw"%string)
  else if String.eqb p "e"%string then Some (long_file 4999 "bxyw"%string)
  else if String.eqb p "f"%string then Some (long_file 4200 "b"%string)
  else None.

(** A volume with the given directory entries, nothing denied, hard links
    supported. *)
Definition vol_demo (es : list (path * Z)) : Volume := mkVolume es [] true.

(** What a search of a root folder finds: the two dot entries, three files
    of 20000 bytes (one of them with another extension), a small file, a
    junction, and a subdirectory with one more file of 20000 bytes. *)
Definition tree_demo : list DirEntry :=
  [ Entry (mkFindData 16 0 0 ".") None;
    Entry (mkFindData 16 0 0 "..") None;
    Entry (mkFindData 32 0 20000 "a.bin") None;
    Entry (mkFindData 32 0 20000 "b.BIN") None;
    Entry (mkFindData 32 0 100 "small.bin") None;
    Entry (mkFindData 32 0 20000 "c.txt") None;
    Entry (mkFindData 1040 0 0 "junction")
      (Some [Entry (mkFindData 32 0 20000 "j.bin") None]);
    Entry (mkFindData 16 0 0 "sub")
      (Some [ Entry (mkFindData 16 0 0 ".") None;
              Entry (mkFindData 16 0 0 "..") None;
              Entry (mkFindData 32 0 20000 "d.bin") None ]) ]%string.

(** The content of the files of [tree_demo]: [a.bin] and [b.BIN] are equal,
    [d.bin] differs from them in its last byte. *)
Definition fs_tree : FileSystem := fun p =>
  if String.eqb p "root\a.bin"%string
  then Some (long_file (Z.to_nat 19997) "xyz"%string)
  else if String.eqb p "root\b.BIN"%string
  then Some (long_file (Z.to_nat 19997) "xyz"%string)
  else if String.eqb p "root\sub\d.bin"%string
  then Some (long_file (Z.to_nat 19997) "xyw"%string)
  else if String.eqb p "root\c.txt"%string
  then Some (long_file (Z.to_nat 19997) "xyz"%string)
  else None.

Definition vol_tree : Volume :=
  vol_demo [("root\a.bin", 1); ("root\b.BIN", 2); ("root\sub\d.bin", 3);
            ("root\c.txt", 4)]%string.

(** What [wmain] does on this volume for the filter [.bin]. *)
Definition events_tree : list Event :=
  Eval vm_compute in
    match wmain_argv ["dedup"; "root"; ".bin"]%string (Some tree_demo)
            fs_tree vol_tree with
    | Some (_, _, ev) => ev
    | None => []
    end.

Definition vol_tree_after : Volume :=
  Eval vm_compute in
    match wmain_argv ["dedup"; "root"; ".bin"]%string (Some tree_demo)
            fs_tree vol_tree with
    | Some (_, w, _) => w
    | None => vol_tree
    end.

(** A volume that does not support hard links. *)
Definition vol_nolinks : Volume :=
  mkVolume [("a", 1); ("b", 2); ("c", 3)]%string [] false.

(** The example files as a list of names, every file separate, and what
    [wmain] makes of it. *)
Definition names_demo : Names :=
  [("a", 1); ("b", 2); ("c", 3); ("d", 4)]%string.

Definition names_demo_after : Names :=
  Eval vm_compute in
    match wmain 2 [(5, ["a"; "b"; "c"; "d"]%string)] fs_demo names_demo with
    | Some (_, w, _) => w
    | None => names_demo
    end.

Definition names_demo_events : list Event :=
  Eval vm_compute in
    match wmain 2 [(5, ["a"; "b"; "c"; "d"]%string)] fs_demo names_demo with
    | Some (_, _, ev) => ev
    | None => []
    end.

Definition names_tree : Names :=
  [("root\a.bin", 1); ("root\b.BIN", 2); ("root\sub\d.bin", 3);
   ("root\c.txt", 4)]%string.

Definition names_tree_after : Names :=
  Eval vm_compute in
    match wmain_argv ["dedup"; "root"; ".bin"]%string (Some tree_demo)
            fs_tree names_tree with
    | Some (_, w, _) => w
    | None => names_tree
    end.

Definition names_tree_events : list Event :=
  Eval vm_compute in
    match wmain_argv ["dedup"; "root"; ".bin"]%string (Some tree_demo)
            fs_tree names_tree with
    | Some (_, _, ev) => ev
    | None => []
    end.

(** [fs] with the first byte of every file overwritten. *)
Definition scramble_first (fs : FileSystem) : FileSystem := fun p =>
  option_map (fun d => "000"%byte :: tl d) (fs p).

(* ================================================================== *)
(** * Properties *)

(** *** Keys and the map *)

Lemma to_N_inj (x y : byte) : Byte.to_N x = Byte.to_N y -> x = y.
Proof.
  intros H. pose proof (Byte.of_to_N x) as Hx. pose proof (Byte.of_to_N y) as Hy.
  rewrite H in Hx. congruence.
Qed.

Lemma char_to_Z_inj (x y : byte) : char_to_Z x = char_to_Z y -> x = y.
Proof.
  unfold char_to_Z. intros H. apply to_N_inj.
  pose proof (Byte.to_N_bounded x). pose proof (Byte.to_N_bounded y).
  destruct (Z.ltb_spec (Z.of_N (Byte.to_N x)) 128);
    destruct (Z.ltb_spec (Z.of_N (Byte.to_N y)) 128); lia.
Qed.

Lemma key_lt_irrefl (a : GroupKey) : key_lt a a = false.
Proof.
  unfold key_lt. rewrite !Z.ltb_irrefl. reflexivity.
Qed.

Lemma key_lt_spec (a b : GroupKey) :
  key_lt a b = true <->
  fst a < fst b \/ (fst a = fst b /\ char_to_Z (snd a) < char_to_Z (snd b)).
Proof.
  unfold key_lt. rewrite orb_true_iff, andb_true_iff, negb_true_iff.
  rewrite !Z.ltb_lt, Z.ltb_ge. lia.
Qed.

Lemma key_lt_trans (a b c : GroupKey) :
  key_lt a b = true -> key_lt b c = true -> key_lt a c = true.
Proof. rewrite !key_lt_spec. lia. Qed.

Lemma key_lt_total (a b : GroupKey) :
  key_lt a b = false -> key_lt b a = false -> a = b.
Proof.
  intros Hab Hba.
  assert (H1 : ~ (key_lt a b = true)) by congruence.
  assert (H2 : ~ (key_lt b a = true)) by congruence.
  rewrite key_lt_spec in H1, H2.
  destruct a as [oa ca], b as [ob cb]; simpl in *.
  assert (oa = ob) by lia. subst ob.
  f_equal. apply char_to_Z_inj. lia.
Qed.

Lemma map_push_member (kg : KeyGroups) (key : GroupKey) (p : path) k q :
  bucket_member (map_push kg key p) k q <->
  bucket_member kg k q \/ (k = key /\ q = p).
Proof.
  unfold bucket_member. induction kg as [|[k0 v0] rest IH]; simpl.
  - split.
    + intros (v & [E|[]] & Hq). inversion E; subst. destruct Hq as [->|[]]. auto.
    + intros [(v & [] & _)|[-> ->]]. exists [p]. simpl; auto.
  - destruct (key_lt key k0) eqn:E1; [|destruct (key_lt k0 key) eqn:E2].
    + split.
      * intros (v & [E|Hin] & Hq).
        -- inversion E; subst. destruct Hq as [->|[]]. auto.
        -- left. eauto.
      * intros [(v & Hin & Hq)|[-> ->]].
        -- exists v. simpl. auto.
        -- exists [p]. simpl. auto.
    + split.
      * intros (v & [E|Hin] & Hq).
        -- inversion E; subst. left. exists v. simpl; auto.
        -- destruct (proj1 IH (ex_intro _ v (conj Hin Hq))) as [(v' & H1 & H2)|H].
           ++ left. exists v'. simpl; auto.
           ++ auto.
      * intros [(v & [E|Hin] & Hq)|H].
        -- inversion E; subst. exists v. simpl; auto.
        -- destruct (proj2 IH (or_introl (ex_intro _ v (conj Hin Hq))))
             as (v' & H1 & H2).
           exists v'. simpl; auto.
        -- destruct (proj2 IH (or_intror H)) as (v' & H1 & H2).
           exists v'. simpl; auto.
    + assert (key = k0) by (apply key_lt_total; assumption). subst k0.
      split.
      * intros (v & [E|Hin] & Hq).
        -- inversion E; subst. apply in_app_or in Hq.
           destruct Hq as [Hq|[->|[]]]; [left; exists v0; simpl; auto | auto].
        -- left. exists v. simpl; auto.
      * intros [(v & [E|Hin] & Hq)|[-> ->]].
        -- inversion E; subst. exists (v ++ [p])%list. split; [simpl; auto|].
           apply in_or_app; auto.
        -- exists v. simpl; auto.
        -- exists (v0 ++ [p])%list. split; [simpl; auto|].
           apply in_or_app; simpl; auto.
Qed.

Lemma kg_size_map_push (kg : KeyGroups) key p :
  kg_size (map_push kg key p) = S (kg_size kg).
Proof.
  induction kg as [|[k0 v0] rest IH]; simpl; [reflexivity|].
  destruct (key_lt key k0); [reflexivity|].
  destruct (key_lt k0 key); simpl.
  - fold (kg_size (map_push rest key p)). rewrite IH.
    fold (kg_size rest). lia.
  - rewrite length_app. simpl. lia.
Qed.

Lemma map_push_keys (kg : KeyGroups) key p k :
  In k (map fst (map_push kg key p)) -> k = key \/ In k (map fst kg).
Proof.
  induction kg as [|[k0 v0] rest IH]; simpl.
  - intros [H|[]]; auto.
  - destruct (key_lt key k0); [|destruct (key_lt k0 key)]; simpl.
    + intros [H|[H|H]]; auto.
    + intros [H|H]; auto. destruct (IH H); auto.
    + intros [H|H]; auto.
Qed.

Lemma map_push_sorted (kg : KeyGroups) key p :
  sorted_keys kg -> sorted_keys (map_push kg key p).
Proof.
  unfold sorted_keys. induction kg as [|[k0 v0] rest IH]; simpl; intros HS.
  - constructor; constructor.
  - inversion HS as [|? ? HS' HF]; subst.
    destruct (key_lt key k0) eqn:E1; [|destruct (key_lt k0 key) eqn:E2]; simpl.
    + constructor; [assumption|].
      constructor; [assumption|].
      rewrite Forall_forall in *. intros x Hx.
      eapply key_lt_trans; eauto.
    + constructor; [auto|].
      rewrite Forall_forall in *. intros x Hx.
      destruct (@map_push_keys _ _ _ _ Hx) as [->|Hx']; auto.
    + constructor; assumption.
Qed.

Lemma sorted_keys_NoDup (kg : KeyGroups) :
  sorted_keys kg -> NoDup (map fst kg).
Proof.
  unfold sorted_keys. induction (map fst kg) as [|k ks IH]; intros HS.
  - constructor.
  - inversion HS as [|? ? HS' HF]; subst. constructor; auto.
    intros Hin. rewrite Forall_forall in HF. specialize (HF _ Hin).
    rewrite key_lt_irrefl in HF. discriminate.
Qed.

(** *** Chunks, [memcmp] and the mismatch index *)

Lemma byte_at_chunk (d : list byte) (t : Z) (m j : nat) :
  0 <= t ->
  (j < length (firstn m (skipn (Z.to_nat t) d)))%nat ->
  nth_error (firstn m (skipn (Z.to_nat t) d)) j = byte_at d (t + Z.of_nat j).
Proof.
  intros Ht Hj. unfold byte_at.
  destruct (Z.ltb_spec (t + Z.of_nat j) 0); [lia|].
  rewrite nth_error_firstn.
  rewrite length_firstn in Hj.
  destruct (Nat.ltb_spec j m); [|lia].
  rewrite nth_error_skipn. f_equal. lia.
Qed.

Lemma byte_at_beyond (d : list byte) (i : Z) :
  Z.of_nat (length d) <= i -> byte_at d i = None.
Proof.
  intros H. unfold byte_at. destruct (i <? 0); [reflexivity|].
  apply nth_error_None. lia.
Qed.

Lemma byte_at_Some_lt (d : list byte) (i : Z) b :
  byte_at d i = Some b -> 0 <= i < Z.of_nat (length d).
Proof.
  unfold byte_at. destruct (Z.ltb_spec i 0) as [Hneg|Hnn]; [discriminate|].
  intros H. assert (Hn : nth_error d (Z.to_nat i) <> None) by congruence.
  apply nth_error_Some in Hn. lia.
Qed.

Lemma byte_at_ext (d1 d2 : list byte) :
  (forall i, 0 <= i -> byte_at d1 i = byte_at d2 i) -> d1 = d2.
Proof.
  intros H. apply nth_error_ext. intros n.
  specialize (H (Z.of_nat n) ltac:(lia)). unfold byte_at in H.
  destruct (Z.ltb_spec (Z.of_nat n) 0); [lia|].
  rewrite Nat2Z.id in H. exact H.
Qed.

Lemma memcmp_zero (n : nat) : forall a b,
  length a = n -> length b = n -> memcmp a b n = 0 -> a = b.
Proof.
  induction n as [|n IH]; intros [|x a] [|y b] Ha Hb; simpl in *;
    try discriminate; try reflexivity.
  destruct (N.ltb_spec (Byte.to_N x) (Byte.to_N y)) as [|H1]; [discriminate|].
  destruct (N.ltb_spec (Byte.to_N y) (Byte.to_N x)) as [|H2]; [discriminate|].
  intros Hm. f_equal.
  - apply to_N_inj. lia.
  - apply IH; auto.
Qed.

Lemma find_mismatch_spec (n : nat) : forall a b,
  length a = n -> length b = n -> memcmp a b n <> 0 ->
  exists i : nat,
    find_mismatch a b n = Z.of_nat i /\ (i < n)%nat /\
    (forall j, (j < i)%nat -> nth_error a j = nth_error b j) /\
    exists x y, nth_error a i = Some x /\ nth_error b i = Some y /\ x <> y.
Proof.
  induction n as [|n IH]; intros [|x a] [|y b] Ha Hb;
    cbn [length memcmp find_mismatch] in *;
    try discriminate; try congruence.
  intros Hc.
  destruct (Byte.eqb x y) eqn:E.
  - apply Byte.byte_dec_bl in E. subst y.
    rewrite N.ltb_irrefl in Hc.
    destruct (IH a b) as (i & Hi & Hlt & Hpre & x' & y' & Hx & Hy & Hne);
      auto.
    exists (S i). rewrite Hi. split; [lia|]. split; [lia|]. split.
    + intros [|j] Hj; simpl; [reflexivity|]. apply Hpre. lia.
    + exists x', y'. auto.
  - exists 0%nat. split; [reflexivity|]. split; [lia|]. split.
    + intros j Hj. lia.
    + exists x, y. simpl. repeat split. intros ->.
      rewrite (Byte.byte_dec_lb eq_refl) in E. discriminate.
Qed.

(** *** One right file against one master chunk *)

Lemma compare_right_spec (fs : FileSystem) (dp : list byte) (off t : Z)
    (r : RightFileState) (n : nat) :
  let mb := firstn n (skipn (Z.to_nat t) dp) in
  let masterBytes := Z.of_nat (length mb) in
  0 <= off <= t -> right_ok fs dp off t r ->
  match compare_right mb masterBytes t r with
  | Erased => True
  | Pruned k => diverges_at fs dp off k (filePath r)
  | Kept r' => filePath r' = filePath r /\ right_ok fs dp off (t + masterBytes) r'
  end.
Proof.
  intros mb masterBytes Hoff (Hfs & Hgood & Hpos & Hag).
  assert (Hmb : Z.to_nat masterBytes = length mb)
    by (subst masterBytes; apply Nat2Z.id).
  unfold compare_right, read. rewrite Hgood. cbn [gcount].
  rewrite Hpos, !Hmb.
  set (dc := buf (stream r)) in *.
  set (rb := firstn (length mb) (skipn (Z.to_nat t) dc)).
  destruct (Z.eqb_spec (Z.of_nat (length rb)) masterBytes) as [Hlen|Hlen];
    cbn [negb]; [|exact I].
  assert (Hlen' : length rb = length mb) by (unfold masterBytes in Hlen; lia).
  assert (Hchunk : forall j, (j < length mb)%nat ->
            byte_at dc (t + Z.of_nat j) = nth_error rb j /\
            byte_at dp (t + Z.of_nat j) = nth_error mb j).
  { intros j Hj. split; symmetry; apply byte_at_chunk; try lia.
    fold rb. lia. exact Hj. }
  destruct (Z.eqb_spec (memcmp mb rb (length mb)) 0) as [Hc|Hc]; cbn [negb].
  - apply memcmp_zero in Hc; auto.
    split; [reflexivity|].
    unfold right_ok; cbn [filePath stream buf gpos good eofbit failbit].
    fold dc. split; [exact Hfs|].
    split.
    { destruct (Z.ltb_spec (Z.of_nat (length rb)) masterBytes); [lia|reflexivity]. }
    split; [unfold masterBytes; lia|].
    intros i Hi. destruct (Z.lt_ge_cases i t) as [Hlt|Hge].
    + apply Hag. lia.
    + replace i with (t + Z.of_nat (Z.to_nat (i - t))) by lia.
      destruct (Hchunk (Z.to_nat (i - t))) as [H1 H2].
      { unfold masterBytes in Hi. lia. }
      rewrite H1, H2, Hc. reflexivity.
  - destruct (@find_mismatch_spec (length mb) mb rb) as
        (i & Hi & Hlt & Hpre & x & y & Hx & Hy & Hne); auto.
    rewrite Hi, Nat2Z.id.
    exists dc. cbn [fst snd].
    rewrite (nth_error_nth _ _ _ Hy).
    destruct (Hchunk i Hlt) as [H1 H2].
    split; [exact Hfs|]. split; [lia|]. split.
    + intros j Hj. destruct (Z.lt_ge_cases j t) as [Hjt|Hjt].
      * apply Hag. lia.
      * replace j with (t + Z.of_nat (Z.to_nat (j - t))) by lia.
        destruct (Hchunk (Z.to_nat (j - t))) as [H3 H4]; [lia|].
        rewrite H3, H4. symmetry. apply Hpre. lia.
    + split; [congruence|]. exists x. split; [congruence|exact Hne].
Qed.

(** *** The comparator against a fixed pivot content *)

Section Comparator.

Variable fs : FileSystem.
Variable dp : list byte.     (* content of the pivot *)
Variable off : Z.            (* offset at which the call started *)

Lemma extends_with_refl paths kg : extends_with fs dp off paths kg kg.
Proof. intros k q H. auto. Qed.

Lemma extends_with_trans paths kg1 kg2 kg3 :
  extends_with fs dp off paths kg1 kg2 -> extends_with fs dp off paths kg2 kg3 ->
  extends_with fs dp off paths kg1 kg3.
Proof.
  intros H12 H23 k q H. destruct (H23 _ _ H) as [H'|H']; auto.
Qed.

Lemma extends_with_mono paths paths' kg kg' :
  incl paths paths' -> extends_with fs dp off paths kg kg' ->
  extends_with fs dp off paths' kg kg'.
Proof.
  intros Hi H k q Hm. destruct (H _ _ Hm) as [?|[? ?]]; auto.
Qed.

Lemma compare_chunk_spec (n : nat) (t : Z) :
  let mb := firstn n (skipn (Z.to_nat t) dp) in
  let masterBytes := Z.of_nat (length mb) in
  0 <= off <= t ->
  forall rs kg rs' kg',
    Forall (right_ok fs dp off t) rs ->
    compare_chunk mb masterBytes t rs kg = (rs', kg') ->
    Forall (right_ok fs dp off (t + masterBytes)) rs' /\
    incl (map filePath rs') (map filePath rs) /\
    extends_with fs dp off (map filePath rs) kg kg' /\
    (sorted_keys kg -> sorted_keys kg') /\
    (kg_size kg <= kg_size kg')%nat /\
    (kg_size kg' + length rs' <= kg_size kg + length rs)%nat.
Proof.
  intros mb masterBytes Hoff rs.
  induction rs as [|r rest IH]; intros kg rs' kg' Hok Hc; simpl in Hc.
  - inversion Hc; subst. repeat split; auto using extends_with_refl, incl_refl; lia.
  - inversion Hok as [|? ? Hr Hrest]; subst.
    pose proof (@compare_right_spec fs dp off t r n Hoff Hr) as Hspec.
    fold mb in Hspec. fold masterBytes in Hspec.
    destruct (compare_right mb masterBytes t r) as [|key|r1].
    + destruct (IH _ _ _ Hrest Hc) as (H1 & H2 & H3 & H4 & H5 & H6).
      repeat split; auto; try (simpl; lia).
      * apply incl_tl. exact H2.
      * eapply extends_with_mono; [|exact H3]. apply incl_tl, incl_refl.
    + destruct (IH _ _ _ Hrest Hc) as (H1 & H2 & H3 & H4 & H5 & H6).
      rewrite kg_size_map_push in *.
      repeat split; auto; try (simpl; lia).
      * apply incl_tl. exact H2.
      * intros k q Hm. destruct (H3 _ _ Hm) as [Hm'|[Hin Hd]].
        -- apply map_push_member in Hm'. destruct Hm' as [?|[-> ->]]; auto.
           right. split; [simpl; auto|exact Hspec].
        -- right. split; [simpl; auto|exact Hd].
      * intros HS. apply H4. apply map_push_sorted. exact HS.
    + destruct (compare_chunk mb masterBytes t rest kg) as [rs1 kg1] eqn:E.
      inversion Hc; subst.
      destruct (IH _ _ _ Hrest E) as (H1 & H2 & H3 & H4 & H5 & H6).
      destruct Hspec as [Hp Hr1].
      repeat split; auto; try (simpl; lia).
      * simpl. rewrite Hp. intros x [<-|Hx]; [left; reflexivity|right; auto].
      * eapply extends_with_mono; [|exact H3]. apply incl_tl, incl_refl.
Qed.

Lemma read_master (m : ifstream) (n : Z) :
  forall mb m', read m n = (mb, m') ->
  0 < n -> 0 <= gpos m ->
  buf m' = buf m /\ gpos m' = gpos m + gcount m' /\
  gcount m' = Z.of_nat (length mb) /\
  (good m = true ->
   mb = firstn (Z.to_nat n) (skipn (Z.to_nat (gpos m)) (buf m))) /\
  (good m = false -> mb = []) /\
  gpos m' <= Z.max (gpos m) (Z.of_nat (length (buf m))) /\
  (good m' = false -> gcount m' > 0 ->
   Z.of_nat (length (buf m)) <= gpos m') /\
  (good m = true -> gcount m' <= 0 -> Z.of_nat (length (buf m)) <= gpos m).
Proof.
  intros mb m' H Hn Hpos. unfold read in H.
  destruct (good m) eqn:Hg.
  - set (c := firstn (Z.to_nat n) (skipn (Z.to_nat (gpos m)) (buf m))) in *.
    assert (Hlen : length c = Nat.min (Z.to_nat n)
                            (length (buf m) - Z.to_nat (gpos m))).
    { unfold c. rewrite length_firstn, length_skipn. reflexivity. }
    clearbody c. inversion H; subst; clear H.
    cbn [buf gpos gcount good eofbit failbit].
    split; [reflexivity|]. split; [reflexivity|]. split; [reflexivity|].
    split; [reflexivity|]. split; [discriminate|]. split; [lia|].
    split; [|intros; lia].
    destruct (Z.ltb_spec (Z.of_nat (length mb)) n); simpl;
      [intros; lia|discriminate].
  - inversion H; subst; clear H.
    cbn [buf gpos gcount good eofbit failbit length].
    repeat split; try discriminate; try lia.
Qed.

Lemma compare_loop_spec (fuel : nat) :
  forall m rs t kg rs' kg',
    0 <= off <= t -> buf m = dp -> gpos m = t ->
    (good m = false -> Z.of_nat (length dp) <= t) ->
    Forall (right_ok fs dp off t) rs ->
    compare_loop fuel m rs t kg = Some (rs', kg') ->
    (exists t', Forall (right_ok fs dp off t') rs' /\
                (rs' = [] \/ Z.of_nat (length dp) <= t')) /\
    incl (map filePath rs') (map filePath rs) /\
    extends_with fs dp off (map filePath rs) kg kg' /\
    (sorted_keys kg -> sorted_keys kg') /\
    (kg_size kg <= kg_size kg')%nat /\
    (kg_size kg' + length rs' <= kg_size kg + length rs)%nat.
Proof.
  induction fuel as [|fuel IH]; intros m rs t kg rs' kg' Hoff Hbuf Hpos Hbad Hok Hl;
    cbn [compare_loop] in Hl; [discriminate|].
  destruct (read m BUFFER_SIZE) as [mb m'] eqn:Hr.
  destruct (@read_master m BUFFER_SIZE mb m' Hr ltac:(reflexivity) ltac:(lia)) as
      (Hb' & Hp' & Hg' & Hmb & Hmb0 & _ & Hbad' & Hend).
  destruct (Z.leb_spec (gcount m') 0) as [Hle|Hgt].
  - inversion Hl; subst rs' kg'.
    repeat split; auto using extends_with_refl, incl_refl.
    exists t. split; [exact Hok|]. right.
    destruct (good m) eqn:Hg; [|auto].
    rewrite Hbuf, Hpos in Hend. auto.
  - assert (Hgood : good m = true).
    { destruct (good m); [reflexivity|]. rewrite (Hmb0 eq_refl) in Hg'.
      simpl in Hg'. lia. }
    specialize (Hmb Hgood). rewrite Hbuf, Hpos in Hmb.
    destruct (compare_chunk mb (gcount m') t rs kg) as [rs1 kg1] eqn:Hc.
    rewrite Hg' in Hc. rewrite Hmb in Hc.
    destruct (@compare_chunk_spec (Z.to_nat BUFFER_SIZE) t Hoff rs kg rs1 kg1 Hok Hc)
      as (H1 & H2 & H3 & H4 & H5 & H6).
    rewrite <- Hmb, <- Hg' in H1.
    destruct rs1 as [|r1 rs1].
    + inversion Hl; subst rs' kg'.
      repeat split; auto.
      exists (t + gcount m'). split; [constructor|auto].
    + destruct (IH m' (r1 :: rs1) (t + gcount m') kg1 rs' kg') as
          (G1 & G2 & G3 & G4 & G5 & G6); auto; try lia.
      * congruence.
      * intros Hb. specialize (Hbad' Hb ltac:(lia)). rewrite Hbuf in Hbad'. lia.
      * repeat split; auto.
        -- eapply incl_tran; eauto.
        -- eapply extends_with_trans; [exact H3|].
           eapply extends_with_mono; [exact H2|exact G3].
        -- lia.
        -- lia.
Qed.

Lemma compare_loop_total (fuel : nat) :
  forall m rs t kg,
    0 <= gpos m ->
    Z.of_nat fuel > Z.max 0 (Z.of_nat (length (buf m)) - gpos m) ->
    exists r, compare_loop fuel m rs t kg = Some r.
Proof.
  induction fuel as [|fuel IH]; intros m rs t kg Hpos Hf; [lia|].
  cbn [compare_loop].
  destruct (read m BUFFER_SIZE) as [mb m'] eqn:Hr.
  destruct (@read_master m BUFFER_SIZE mb m' Hr ltac:(reflexivity) Hpos) as
      (Hb' & Hp' & Hg' & Hmb & Hmb0 & Hmax & Hbad' & Hend).
  destruct (Z.leb_spec (gcount m') 0) as [Hle|Hgt]; [eauto|].
  destruct (compare_chunk mb (gcount m') t rs kg) as [[|r1 rs1] kg1]; [eauto|].
  apply IH; [lia|]. rewrite Hb'. lia.
Qed.

Lemma collect_identical_spec (t' : Z) : forall rs dg,
  Forall (right_ok fs dp off t') rs ->
  (rs = [] \/ Z.of_nat (length dp) <= t') ->
  exists new, collect_identical rs dg = (dg ++ new)%list /\
    (forall q, In q new -> In q (map filePath rs) /\ same_from fs dp off q) /\
    (length new <= length rs)%nat.
Proof.
  induction rs as [|r rest IH]; intros dg Hok Hend; simpl.
  - exists []. rewrite app_nil_r.
    split; [reflexivity|]. split; [intros q []|simpl; lia].
  - destruct Hend as [Hend|Hend]; [discriminate|].
    inversion Hok as [|? ? (Hfs & Hgood & Hpos & Hag) Hrest]; subst.
    unfold peek. rewrite Hgood.
    destruct (skipn (Z.to_nat (gpos (stream r))) (buf (stream r))) as [|c s] eqn:Hs;
      cbn [eof eofbit].
    + destruct (IH (dg ++ [filePath r])%list Hrest (or_intror Hend))
        as (new & E & Hnew & Hlen).
      exists (filePath r :: new). rewrite E, <- app_assoc. simpl.
      split; [reflexivity|]. split; [|lia].
      intros q [<-|Hq].
      * split; [left; reflexivity|].
        exists (buf (stream r)). split; [exact Hfs|].
        intros i Hi.
        destruct (Z.lt_ge_cases i (gpos (stream r))) as [Hlt|Hge].
        -- apply Hag. lia.
        -- assert (Hl : length (skipn (Z.to_nat (gpos (stream r)))
                                 (buf (stream r))) = 0%nat)
             by (rewrite Hs; reflexivity).
           rewrite length_skipn in Hl.
           rewrite !byte_at_beyond; auto; lia.
      * split; [right|]; apply Hnew; auto.
    + destruct (IH dg Hrest (or_intror Hend)) as (new & E & Hnew & Hlen).
      exists new. split; [exact E|]. split; [|lia].
      intros q Hq. split; [right|]; apply Hnew; auto.
Qed.

Lemma open_rights_spec : forall rights rs log,
  0 <= off ->
  open_rights fs rights off = (rs, log) ->
  Forall (right_ok fs dp off off) rs /\
  map filePath rs = filter (opens fs) rights /\
  log = map ErrOpeningRight (filter (fun p => negb (opens fs p)) rights).
Proof.
  induction rights as [|p rest IH]; intros rs log Hoff H; simpl in H.
  - inversion H; subst. repeat split; constructor.
  - destruct (open_rights fs rest off) as [rs1 log1] eqn:E.
    destruct (IH _ _ Hoff eq_refl) as (H1 & H2 & H3).
    unfold open, fail, opens in *. simpl.
    destruct (fs p) as [d|] eqn:Hp; cbn [failbit] in H; inversion H; subst; simpl.
    + repeat split; auto; [|f_equal; auto].
      constructor; [|exact H1].
      unfold right_ok, seekg; cbn [filePath stream failbit buf gpos].
      destruct (Z.ltb_spec off 0); [lia|].
      cbn [buf good eofbit failbit gpos andb negb].
      repeat split; auto. intros i Hi. lia.
    + repeat split; auto.
Qed.

End Comparator.

(** *** [CompareFilesBufferedAdvanced] as a whole *)

Lemma compare_post_refl fs pivot off rights kg dg :
  compare_post fs pivot off rights kg dg kg dg.
Proof.
  repeat split; auto; try lia.
  exists []. rewrite app_nil_r. split; [reflexivity|].
  split; [intros q []|simpl; lia].
Qed.

Lemma compare_post_app fs pivot off r1 r2 kg dg kg1 dg1 kg2 dg2 :
  compare_post fs pivot off r1 kg dg kg1 dg1 ->
  compare_post fs pivot off r2 kg1 dg1 kg2 dg2 ->
  compare_post fs pivot off (r1 ++ r2) kg dg kg2 dg2.
Proof.
  intros ((n1 & E1 & M1 & S1) & B1 & So1 & L1) ((n2 & E2 & M2 & S2) & B2 & So2 & L2).
  split; [|split; [|split]].
  - exists (n1 ++ n2)%list. subst. rewrite app_assoc. split; [reflexivity|].
    split.
    + intros q Hq. apply in_app_or in Hq. destruct Hq as [Hq|Hq].
      * destruct (M1 _ Hq) as [Hin H]. split; [apply in_or_app; auto|exact H].
      * destruct (M2 _ Hq) as [Hin H]. split; [apply in_or_app; auto|exact H].
    + rewrite !length_app. lia.
  - intros k q Hm. destruct (B2 _ _ Hm) as [Hm1|[Hin H]].
    + destruct (B1 _ _ Hm1) as [?|[Hin H]]; auto.
      right. split; [apply in_or_app; auto|exact H].
    + right. split; [apply in_or_app; auto|exact H].
  - auto.
  - lia.
Qed.

Lemma open_rights_paths (fs : FileSystem) (off : Z) : forall rights rs log,
  open_rights fs rights off = (rs, log) ->
  map filePath rs = filter (opens fs) rights /\
  log = map ErrOpeningRight (filter (fun p => negb (opens fs p)) rights) /\
  (off < 0 ->
   Forall (fun r => good (stream r) = false /\ eofbit (stream r) = false) rs).
Proof.
  induction rights as [|p rest IH]; intros rs log H; simpl in H.
  - inversion H; subst. repeat split; constructor.
  - destruct (open_rights fs rest off) as [rs1 log1] eqn:E.
    destruct (IH _ _ eq_refl) as (H1 & H2 & H3).
    unfold open, fail, opens in *. simpl.
    destruct (fs p) as [d|] eqn:Hp; cbn [failbit] in H; inversion H; subst;
      simpl.
    + split; [f_equal; exact H1|]. split; [reflexivity|].
      intros Hneg. constructor; [|auto].
      unfold seekg; cbn [stream failbit].
      destruct (Z.ltb_spec off 0); [|lia]. split; reflexivity.
    + split; [exact H1|]. split; [reflexivity|exact H3].
Qed.

Lemma collect_identical_bad : forall rs dg,
  Forall (fun r => good (stream r) = false /\ eofbit (stream r) = false) rs ->
  collect_identical rs dg = dg.
Proof.
  induction rs as [|r rest IH]; intros dg H; simpl; [reflexivity|].
  inversion H as [|? ? [Hg He] Hrest]; subst.
  unfold peek. rewrite Hg. cbn [eof eofbit]. rewrite He. auto.
Qed.

Lemma filter_opens_incl (fs : FileSystem) (l : list path) :
  incl (filter (opens fs) l) l.
Proof. intros x Hx. apply filter_In in Hx. tauto. Qed.

Lemma Compare_spec (fs : FileSystem) pivot rights off kg dg kg' dg' log :
  CompareFilesBufferedAdvanced fs pivot rights off kg dg = Some (kg', dg', log) ->
  compare_post fs pivot off (filter (opens fs) rights) kg dg kg' dg' /\
  match fs pivot with
  | None => kg' = kg /\ dg' = dg /\ log = [ErrOpeningMaster pivot]
  | Some _ =>
      log = map ErrOpeningRight (filter (fun p => negb (opens fs p)) rights)
  end.
Proof.
  unfold CompareFilesBufferedAdvanced.
  unfold open at 1, fail at 1.
  destruct (fs pivot) as [dp|] eqn:Hp; cbn [failbit].
  2:{ intros H; inversion H; subst. split; [apply compare_post_refl|auto]. }
  unfold open at 1 2. rewrite Hp.
  destruct (open_rights fs rights off) as [rs log0] eqn:Ho.
  destruct (@open_rights_paths fs off rights rs log0 Ho) as (Hpaths & Hlog & Hbad).
  set (master := seekg (mk dp 0 false false 0) off).
  destruct (compare_loop (S (length (buf master))) master rs off kg)
    as [[rs1 kg1]|] eqn:Hl; [|discriminate].
  intros H; inversion H; subst kg1 dg' log; clear H.
  split; [|exact Hlog].
  destruct (Z.lt_ge_cases off 0) as [Hneg|Hnn].
  - (* the seeks fail: nothing is read and nothing is recorded *)
    assert (Hm : good master = false).
    { unfold master, seekg; cbn [failbit]. destruct (Z.ltb_spec off 0); [reflexivity|lia]. }
    cbn [compare_loop] in Hl. unfold read in Hl. rewrite Hm in Hl.
    cbn [gcount] in Hl. simpl in Hl. inversion Hl; subst.
    rewrite collect_identical_bad by auto. apply compare_post_refl.
  - assert (Hm : master = mk dp off false false 0).
    { unfold master, seekg; cbn [failbit]. destruct (Z.ltb_spec off 0); [lia|reflexivity]. }
    destruct (@open_rights_spec fs dp off rights rs log0 Hnn Ho) as (Hok & _ & _).
    destruct (@compare_loop_spec fs dp off (S (length (buf master))) master
                rs off kg rs1 kg')
      as ((t' & Hok' & Hend) & Hincl & Hext & Hsort & Hsz1 & Hsz2); auto;
      try (rewrite Hm; first [reflexivity|discriminate]); [lia|].
    destruct (@collect_identical_spec fs dp off t' rs1 dg Hok' Hend)
      as (new & E & Hnew & Hlen).
    assert (Hlr : length rs = length (filter (opens fs) rights))
      by (rewrite <- Hpaths, length_map; reflexivity).
    rewrite Hpaths in *.
    split; [|split; [|split]]; auto.
    + exists new. split; [exact E|]. split; [|lia].
      intros q Hq. destruct (Hnew _ Hq) as [Hin Hs].
      split; [apply Hincl; exact Hin|]. exists dp. auto.
    + intros k q Hmem. destruct (Hext _ _ Hmem) as [?|[Hin Hd]]; auto.
      right. split; [exact Hin|]. exists dp. auto.
Qed.

Lemma compare_post_weaken fs pivot off r r' kg dg kg' dg' :
  incl r r' -> (length r <= length r')%nat ->
  compare_post fs pivot off r kg dg kg' dg' ->
  compare_post fs pivot off r' kg dg kg' dg'.
Proof.
  intros Hi Hl ((new & E & M & S) & B & So & L).
  split; [|split; [|split]]; auto.
  - exists new. split; [exact E|]. split; [|lia].
    intros q Hq. destruct (M _ Hq) as [Hin H]. auto.
  - intros k q Hm. destruct (B _ _ Hm) as [?|[Hin H]]; auto.
Qed.

Lemma filter_length_le' (A : Type) (f : A -> bool) (l : list A) :
  (length (filter f l) <= length l)%nat.
Proof.
  induction l as [|x l IH]; simpl; [lia|]. destruct (f x); simpl; lia.
Qed.

Lemma Compare_total (fs : FileSystem) pivot rights off kg dg :
  exists r, CompareFilesBufferedAdvanced fs pivot rights off kg dg = Some r.
Proof.
  unfold CompareFilesBufferedAdvanced.
  destruct (fail (open fs pivot)); [eauto|].
  destruct (open_rights fs rights off) as [rs log].
  set (master := seekg (open fs pivot) off).
  destruct (@compare_loop_total (S (length (buf master))) master rs off kg)
    as [[rs1 kg1] E].
  - unfold master, seekg, open.
    destruct (fs pivot); cbn [failbit gpos];
      try destruct (Z.ltb_spec off 0); cbn [gpos]; lia.
  - assert (0 <= gpos master).
    { unfold master, seekg, open.
      destruct (fs pivot); cbn [failbit gpos];
        try destruct (Z.ltb_spec off 0); cbn [gpos]; lia. }
    lia.
  - rewrite E. eauto.
Qed.

Lemma batch_split (rights : list path) (processed b : nat) :
  (firstn b (skipn processed rights) ++ skipn (processed + b) rights)%list
  = skipn processed rights.
Proof.
  rewrite Nat.add_comm, <- skipn_skipn. apply firstn_skipn.
Qed.

Lemma compare_batches_spec (fs : FileSystem) pivot rights off (fuel : nat) :
  forall processed kg dg kg' dg' log,
    compare_batches fuel fs pivot rights processed off kg dg
      = Some (kg', dg', log) ->
    compare_post fs pivot off (skipn processed rights) kg dg kg' dg' /\
    match fs pivot with
    | None => kg' = kg /\ dg' = dg /\ Forall (eq (ErrOpeningMaster pivot)) log
    | Some _ =>
        log = map ErrOpeningRight
                (filter (fun p => negb (opens fs p)) (skipn processed rights))
    end.
Proof.
  induction fuel as [|fuel IH]; intros processed kg dg kg' dg' log H;
    cbn [compare_batches] in H;
    destruct (Nat.ltb_spec processed (length rights)) as [Hlt|Hge].
  - discriminate.
  - inversion H; subst. split; [apply compare_post_refl|].
    rewrite skipn_all2 by lia. destruct (fs pivot); simpl; auto.
  - set (b := Nat.min (length rights - processed) MAX_BATCH) in *.
    set (batch := firstn b (skipn processed rights)) in *.
    destruct (CompareFilesBufferedAdvanced fs pivot batch off kg dg)
      as [[[kg1 dg1] log1]|] eqn:Ec; [|discriminate].
    destruct (compare_batches fuel fs pivot rights (processed + b) off kg1 dg1)
      as [[[kg2 dg2] log2]|] eqn:Eb; [|discriminate].
    inversion H; subst kg2 dg2 log; clear H.
    destruct (@Compare_spec _ _ _ _ _ _ _ _ _ Ec) as [P1 L1].
    destruct (IH _ _ _ _ _ _ Eb) as [P2 L2].
    split.
    + rewrite <- (batch_split rights processed b). fold batch.
      eapply compare_post_app; [|exact P2].
      eapply compare_post_weaken; [| |exact P1].
      * apply filter_opens_incl.
      * apply filter_length_le'.
    + destruct (fs pivot).
      * rewrite <- (batch_split rights processed b). fold batch.
        rewrite filter_app, map_app. congruence.
      * destruct L1 as (-> & -> & ->). destruct L2 as (-> & -> & HF).
        repeat split. constructor; auto.
  - inversion H; subst. split; [apply compare_post_refl|].
    rewrite skipn_all2 by lia. destruct (fs pivot); simpl; auto.
Qed.

Lemma compare_batches_total (fs : FileSystem) pivot rights off (fuel : nat) :
  forall processed kg dg,
    (length rights - processed <= fuel)%nat ->
    exists r, compare_batches fuel fs pivot rights processed off kg dg = Some r.
Proof.
  induction fuel as [|fuel IH]; intros processed kg dg Hf;
    cbn [compare_batches];
    destruct (Nat.ltb_spec processed (length rights)) as [Hlt|Hge];
    eauto; [lia|].
  set (b := Nat.min (length rights - processed) MAX_BATCH).
  assert (Hb : (1 <= b)%nat) by (unfold b, MAX_BATCH; lia).
  destruct (Compare_total fs pivot (firstn b (skipn processed rights)) off kg dg)
    as [[[kg1 dg1] log1] Ec].
  rewrite Ec.
  destruct (IH (processed + b)%nat kg1 dg1 ltac:(lia)) as [[[kg2 dg2] log2] Eb].
  rewrite Eb. eauto.
Qed.

(** *** The call tree of [GroupFilesByContentUsingMap] *)

Lemma recurse_key_groups_spec
    (P : list path -> Z -> list (list path) -> Prop)
    (recurse : list path -> list (list path) -> Z ->
               option (list (list path) * list Msg)) :
  (forall files groups off groups' log,
      recurse files groups off = Some (groups', log) ->
      exists new, groups' = (groups ++ new)%list /\ P files off new) ->
  forall entries groups groups' log,
    recurse_key_groups recurse entries groups = Some (groups', log) ->
    exists subs, Forall2 (sub_results P) entries subs /\
                 groups' = (groups ++ concat subs)%list.
Proof.
  intros Hrec. induction entries as [|e rest IH]; intros groups groups' log H;
    cbn [recurse_key_groups] in H.
  - inversion H; subst. exists []. split; [constructor|].
    simpl. rewrite app_nil_r. reflexivity.
  - destruct (1 <? length (snd e))%nat eqn:Hsz.
    + destruct (recurse (snd e) groups (fst (fst e))) as [[g1 l1]|] eqn:E1;
        [|discriminate].
      destruct (recurse_key_groups recurse rest g1) as [[g2 l2]|] eqn:E2;
        [|discriminate].
      inversion H; subst g2 log; clear H.
      destruct (Hrec _ _ _ _ _ E1) as (new & -> & HP).
      destruct (IH _ _ _ E2) as (subs & HF & ->).
      exists (new :: subs). split.
      * constructor; [|exact HF]. unfold sub_results. rewrite Hsz. exact HP.
      * simpl. rewrite app_assoc. reflexivity.
    + destruct (IH _ _ _ H) as (subs & HF & ->).
      exists ([] :: subs). split.
      * constructor; [|exact HF]. unfold sub_results. rewrite Hsz. reflexivity.
      * reflexivity.
Qed.

(** Induction over the call tree: a property of the groups emitted by a call
    follows from the same property of the groups emitted by the recursive
    calls on the buckets. *)
Lemma Group_call_tree (fs : FileSystem)
    (P : list path -> Z -> list (list path) -> Prop) :
  (forall files off, (length files < 2)%nat -> P files off []) ->
  (forall pivot rights off kg dg log subs,
      compare_batches (length rights) fs pivot rights 0 off [] [pivot]
        = Some (kg, dg, log) ->
      Forall2 (sub_results P) kg subs ->
      P (pivot :: rights) off
        ((if (1 <? length dg)%nat then [dg] else []) ++ concat subs)%list) ->
  forall fuel files groups off groups' log,
    GroupFilesByContentUsingMap_fuel fuel fs files groups off
      = Some (groups', log) ->
    exists new, groups' = (groups ++ new)%list /\ P files off new.
Proof.
  intros Hsmall Hstep. induction fuel as [|fuel IH];
    intros files groups off groups' log H;
    destruct files as [|pivot [|p2 rest]]; cbn [GroupFilesByContentUsingMap_fuel] in H;
    try (inversion H; subst; exists []; rewrite app_nil_r;
         split; [reflexivity|apply Hsmall; simpl; lia]);
    try discriminate.
  set (rights := p2 :: rest) in *.
  destruct (compare_batches (length rights) fs pivot rights 0 off [] [pivot])
    as [[[kg dg] log1]|] eqn:Eb; [|discriminate].
  destruct (recurse_key_groups (GroupFilesByContentUsingMap_fuel fuel fs) kg
              (if (1 <? length dg)%nat then (groups ++ [dg])%list else groups))
    as [[g2 log2]|] eqn:Er; [|discriminate].
  inversion H; subst g2 log; clear H.
  destruct (recurse_key_groups_spec P _ IH _ _ Er) as (subs & HF & ->).
  exists ((if (1 <? length dg)%nat then [dg] else []) ++ concat subs)%list.
  split.
  - destruct (1 <? length dg)%nat; simpl.
    + rewrite <- app_assoc. reflexivity.
    + reflexivity.
  - eapply Hstep; eauto.
Qed.

Lemma bucket_length_le (kg : KeyGroups) k v :
  In (k, v) kg -> (length v <= kg_size kg)%nat.
Proof.
  induction kg as [|[k0 v0] rest IH]; simpl; [tauto|].
  fold (kg_size rest).
  intros [E|Hin]; [inversion E; subst; lia|]. specialize (IH Hin). lia.
Qed.

Lemma compare_post_bucket_length fs pivot off rights kg dg' k v :
  compare_post fs pivot off rights [] [pivot] kg dg' ->
  In (k, v) kg -> (length v <= length rights)%nat.
Proof.
  intros ((new & _ & _ & S) & _) Hin.
  apply bucket_length_le in Hin. simpl in S. lia.
Qed.

Lemma recurse_key_groups_total
    (recurse : list path -> list (list path) -> Z ->
               option (list (list path) * list Msg)) :
  forall entries : KeyGroups,
    (forall (e : GroupKey * list path) groups,
       In e entries -> (1 < length (snd e))%nat ->
       exists r, recurse (snd e) groups (fst (fst e)) = Some r) ->
    forall groups, exists r, recurse_key_groups recurse entries groups = Some r.
Proof.
  induction entries as [|e rest IH]; intros Hrec groups;
    cbn [recurse_key_groups]; [eauto|].
  assert (Hrest : forall (e : GroupKey * list path) groups,
            In e rest -> (1 < length (snd e))%nat ->
            exists r, recurse (snd e) groups (fst (fst e)) = Some r)
    by (intros; apply Hrec; simpl; auto).
  destruct (1 <? length (snd e))%nat eqn:Hsz; [|apply IH; exact Hrest].
  apply Nat.ltb_lt in Hsz. rename Hsz into Hlt.
  destruct (Hrec e groups (or_introl eq_refl) Hlt) as [[g1 l1] E1]. rewrite E1.
  destruct (IH Hrest g1) as [[g2 l2] E2]. rewrite E2. eauto.
Qed.

Lemma Group_fuel_total (fs : FileSystem) (fuel : nat) :
  forall files groups off,
    (length files <= fuel)%nat ->
    exists r, GroupFilesByContentUsingMap_fuel fuel fs files groups off = Some r.
Proof.
  induction fuel as [|fuel IH]; intros files groups off Hf;
    destruct files as [|pivot [|p2 rest]]; cbn [GroupFilesByContentUsingMap_fuel];
    eauto; [simpl in Hf; lia|].
  set (rights := p2 :: rest) in *.
  destruct (@compare_batches_total fs pivot rights off (length rights) 0%nat
              [] [pivot] ltac:(lia)) as [[[kg dg] log1] Eb].
  rewrite Eb.
  destruct (compare_batches_spec _ _ _ _ _ _ _ _ Eb) as [Hpost _].
  simpl skipn in Hpost.
  destruct (@recurse_key_groups_total (GroupFilesByContentUsingMap_fuel fuel fs) kg)
    with (groups := if (1 <? length dg)%nat then (groups ++ [dg])%list else groups)
    as [[g2 l2] Er].
  - intros [k v] g Hin Hlt. apply IH.
    eapply compare_post_bucket_length in Hin; [|exact Hpost].
    unfold rights in *. cbn [snd length] in *. lia.
  - rewrite Er. eauto.
Qed.

Lemma recurse_key_groups_mono
    (rec1 rec2 : list path -> list (list path) -> Z ->
                 option (list (list path) * list Msg)) :
  (forall files groups off r,
      rec1 files groups off = Some r -> rec2 files groups off = Some r) ->
  forall entries groups r,
    recurse_key_groups rec1 entries groups = Some r ->
    recurse_key_groups rec2 entries groups = Some r.
Proof.
  intros Hrec. induction entries as [|e rest IH]; intros groups r H;
    cbn [recurse_key_groups] in *; [exact H|].
  destruct (1 <? length (snd e))%nat; [|auto].
  destruct (rec1 (snd e) groups (fst (fst e))) as [[g1 l1]|] eqn:E1;
    [|discriminate].
  rewrite (Hrec _ _ _ _ E1).
  destruct (recurse_key_groups rec1 rest g1) as [[g2 l2]|] eqn:E2;
    [|discriminate].
  rewrite (IH _ _ E2). exact H.
Qed.

Lemma Group_fuel_mono (fs : FileSystem) (fuel : nat) :
  forall fuel' files groups off r,
    (fuel <= fuel')%nat ->
    GroupFilesByContentUsingMap_fuel fuel fs files groups off = Some r ->
    GroupFilesByContentUsingMap_fuel fuel' fs files groups off = Some r.
Proof.
  induction fuel as [|fuel IH]; intros fuel' files groups off r Hle H;
    destruct files as [|pivot [|p2 rest]];
    cbn [GroupFilesByContentUsingMap_fuel] in H;
    try discriminate;
    try (destruct fuel'; exact H).
  destruct fuel' as [|fuel']; [lia|].
  cbn [GroupFilesByContentUsingMap_fuel].
  destruct (compare_batches (length (p2 :: rest)) fs pivot (p2 :: rest) 0 off
              [] [pivot]) as [[[kg dg] log1]|]; [|discriminate].
  destruct (recurse_key_groups (GroupFilesByContentUsingMap_fuel fuel fs) kg _)
    as [[g2 l2]|] eqn:Er; [|discriminate].
  assert (Hrec : forall files groups off r,
             GroupFilesByContentUsingMap_fuel fuel fs files groups off = Some r ->
             GroupFilesByContentUsingMap_fuel fuel' fs files groups off = Some r)
    by (intros; apply IH; [lia|assumption]).
  rewrite (recurse_key_groups_mono _ _ Hrec _ _ Er). exact H.
Qed.

(** *** Destinations are exclusive *)

Lemma same_from_self (fs : FileSystem) pivot dp off :
  fs pivot = Some dp -> same_from fs dp off pivot.
Proof. intros H. exists dp. auto. Qed.

Lemma same_from_not_diverges (fs : FileSystem) dp off k q :
  same_from fs dp off q -> diverges_at fs dp off k q -> False.
Proof.
  intros (dc & Hq & Hs) (dc' & Hq' & Hoff & _ & Hb & b & Hp & Hne).
  assert (dc' = dc) by congruence. subst dc'.
  rewrite (Hs _ Hoff) in Hb. congruence.
Qed.

Lemma diverges_at_unique (fs : FileSystem) dp off k1 k2 q :
  diverges_at fs dp off k1 q -> diverges_at fs dp off k2 q -> k1 = k2.
Proof.
  intros (dc & Hq & Ho1 & Ha1 & Hb1 & b1 & Hp1 & Hn1)
         (dc' & Hq' & Ho2 & Ha2 & Hb2 & b2 & Hp2 & Hn2).
  assert (dc' = dc) by congruence. subst dc'.
  destruct k1 as [o1 c1], k2 as [o2 c2]; cbn [fst snd] in *.
  destruct (Z.lt_trichotomy o1 o2) as [Hlt|[Heq|Hgt]].
  - specialize (Ha2 o1 ltac:(lia)). congruence.
  - subst o2. congruence.
  - specialize (Ha1 o2 ltac:(lia)). congruence.
Qed.

(** The buckets filled from an empty map: every member is a right file that
    diverges from the pivot at the key of its bucket. *)
Lemma batches_bucket (fs : FileSystem) pivot rights off kg dg log k v q :
  compare_batches (length rights) fs pivot rights 0 off [] [pivot]
    = Some (kg, dg, log) ->
  In (k, v) kg -> In q v ->
  In q rights /\ exists dp, fs pivot = Some dp /\ diverges_at fs dp off k q.
Proof.
  intros Hb Hin Hq.
  destruct (compare_batches_spec _ _ _ _ _ _ _ _ Hb) as [(_ & B & _) _].
  destruct (B k q (ex_intro _ v (conj Hin Hq))) as [(v0 & [] & _)|H].
  exact H.
Qed.

(** The duplicate group built from [[pivot]]: the pivot followed by right
    files equal to the pivot from [off] on. *)
Lemma batches_group (fs : FileSystem) pivot rights off kg dg log :
  compare_batches (length rights) fs pivot rights 0 off [] [pivot]
    = Some (kg, dg, log) ->
  sorted_keys kg /\
  exists new, dg = pivot :: new /\
    forall q, In q new ->
      In q rights /\ exists dp, fs pivot = Some dp /\ same_from fs dp off q.
Proof.
  intros Hb.
  destruct (compare_batches_spec _ _ _ _ _ _ _ _ Hb)
    as [((new & E & M & _) & _ & S & _) _].
  split; [apply S; constructor|].
  exists new. split; [exact E|]. exact M.
Qed.

Lemma sub_results_members
    (P : list path -> Z -> list (list path) -> Prop) e sub :
  (forall files off new, P files off new ->
     forall g p, In g new -> In p g -> In p files) ->
  sub_results P e sub ->
  forall g p, In g sub -> In p g -> In p (snd e).
Proof.
  intros HP H g p Hg Hp. unfold sub_results in H.
  destruct (1 <? length (snd e))%nat.
  - eapply HP; eauto.
  - subst sub. destruct Hg.
Qed.

Lemma pairwise_disjoint_app (l1 l2 : list (list path)) :
  pairwise_disjoint l1 -> pairwise_disjoint l2 ->
  (forall g1 g2 p, In g1 l1 -> In g2 l2 -> In p g1 -> In p g2 -> False) ->
  pairwise_disjoint (l1 ++ l2).
Proof.
  unfold pairwise_disjoint. intros H1 H2 Hx.
  induction H1 as [|g l Hg Hl IH]; simpl; [exact H2|].
  constructor.
  - apply Forall_app. split; [exact Hg|].
    apply Forall_forall. intros g2 Hg2 p Hp Hp2.
    apply (Hx g g2 p); simpl; auto.
  - apply IH. intros g1 g2 p Hg1. apply Hx. simpl; auto.
Qed.

Lemma Forall2_In_r (A B : Type) (R : A -> B -> Prop) l1 l2 b :
  Forall2 R l1 l2 -> In b l2 -> exists a, In a l1 /\ R a b.
Proof.
  induction 1 as [|x y l1 l2 Hxy HF IH]; simpl; [tauto|].
  intros [<-|Hin].
  - exists x. auto.
  - destruct (IH Hin) as (a & Ha & HR). exists a. auto.
Qed.

Lemma subs_disjoint (P : list path -> Z -> list (list path) -> Prop)
    (kg : KeyGroups) (subs : list (list (list path))) :
  (forall files off new, P files off new ->
     (forall g p, In g new -> In p g -> In p files) /\ pairwise_disjoint new) ->
  NoDup (map fst kg) ->
  (forall k1 v1 k2 v2 p, In (k1, v1) kg -> In (k2, v2) kg ->
     In p v1 -> In p v2 -> k1 = k2) ->
  Forall2 (sub_results P) kg subs ->
  pairwise_disjoint (concat subs).
Proof.
  intros HP Hnd Hkey HF.
  induction HF as [|[k v] sub kg' subs' Hs HF IH]; simpl.
  - constructor.
  - inversion Hnd as [|? ? Hnotin Hnd']; subst.
    apply pairwise_disjoint_app.
    + unfold sub_results in Hs. destruct (1 <? length (snd (k, v)))%nat.
      * apply (HP _ _ _ Hs).
      * subst sub. constructor.
    + apply IH; [exact Hnd'|].
      intros k1 v1 k2 v2 p H1 H2. apply Hkey; simpl; auto.
    + intros g1 g2 p Hg1 Hg2 Hp1 Hp2.
      assert (Hv : In p v).
      { eapply (@sub_results_members P (k, v) sub); eauto.
        intros files off new HPn. apply (HP _ _ _ HPn). }
      apply in_concat in Hg2. destruct Hg2 as (sub2 & Hsub2 & Hg2).
      destruct (@Forall2_In_r _ _ _ _ _ _ HF Hsub2) as ([k2 v2] & Hin2 & Hs2).
      assert (Hv2 : In p v2).
      { eapply (@sub_results_members P (k2, v2) sub2); eauto.
        intros files off new HPn. apply (HP _ _ _ HPn). }
      assert (k = k2) by (eapply Hkey; simpl; eauto).
      subst k2. apply Hnotin. apply in_map_iff. exists (k, v2). auto.
Qed.

Lemma concat_Forall (Q : list path -> Prop) (kg : KeyGroups) subs :
  Forall2 (sub_results (fun _ _ new => Forall Q new)) kg subs ->
  Forall Q (concat subs).
Proof.
  induction 1 as [|e sub kg' subs' Hs HF IH]; simpl; [constructor|].
  apply Forall_app. split; [|exact IH].
  unfold sub_results in Hs. destruct (1 <? length (snd e))%nat;
    [exact Hs|subst; constructor].
Qed.

Lemma NoDup_keys_entry (kg : KeyGroups) k v1 v2 :
  NoDup (map fst kg) -> In (k, v1) kg -> In (k, v2) kg -> v1 = v2.
Proof.
  induction kg as [|[k0 v0] rest IH]; simpl; [tauto|].
  intros Hnd. inversion Hnd as [|? ? Hnotin Hnd']; subst.
  intros [E1|H1] [E2|H2].
  - congruence.
  - inversion E1; subst. exfalso. apply Hnotin.
    apply in_map_iff. exists (k, v2). auto.
  - inversion E2; subst. exfalso. apply Hnotin.
    apply in_map_iff. exists (k, v1). auto.
  - auto.
Qed.

Lemma batches_exclusive (fs : FileSystem) pivot rights off kg dg log :
  compare_batches (length rights) fs pivot rights 0 off [] [pivot]
    = Some (kg, dg, log) ->
  (forall q k v, In q dg -> In (k, v) kg -> In q v -> False) /\
  (forall q k1 v1 k2 v2, In (k1, v1) kg -> In (k2, v2) kg ->
     In q v1 -> In q v2 -> k1 = k2 /\ v1 = v2).
Proof.
  intros Hb.
  destruct (batches_group _ _ _ _ Hb) as (Hsort & new & -> & Hnew).
  split.
  - intros q k v Hq Hin Hv.
    destruct (batches_bucket _ _ _ _ _ _ _ Hb Hin Hv) as (_ & dp & Hp & Hd).
    apply (@same_from_not_diverges fs dp off k q); [|exact Hd].
    destruct Hq as [<-|Hq]; [apply same_from_self; exact Hp|].
    destruct (Hnew _ Hq) as (_ & dp' & Hp' & Hs). congruence.
  - intros q k1 v1 k2 v2 H1 H2 Hq1 Hq2.
    destruct (batches_bucket _ _ _ _ _ _ _ Hb H1 Hq1) as (_ & dp & Hp & Hd1).
    destruct (batches_bucket _ _ _ _ _ _ _ Hb H2 Hq2) as (_ & dp' & Hp' & Hd2).
    assert (dp' = dp) by congruence. subst dp'.
    assert (k1 = k2) by (eapply diverges_at_unique; eauto). subst k2.
    split; [reflexivity|].
    eapply NoDup_keys_entry; eauto. apply sorted_keys_NoDup. exact Hsort.
Qed.

Lemma Group_fuel_disjoint (fs : FileSystem) fuel files groups off groups' log :
  GroupFilesByContentUsingMap_fuel fuel fs files groups off
    = Some (groups', log) ->
  exists new, groups' = (groups ++ new)%list /\ emits_disjoint files off new.
Proof.
  apply Group_call_tree; clear.
  - intros files off _. split; [intros g p []|constructor].
  - intros pivot rights off kg dg log subs Hb HF.
    destruct (batches_group _ _ _ _ Hb) as (Hsort & newm & Edg & Hnew).
    destruct (batches_exclusive _ _ _ _ Hb) as [Hx1 Hx2].
    assert (Hsub : forall sub g p, In sub subs -> In g sub -> In p g ->
              exists k v, In (k, v) kg /\ In p v).
    { intros sub g p Hsub Hg Hp.
      destruct (@Forall2_In_r _ _ _ _ _ _ HF Hsub) as ([k v] & Hin & Hs).
      exists k, v. split; [exact Hin|].
      eapply (@sub_results_members emits_disjoint (k, v) sub); eauto.
      intros files o new [HM _]. exact HM. }
    split.
    + intros g p Hg Hp. apply in_app_or in Hg. destruct Hg as [Hg|Hg].
      * destruct (1 <? length dg)%nat; [|destruct Hg].
        destruct Hg as [<-|[]]. subst dg.
        destruct Hp as [<-|Hp]; [left; reflexivity|].
        right. apply Hnew. exact Hp.
      * apply in_concat in Hg. destruct Hg as (sub & Hsub1 & Hg).
        destruct (Hsub _ _ _ Hsub1 Hg Hp) as (k & v & Hin & Hv).
        right. apply (batches_bucket _ _ _ _ _ _ _ Hb Hin Hv).
    + apply pairwise_disjoint_app.
      * destruct (1 <? length dg)%nat; repeat constructor.
      * apply (@subs_disjoint emits_disjoint kg subs); auto.
        -- apply sorted_keys_NoDup. exact Hsort.
        -- intros k1 v1 k2 v2 p H1 H2 Hp1 Hp2.
           apply (Hx2 p k1 v1 k2 v2); assumption.
      * intros g1 g2 p Hg1 Hg2 Hp1 Hp2.
        destruct (1 <? length dg)%nat; [|destruct Hg1].
        destruct Hg1 as [<-|[]].
        apply in_concat in Hg2. destruct Hg2 as (sub & Hsub1 & Hg2).
        destruct (Hsub _ _ _ Hsub1 Hg2 Hp2) as (k & v & Hin & Hv).
        apply (Hx1 p k v); assumption.
Qed.

(** C10. Within one call tree of GroupFilesByContentUsingMap every path is
    routed to at most one destination: a path recorded in the pivot's
    duplicate group is in no bucket, and a path is in at most one bucket;
    so the groups the call emits contain only input files and are pairwise
    disjoint: no path appears in two emitted groups. *)
Theorem C10_emitted_groups_disjoint (fs : FileSystem) :
  (forall pivot rights off kg dg log,
      compare_batches (length rights) fs pivot rights 0 off [] [pivot]
        = Some (kg, dg, log) ->
      (forall q k v, In q dg -> In (k, v) kg -> In q v -> False) /\
      (forall q k1 v1 k2 v2, In (k1, v1) kg -> In (k2, v2) kg ->
         In q v1 -> In q v2 -> k1 = k2 /\ v1 = v2)) /\
  (forall files groups off groups' log,
      GroupFilesByContentUsingMap fs files groups off = Some (groups', log) ->
      exists new, groups' = (groups ++ new)%list /\
        (forall g p, In g new -> In p g -> In p files) /\
        pairwise_disjoint new).
Proof.
  split.
  - intros. eapply batches_exclusive; eauto.
  - intros files groups off groups' log H.
    apply Group_fuel_disjoint in H. destruct H as (new & E & HM & HD).
    exists new. auto.
Qed.

(** *** Emitted groups are byte-identical *)

(** A right file equal to the pivot from [off] on, and before [off] too, has
    the content of the pivot. *)
Lemma same_from_prefix_eq (fs : FileSystem) dp off q dc :
  same_from fs dp off q -> fs q = Some dc -> agree dp dc 0 off -> dc = dp.
Proof.
  intros (dc' & Hq & Hs) Hq' Hag.
  assert (dc' = dc) by congruence. subst dc'.
  apply byte_at_ext. intros i Hi.
  destruct (Z.lt_ge_cases i off); [apply Hag; lia|apply Hs; lia].
Qed.

(** The files of a bucket share their bytes before the offset of its key. *)
Lemma bucket_identical_prefix (fs : FileSystem) pivot rights off kg dg log k v :
  identical_prefix fs (pivot :: rights) off ->
  compare_batches (length rights) fs pivot rights 0 off [] [pivot]
    = Some (kg, dg, log) ->
  In (k, v) kg -> identical_prefix fs v (fst k).
Proof.
  intros Hpre Hb Hin p q dcp dcq Hp Hq Hfp Hfq i Hi.
  destruct (batches_bucket _ _ _ _ _ _ _ Hb Hin Hp)
    as (Hpr & dp & Hpiv & (d1 & E1 & _ & Ha1 & _)).
  destruct (batches_bucket _ _ _ _ _ _ _ Hb Hin Hq)
    as (Hqr & dp' & Hpiv' & (d2 & E2 & _ & Ha2 & _)).
  assert (dp' = dp) by congruence. subst dp'.
  assert (d1 = dcp) by congruence. assert (d2 = dcq) by congruence.
  subst d1 d2.
  assert (Hcp : byte_at dcp i = byte_at dp i).
  { destruct (Z.lt_ge_cases i off); [|apply Ha1; lia].
    apply (Hpre pivot p dp dcp); simpl; auto. lia. }
  assert (Hcq : byte_at dcq i = byte_at dp i).
  { destruct (Z.lt_ge_cases i off); [|apply Ha2; lia].
    apply (Hpre pivot q dp dcq); simpl; auto. lia. }
  congruence.
Qed.

Lemma Group_fuel_identical (fs : FileSystem) fuel files groups off groups' log :
  GroupFilesByContentUsingMap_fuel fuel fs files groups off
    = Some (groups', log) ->
  exists new, groups' = (groups ++ new)%list /\
              emits_identical fs files off new.
Proof.
  apply Group_call_tree; clear fuel files groups off groups' log.
  - intros files off _ _ g p q [].
  - intros pivot rights off kg dg log subs Hb HF Hpre g p q Hg Hp Hq.
    apply in_app_or in Hg. destruct Hg as [Hg|Hg].
    + destruct (batches_group _ _ _ _ Hb) as (_ & newm & Edg & Hnew).
      destruct (Nat.ltb_spec 1 (length dg)) as [Hlen|]; [|destruct Hg].
      destruct Hg as [<-|[]]. subst dg.
      destruct newm as [|q0 newm']; [simpl in Hlen; lia|].
      destruct (Hnew q0 (or_introl eq_refl)) as (_ & dp & Hpiv & _).
      assert (Hall : forall x, In x (pivot :: q0 :: newm') -> fs x = Some dp).
      { intros x [<-|Hx]; [exact Hpiv|].
        destruct (Hnew x Hx) as (Hxr & dp' & Hpiv' & Hs).
        assert (dp' = dp) by congruence. subst dp'.
        destruct Hs as (dc & Hfx & Hs).
        rewrite Hfx. f_equal.
        apply (@same_from_prefix_eq fs dp off x dc); auto.
        - exists dc. auto.
        - apply (Hpre pivot x dp dc); simpl; auto. }
      exists dp. auto.
    + apply in_concat in Hg. destruct Hg as (sub & Hsub & Hg).
      destruct (@Forall2_In_r _ _ _ _ _ _ HF Hsub) as ([k v] & Hin & Hs).
      unfold sub_results in Hs. cbn [fst snd] in Hs.
      destruct (1 <? length v)%nat; [|subst sub; destruct Hg].
      apply (Hs (@bucket_identical_prefix _ _ _ _ _ _ _ _ _ Hpre Hb Hin) g p q);
        assumption.
Qed.

(** C1. Given that the input files have equal size and identical bytes in
    [0, resumeOffset), every group emitted by GroupFilesByContentUsingMap
    holds files that all open and have the same content over their full
    length; in the comparator, a right file is recorded in the duplicate
    group only when it equals the pivot from the resume offset to the end
    of both files, and the end check (peek) does not move the get
    position. *)
Theorem C1_emitted_groups_byte_identical (fs : FileSystem) :
  (forall files groups off groups' log,
      equal_sizes fs files ->
      identical_prefix fs files off ->
      GroupFilesByContentUsingMap fs files groups off = Some (groups', log) ->
      exists new, groups' = (groups ++ new)%list /\
        forall g p q, In g new -> In p g -> In q g ->
          exists d, fs p = Some d /\ fs q = Some d) /\
  (forall pivot rights off kg dg kg' dg' log,
      CompareFilesBufferedAdvanced fs pivot rights off kg dg
        = Some (kg', dg', log) ->
      exists new, dg' = (dg ++ new)%list /\
        forall q, In q new ->
          In q rights /\
          exists dp, fs pivot = Some dp /\ same_from fs dp off q) /\
  (forall s, gpos (snd (peek s)) = gpos s).
Proof.
  split; [|split].
  - intros files groups off groups' log _ Hpre H.
    apply Group_fuel_identical in H. destruct H as (new & E & HI).
    exists new. split; [exact E|]. apply HI. exact Hpre.
  - intros pivot rights off kg dg kg' dg' log H.
    apply Compare_spec in H. destruct H as [((new & E & M & _) & _) _].
    exists new. split; [exact E|].
    intros q Hq. destruct (M q Hq) as [Hin Hs].
    split; [|exact Hs]. apply filter_In in Hin. tauto.
  - intros s. unfold peek. destruct (good s); [|reflexivity].
    destruct (skipn (Z.to_nat (gpos s)) (buf s)); reflexivity.
Qed.

(** *** No singleton group *)

Lemma Group_fuel_sizes (fs : FileSystem) fuel files groups off groups' log :
  GroupFilesByContentUsingMap_fuel fuel fs files groups off
    = Some (groups', log) ->
  exists new, groups' = (groups ++ new)%list /\
              Forall (fun g => (2 <= length g)%nat) new.
Proof.
  apply (@Group_call_tree fs
           (fun _ _ new => Forall (fun g => (2 <= length g)%nat) new)).
  - constructor.
  - intros pivot rights o kg dg lg subs _ HF.
    apply Forall_app. split; [|apply (concat_Forall HF)].
    destruct (Nat.ltb_spec 1 (length dg)); repeat constructor. lia.
Qed.

(** C8. Every group emitted by GroupFilesByContentUsingMap has at least two
    members; the loop over the buckets skips a bucket of fewer than two
    files without calling the partitioner on it, and a call on fewer than
    two files emits nothing and compares nothing. *)
Theorem C8_no_singleton_groups (fs : FileSystem) :
  (forall files groups off groups' log,
      GroupFilesByContentUsingMap fs files groups off = Some (groups', log) ->
      exists new, groups' = (groups ++ new)%list /\
                  Forall (fun g => (2 <= length g)%nat) new) /\
  (forall recurse (entry : GroupKey * list path) rest groups,
      (length (snd entry) <= 1)%nat ->
      recurse_key_groups recurse (entry :: rest) groups
      = recurse_key_groups recurse rest groups) /\
  (forall fuel files groups off,
      (length files < 2)%nat ->
      GroupFilesByContentUsingMap_fuel fuel fs files groups off
      = Some (groups, [])).
Proof.
  split; [|split].
  - intros files groups off groups' log H.
    apply Group_fuel_sizes in H. exact H.
  - intros recurse entry rest groups Hle. cbn [recurse_key_groups].
    destruct (Nat.ltb_spec 1 (length (snd entry))); [lia|reflexivity].
  - intros fuel [|p [|q files]] groups off Hlen; simpl in Hlen; try lia;
      destruct fuel; reflexivity.
Qed.

(** *** Files that do not open *)

Lemma open_rights_filter (fs : FileSystem) (off : Z) : forall rights,
  open_rights fs (filter (opens fs) rights) off
  = (fst (open_rights fs rights off), []).
Proof.
  induction rights as [|p rest IH]; simpl; [reflexivity|].
  destruct (open_rights fs rest off) as [rs log] eqn:E.
  unfold opens at 1. unfold open, fail.
  destruct (fs p) as [d|] eqn:Hp; cbn [failbit fst]; [|exact IH].
  simpl. rewrite IH. unfold open, fail. rewrite Hp. cbn [failbit fst].
  reflexivity.
Qed.

Lemma Compare_filter (fs : FileSystem) pivot rights off kg dg kg' dg' log :
  fs pivot <> None ->
  CompareFilesBufferedAdvanced fs pivot rights off kg dg
    = Some (kg', dg', log) ->
  CompareFilesBufferedAdvanced fs pivot (filter (opens fs) rights) off kg dg
    = Some (kg', dg', []).
Proof.
  unfold CompareFilesBufferedAdvanced. intros Hp.
  rewrite open_rights_filter.
  destruct (fail (open fs pivot)) eqn:Hf.
  - unfold open, fail in Hf. destruct (fs pivot); [discriminate|congruence].
  - destruct (open_rights fs rights off) as [rs log0]. cbn [fst].
    destruct (compare_loop _ _ rs off kg) as [[rs1 kg1]|]; [|discriminate].
    intros H; inversion H; subst. reflexivity.
Qed.

Lemma Group_fuel_opens (fs : FileSystem) fuel files groups off groups' log :
  GroupFilesByContentUsingMap_fuel fuel fs files groups off
    = Some (groups', log) ->
  exists new, groups' = (groups ++ new)%list /\
              Forall (fun g => forall p, In p g -> fs p <> None) new.
Proof.
  apply (@Group_call_tree fs
           (fun _ _ new => Forall (fun g => forall p, In p g -> fs p <> None) new)).
  - constructor.
  - intros pivot rights o kg dg lg subs Hb HF.
    apply Forall_app. split; [|apply (concat_Forall HF)].
    destruct (batches_group _ _ _ _ Hb) as (_ & newm & Edg & Hnew).
    destruct (Nat.ltb_spec 1 (length dg)) as [Hlen|]; repeat constructor.
    subst dg. destruct newm as [|q0 newm']; [simpl in Hlen; lia|].
    destruct (Hnew q0 (or_introl eq_refl)) as (_ & dp & Hpiv & _).
    intros p [<-|Hp]; [congruence|].
    destruct (Hnew p Hp) as (_ & _ & _ & dc & Hfp & _). congruence.
Qed.

Lemma Group_pivot_unopenable (fs : FileSystem) pivot rights groups off :
  fs pivot = None ->
  exists log, GroupFilesByContentUsingMap fs (pivot :: rights) groups off
              = Some (groups, log) /\
              Forall (eq (ErrOpeningMaster pivot)) log.
Proof.
  intros Hp. unfold GroupFilesByContentUsingMap.
  destruct rights as [|p2 rest]; [exists []; split; [reflexivity|constructor]|].
  cbn [length GroupFilesByContentUsingMap_fuel].
  destruct (@compare_batches_total fs pivot (p2 :: rest) off
              (S (length rest)) 0%nat [] [pivot] ltac:(simpl; lia))
    as [[[kg dg] log1] Eb].
  rewrite Eb.
  destruct (compare_batches_spec _ _ _ _ _ _ _ _ Eb) as [_ Hl].
  rewrite Hp in Hl. destruct Hl as (-> & -> & HF).
  simpl. exists (log1 ++ [])%list. split; [reflexivity|].
  rewrite app_nil_r. exact HF.
Qed.

(** C9. A right file that does not open is reported on the error stream
    and left out of the session: the call records what it would record
    without that file, so the file enters neither the duplicate group nor a
    bucket; every member of an emitted group opens.  When the pivot does
    not open, the comparator call reports it and changes nothing, and the
    partitioner emits no group for that pivot. *)
Theorem C9_unopenable_files_excluded (fs : FileSystem) :
  (forall pivot rights off kg dg kg' dg' log p,
      fs pivot <> None -> In p rights -> fs p = None ->
      CompareFilesBufferedAdvanced fs pivot rights off kg dg
        = Some (kg', dg', log) ->
      In (ErrOpeningRight p) log /\
      CompareFilesBufferedAdvanced fs pivot (filter (opens fs) rights) off
        kg dg = Some (kg', dg', []) /\
      (exists new, dg' = (dg ++ new)%list /\ ~ In p new) /\
      (forall k, bucket_member kg' k p -> bucket_member kg k p)) /\
  (forall files groups off groups' log,
      GroupFilesByContentUsingMap fs files groups off = Some (groups', log) ->
      exists new, groups' = (groups ++ new)%list /\
        forall g p, In g new -> In p g -> fs p <> None) /\
  (forall pivot rights off kg dg,
      fs pivot = None ->
      CompareFilesBufferedAdvanced fs pivot rights off kg dg
      = Some (kg, dg, [ErrOpeningMaster pivot])) /\
  (forall pivot rights groups off,
      fs pivot = None ->
      exists log,
        GroupFilesByContentUsingMap fs (pivot :: rights) groups off
        = Some (groups, log) /\
        Forall (eq (ErrOpeningMaster pivot)) log).
Proof.
  split; [|split; [|split]].
  - intros pivot rights off kg dg kg' dg' log p Hpiv Hin Hp H.
    split; [|split; [|split]].
    + destruct (Compare_spec _ _ _ _ _ _ H) as [_ Hl].
      destruct (fs pivot); [|congruence]. subst log.
      apply in_map. apply filter_In. split; [exact Hin|].
      unfold opens. rewrite Hp. reflexivity.
    + eapply Compare_filter; eauto.
    + destruct (Compare_spec _ _ _ _ _ _ H) as [((new & E & M & _) & _) _].
      exists new. split; [exact E|]. intros Hn.
      destruct (M p Hn) as (_ & _ & _ & dc & Hfp & _). congruence.
    + intros k Hm.
      destruct (Compare_spec _ _ _ _ _ _ H) as [(_ & B & _) _].
      destruct (B k p Hm) as [?|(_ & _ & _ & dc & Hfp & _)]; [assumption|].
      congruence.
  - intros files groups off groups' log H.
    apply Group_fuel_opens in H. destruct H as (new & E & HF).
    exists new. split; [exact E|]. intros g p Hg.
    rewrite Forall_forall in HF. apply HF. exact Hg.
  - intros pivot rights off kg dg Hp. unfold CompareFilesBufferedAdvanced.
    unfold open, fail. rewrite Hp. reflexivity.
  - intros. apply Group_pivot_unopenable. assumption.
Qed.

(** *** Termination *)

(** C4. GroupFilesByContentUsingMap returns on every input: [length files]
    levels of recursion are enough, and more change nothing.  Every bucket
    a call produces has strictly fewer files than the call received and
    does not contain the pivot; the offset of its key is not below the
    resume offset of the call and is below the size of the pivot. *)
Theorem C4_partitioning_terminates (fs : FileSystem) :
  (forall files groups off,
      exists r, GroupFilesByContentUsingMap fs files groups off = Some r /\
        forall fuel, (length files <= fuel)%nat ->
          GroupFilesByContentUsingMap_fuel fuel fs files groups off = Some r) /\
  (forall pivot rights off,
      exists r, compare_batches (length rights) fs pivot rights 0 off []
                  [pivot] = Some r) /\
  (forall pivot rights off kg dg log k v,
      compare_batches (length rights) fs pivot rights 0 off [] [pivot]
        = Some (kg, dg, log) ->
      In (k, v) kg ->
      (length v < length (pivot :: rights))%nat /\
      ~ In pivot v /\
      (v <> [] ->
       off <= fst k /\
       exists dp, fs pivot = Some dp /\ fst k < Z.of_nat (length dp))).
Proof.
  split; [|split].
  - intros files groups off.
    destruct (@Group_fuel_total fs (length files) files groups off (le_n _))
      as [r Hr].
    exists r. split; [exact Hr|].
    intros fuel Hf. eapply Group_fuel_mono; eauto.
  - intros pivot rights off. apply compare_batches_total. lia.
  - intros pivot rights off kg dg log k v Hb Hin.
    destruct (compare_batches_spec _ _ _ _ _ _ _ _ Hb) as [Hpost _].
    simpl skipn in Hpost.
    split; [|split].
    + eapply compare_post_bucket_length in Hin; [|exact Hpost].
      simpl. lia.
    + intros Hpv.
      destruct (batches_bucket _ _ _ _ _ _ _ Hb Hin Hpv) as (_ & dp & Hp & Hd).
      eapply same_from_not_diverges; [|exact Hd].
      apply same_from_self. exact Hp.
    + intros Hne. destruct v as [|q v']; [congruence|].
      destruct (batches_bucket _ _ _ _ _ _ q Hb Hin (or_introl eq_refl))
        as (_ & dp & Hp & (dc & _ & Hoff & _ & _ & b & Hb' & _)).
      split; [exact Hoff|]. exists dp. split; [exact Hp|].
      apply byte_at_Some_lt in Hb'. lia.
Qed.

(** *** One right file, one chunk: mismatch and short read *)

Lemma read_gcount (s : ifstream) (n : Z) :
  gcount (snd (read s n)) = Z.of_nat (length (fst (read s n))).
Proof. unfold read. destruct (good s); reflexivity. Qed.

(** C2 (amended). When a right file supplies a full chunk that differs from
    the master chunk, the comparator finds the first index at which the two
    buffers differ and pushes the file under the key (offset so far + index,
    byte of the RIGHT file at that index), which is not the byte of the
    pivot there; over a whole call, a file enters a bucket only under the
    offset of its first difference from the pivot and its own byte at that
    offset. *)
Theorem C2_mismatch_keyed_by_right_byte (fs : FileSystem) :
  (forall (masterBuffer : list byte) (totalBytesRead : Z)
          (it : RightFileState) (rest : list RightFileState) (kg : KeyGroups),
      let masterBytes := Z.of_nat (length masterBuffer) in
      let rightBuffer := fst (read (stream it) masterBytes) in
      length rightBuffer = length masterBuffer ->
      rightBuffer <> masterBuffer ->
      exists (i : nat) (x y : byte),
        (forall j, (j < i)%nat ->
           nth_error masterBuffer j = nth_error rightBuffer j) /\
        nth_error masterBuffer i = Some x /\
        nth_error rightBuffer i = Some y /\ x <> y /\
        compare_right masterBuffer masterBytes totalBytesRead it
        = Pruned (totalBytesRead + Z.of_nat i, y) /\
        compare_chunk masterBuffer masterBytes totalBytesRead (it :: rest) kg
        = compare_chunk masterBuffer masterBytes totalBytesRead rest
            (map_push kg (totalBytesRead + Z.of_nat i, y) (filePath it)) /\
        bucket_member
          (map_push kg (totalBytesRead + Z.of_nat i, y) (filePath it))
          (totalBytesRead + Z.of_nat i, y) (filePath it)) /\
  (forall pivot rights off kg dg kg' dg' log k q,
      CompareFilesBufferedAdvanced fs pivot rights off kg dg
        = Some (kg', dg', log) ->
      bucket_member kg' k q -> ~ bucket_member kg k q ->
      exists dp dc, fs pivot = Some dp /\ fs q = Some dc /\
        off <= fst k /\ agree dp dc off (fst k) /\
        byte_at dc (fst k) = Some (snd k) /\
        exists b, byte_at dp (fst k) = Some b /\ b <> snd k).
Proof.
  split.
  - intros mb total it rest kg masterBytes rb Hlen Hne.
    assert (Hc : memcmp mb rb (length mb) <> 0).
    { intros Hc. apply Hne. symmetry. apply (memcmp_zero (n := length mb)); auto. }
    destruct (@find_mismatch_spec (length mb) mb rb eq_refl Hlen Hc)
      as (i & Hi & Hlt & Hpre & x & y & Hx & Hy & Hxy).
    assert (Hright : compare_right mb masterBytes total it
                     = Pruned (total + Z.of_nat i, y)).
    { unfold compare_right.
      pose proof (read_gcount (stream it) masterBytes) as Hg.
      fold rb in Hg. unfold rb in *.
      destruct (read (stream it) masterBytes) as [rb' s]. cbn [fst snd] in *.
      rewrite Hg, Hlen. unfold masterBytes. rewrite Z.eqb_refl. cbn [negb].
      rewrite Nat2Z.id.
      destruct (Z.eqb_spec (memcmp mb rb' (length mb)) 0); [contradiction|].
      cbn [negb]. rewrite Hi, Nat2Z.id. rewrite (nth_error_nth _ _ _ Hy).
      reflexivity. }
    exists i, x, y. repeat (split; [assumption|]).
    split; [cbn [compare_chunk]; rewrite Hright; reflexivity|].
    apply map_push_member. right. auto.
  - intros pivot rights off kg dg kg' dg' log k q H Hm Hnm.
    destruct (Compare_spec _ _ _ _ _ _ H) as [(_ & B & _) _].
    destruct (B k q Hm) as [?|(_ & dp & Hp & dc & Hq & Hd)]; [contradiction|].
    exists dp, dc. auto.
Qed.


(** *** The deduplicator *)

Section DeduplicatorFacts.

Context {World : Type} {api : Win32 World}.

(** An identity query changes nothing and opens only the queried path. *)
Lemma identity_query_events (w : World) (p : path) (e : Event) :
  In e (snd (GetFileUniqueIdAndLinkCount w p)) ->
  is_mutation e = false /\ forall x, touches x e = true -> x = p.
Proof.
  unfold GetFileUniqueIdAndLinkCount.
  destruct (CreateFileW w p) as [h|err];
    [destruct (GetFileInformationByHandle w h) as [info|err]|];
    simpl; intros H;
    repeat (destruct H as [<-|H]; [split; [reflexivity|simpl; intros x Hx;
             try discriminate; apply String.eqb_eq in Hx; exact Hx]|]);
    destruct H.
Qed.

Lemma dedup_member_events (w : World) master masterId dupFile e :
  In e (snd (dedup_member w master masterId dupFile)) ->
  member_event master dupFile e.
Proof.
  unfold dedup_member.
  pose proof (@identity_query_events w dupFile) as Hq.
  destruct (GetFileUniqueIdAndLinkCount w dupFile) as [r ev].
  cbn [snd] in Hq.
  assert (Hev : forall e, In e ev -> member_event master dupFile e).
  { intros e0 H0. destruct (Hq e0 H0) as [Hm Ht]. split; [exact Ht|].
    intros n ex ->. discriminate. }
  assert (Hsay : forall m, member_event master dupFile (Say m)).
  { intros m. split; [simpl; discriminate|discriminate]. }
  assert (Hdel : member_event master dupFile (CallDeleteFileW dupFile)).
  { split; [simpl; intros x Hx; apply String.eqb_eq; exact Hx|discriminate]. }
  assert (Hlnk : member_event master dupFile
                   (CallCreateHardLinkW dupFile master)).
  { split; [simpl; intros x Hx; apply String.eqb_eq; exact Hx|].
    intros n ex E. inversion E. auto. }
  destruct r as [[dupId dupLinks]|];
    [destruct (dupId =? masterId);
     [|destruct (DeleteFileW w dupFile) as [w1|delErr];
       [destruct (CreateHardLinkW w1 dupFile master) as [w2|hlErr]|]]|];
    cbn [snd]; intros H; apply in_app_or in H;
    (destruct H as [H|H]; [apply Hev; exact H|]);
    simpl in H;
    repeat (destruct H as [<-|H]; [auto|]); destruct H.
Qed.

Lemma dedup_members_events (master : path) (masterId : Z) :
  forall members (w : World) e,
    In e (snd (dedup_members w master masterId members)) ->
    exists dupFile, In dupFile members /\ member_event master dupFile e.
Proof.
  induction members as [|d rest IH]; intros w e; cbn [dedup_members].
  - simpl. tauto.
  - pose proof (@dedup_member_events w master masterId d e) as Hd.
    destruct (dedup_member w master masterId d) as [w1 ev1].
    pose proof (IH w1 e) as Hr.
    destruct (dedup_members w1 master masterId rest) as [w2 ev2].
    cbn [snd] in *. intros H. apply in_app_or in H. destruct H as [H|H].
    + exists d. split; [left; reflexivity|auto].
    + destruct (Hr H) as (x & Hx & Hm). exists x. split; [right|]; auto.
Qed.

Lemma mutates_touches (x : path) (e : Event) :
  mutates x e = true -> touches x e = true.
Proof. destruct e; simpl; intros H; try discriminate; exact H. Qed.

(** The events of a whole group: a query of the master, then what the
    members allow. *)
Lemma DeduplicateGroup_events (w : World) master members e :
  In e (snd (DeduplicateGroup w (master :: members))) ->
  (forall x, mutates x e = true -> In x members) /\
  (forall n ex, e = CallCreateHardLinkW n ex -> In n members /\ ex = master).
Proof.
  unfold DeduplicateGroup.
  destruct members as [|m members'].
  { simpl. intros [<-|[]]. split; [discriminate|discriminate]. }
  set (members := m :: members').
  pose proof (@identity_query_events w master) as Hq.
  destruct (GetFileUniqueIdAndLinkCount w master) as [r ev].
  cbn [snd] in Hq.
  assert (Hev : forall e, In e ev ->
            (forall x, mutates x e = true -> In x members) /\
            (forall n ex, e = CallCreateHardLinkW n ex ->
               In n members /\ ex = master)).
  { intros e0 H0. destruct (Hq e0 H0) as [Hm _]. split.
    - intros x Hx. destruct e0; simpl in *; discriminate.
    - intros n ex ->. discriminate. }
  destruct r as [[masterId masterLinks]|]; cbn [snd].
  - pose proof (@dedup_members_events master masterId members w e) as Hd.
    destruct (dedup_members w master masterId members) as [w' ev'].
    cbn [snd] in *. intros H. apply in_app_or in H.
    destruct H as [H|[<-|H]]; [auto|split; discriminate|].
    destruct (Hd H) as (d & Hin & Ht & Hl). split.
    + intros x Hx. apply mutates_touches in Hx. apply Ht in Hx.
      subst x. exact Hin.
    + intros n ex E. destruct (Hl n ex E) as [-> ->]. auto.
  - intros H. apply in_app_or in H.
    destruct H as [H|[<-|[]]]; [auto|split; discriminate].
Qed.

(** C6. DeduplicateGroup deletes and links only members at positions 1
    and later of the group: every delete targets such a member, every
    hard link is created under the name of such a member and points to
    the master (the first element); when the master's path is not
    repeated among the members, no delete and no link creation ever
    targets the master. *)
Theorem C6_master_never_target (w : World) (master : path)
    (members : list path) :
  (forall e, In e (snd (DeduplicateGroup w (master :: members))) ->
     (forall x, mutates x e = true ->
        exists i, nth_error (master :: members) (S i) = Some x) /\
     (forall n ex, e = CallCreateHardLinkW n ex ->
        ex = master /\
        exists i, nth_error (master :: members) (S i) = Some n)) /\
  (~ In master members ->
   forall e, In e (snd (DeduplicateGroup w (master :: members))) ->
     mutates master e = false).
Proof.
  split.
  - intros e He. destruct (@DeduplicateGroup_events w master members e He) as [Hm Hl].
    split.
    + intros x Hx. apply In_nth_error. auto.
    + intros n ex E. destruct (Hl n ex E) as [Hin ->].
      split; [reflexivity|]. apply In_nth_error. exact Hin.
  - intros Hnot e He.
    destruct (@DeduplicateGroup_events w master members e He) as [Hm _].
    destruct (mutates master e) eqn:E; [|reflexivity].
    exfalso. apply Hnot. apply Hm. exact E.
Qed.

Lemma dedup_member_skip (w : World) master masterId dupFile dupLinks :
  fst (GetFileUniqueIdAndLinkCount w dupFile) = Some (masterId, dupLinks) ->
  dedup_member w master masterId dupFile
  = (w, snd (GetFileUniqueIdAndLinkCount w dupFile)
        ++ [Say (OutSkipLinked dupFile)]).
Proof.
  unfold dedup_member.
  destruct (GetFileUniqueIdAndLinkCount w dupFile) as [r ev].
  cbn [fst snd]. intros ->. rewrite Z.eqb_refl. reflexivity.
Qed.

Lemma no_mutation_query (w : World) p :
  Forall (fun e => is_mutation e = false)
    (snd (GetFileUniqueIdAndLinkCount w p)).
Proof.
  apply Forall_forall. intros e He.
  apply (@identity_query_events w p e He).
Qed.

Lemma dedup_members_skip (w : World) master masterId : forall members,
  (forall m, In m members ->
     exists l, fst (GetFileUniqueIdAndLinkCount w m) = Some (masterId, l)) ->
  exists ev, dedup_members w master masterId members = (w, ev) /\
             Forall (fun e => is_mutation e = false) ev.
Proof.
  induction members as [|d rest IH]; intros H; cbn [dedup_members].
  - exists []. split; [reflexivity|constructor].
  - destruct (H d (or_introl eq_refl)) as [l Hd].
    rewrite (@dedup_member_skip w master masterId d l Hd).
    destruct IH as (ev & E & HF); [intros m Hm; apply H; right; exact Hm|].
    rewrite E. eexists. split; [reflexivity|].
    apply Forall_app. split; [|exact HF].
    apply Forall_app. split; [apply no_mutation_query|].
    repeat constructor.
Qed.

(** C7. A member whose unique id equals the master's is skipped: the
    volume is left as it is and nothing is deleted or linked.  So on a
    group whose members all have the master's id, DeduplicateGroup
    returns true, leaves the volume unchanged and performs no delete and
    no link, and running it again does the same. *)
Theorem C7_already_linked_is_noop (w : World) (master : path)
    (masterId : Z) :
  (forall dupFile dupLinks,
      fst (GetFileUniqueIdAndLinkCount w dupFile)
        = Some (masterId, dupLinks) ->
      fst (dedup_member w master masterId dupFile) = w /\
      Forall (fun e => is_mutation e = false)
        (snd (dedup_member w master masterId dupFile)) /\
      In (Say (OutSkipLinked dupFile))
        (snd (dedup_member w master masterId dupFile))) /\
  (forall members masterLinks,
      fst (GetFileUniqueIdAndLinkCount w master)
        = Some (masterId, masterLinks) ->
      (forall m, In m members ->
         exists l, fst (GetFileUniqueIdAndLinkCount w m)
                   = Some (masterId, l)) ->
      exists ev,
        DeduplicateGroup w (master :: members) = (true, w, ev) /\
        Forall (fun e => is_mutation e = false) ev /\
        DeduplicateGroup
          (snd (fst (DeduplicateGroup w (master :: members))))
          (master :: members) = (true, w, ev)).
Proof.
  split.
  - intros dupFile dupLinks Hd.
    rewrite (@dedup_member_skip w master masterId dupFile dupLinks Hd).
    cbn [fst snd].
    split; [reflexivity|]. split.
    + apply Forall_app. split; [apply no_mutation_query|].
      repeat constructor.
    + apply in_or_app. right. left. reflexivity.
  - intros members masterLinks Hm Hall.
    assert (E : exists ev,
               DeduplicateGroup w (master :: members) = (true, w, ev) /\
               Forall (fun e => is_mutation e = false) ev).
    { unfold DeduplicateGroup. destruct members as [|m members'].
      - eexists. split; [reflexivity|repeat constructor].
      - pose proof (no_mutation_query w master) as Hq.
        destruct (GetFileUniqueIdAndLinkCount w master) as [r ev0].
        cbn [fst snd] in *. subst r.
        destruct (@dedup_members_skip w master masterId _ Hall) as (ev & Ed & HF).
        rewrite Ed. eexists. split; [reflexivity|].
        apply Forall_app. split; [exact Hq|].
        constructor; [reflexivity|exact HF]. }
    destruct E as (ev & E & HF). exists ev.
    rewrite E. cbn [fst snd]. auto.
Qed.

Lemma DeduplicateGroup_false (w : World) group :
  fst (fst (DeduplicateGroup w group)) = false ->
  exists master m members,
    group = master :: m :: members /\
    fst (GetFileUniqueIdAndLinkCount w master) = None.
Proof.
  unfold DeduplicateGroup.
  destruct group as [|master [|m members]];
    try (cbn [fst]; discriminate).
  destruct (GetFileUniqueIdAndLinkCount w master) as [[[id l]|] ev] eqn:E;
    cbn [fst].
  - destruct (dedup_members w master id (m :: members)).
    cbn [fst]. discriminate.
  - intros _. exists master, m, members. rewrite E. split; reflexivity.
Qed.

Lemma DeduplicateGroup_master_fails (w : World) master m members :
  fst (GetFileUniqueIdAndLinkCount w master) = None ->
  DeduplicateGroup w (master :: m :: members)
  = (false, w, snd (GetFileUniqueIdAndLinkCount w master)
                 ++ [Say (ErrMasterId master)]).
Proof.
  unfold DeduplicateGroup.
  destruct (GetFileUniqueIdAndLinkCount w master) as [r ev].
  cbn [fst snd]. intros ->. reflexivity.
Qed.

Lemma deduplicate_all_code : forall groups (w : World),
  fst (fst (deduplicate_all w groups)) = None \/
  (fst (fst (deduplicate_all w groups)) = Some 1 /\
   exists w0 group, In group groups /\
     fst (fst (DeduplicateGroup w0 group)) = false).
Proof.
  induction groups as [|g rest IH]; intros w; cbn [deduplicate_all].
  - left. reflexivity.
  - destruct (DeduplicateGroup w g) as [[ok w1] ev] eqn:E.
    destruct ok.
    + specialize (IH w1).
      destruct (deduplicate_all w1 rest) as [[code w2] ev'].
      cbn [fst] in *. destruct IH as [H|[H (w0 & g0 & Hin & Hf)]]; auto.
      right. split; [exact H|]. exists w0, g0. split; [right|]; auto.
    + right. cbn [fst]. split; [reflexivity|].
      exists w, g. split; [left; reflexivity|]. rewrite E. reflexivity.
Qed.

Lemma group_all_total (fs : FileSystem) : forall sizeGroups all,
  exists r, group_all fs sizeGroups all = Some r.
Proof.
  induction sizeGroups as [|entry rest IH]; intros all; cbn [group_all];
    [eauto|].
  destruct (length (snd entry) <? 2)%nat; [apply IH|].
  destruct (@Group_fuel_total fs (length (snd entry)) (snd entry) [] 0
              (le_n _)) as [[groups log] E].
  unfold GroupFilesByContentUsingMap. rewrite E.
  destruct (report_groups (fst entry) groups all) as [all1 ev].
  destruct (IH all1) as [[all2 ev2] E2]. rewrite E2. eauto.
Qed.

(** The identity query of a path starts by opening it. *)
Lemma query_opens_path (w : World) (p : path) :
  In (CallCreateFileW p) (snd (GetFileUniqueIdAndLinkCount w p)).
Proof.
  unfold GetFileUniqueIdAndLinkCount.
  destruct (CreateFileW w p) as [h|err];
    [destruct (GetFileInformationByHandle w h) as [info|err]|];
    left; reflexivity.
Qed.

Lemma dedup_member_queries (w : World) master masterId dupFile :
  In (CallCreateFileW dupFile) (snd (dedup_member w master masterId dupFile)).
Proof.
  unfold dedup_member.
  pose proof (query_opens_path w dupFile) as Hq.
  destruct (GetFileUniqueIdAndLinkCount w dupFile) as [r ev].
  cbn [snd] in Hq.
  destruct r as [[dupId dupLinks]|];
    [destruct (dupId =? masterId);
     [|destruct (DeleteFileW w dupFile) as [w1|delErr];
       [destruct (CreateHardLinkW w1 dupFile master) as [w2|hlErr]|]]|];
    cbn [snd]; apply in_or_app; left; exact Hq.
Qed.

(** The member loop queries every member, whatever happened to the members
    before it. *)
Lemma dedup_members_queries (master : path) (masterId : Z) :
  forall members (w : World) x,
    In x members ->
    In (CallCreateFileW x) (snd (dedup_members w master masterId members)).
Proof.
  induction members as [|d rest IH]; intros w x; [intros []|].
  cbn [dedup_members].
  pose proof (dedup_member_queries w master masterId d) as Hd.
  destruct (dedup_member w master masterId d) as [w1 ev1].
  pose proof (IH w1 x) as Hr.
  destruct (dedup_members w1 master masterId rest) as [w2 ev2].
  cbn [snd] in *. intros [<-|Hx]; apply in_or_app; auto.
Qed.

(** One round of the member loop: the member, then the members that
    follow on the volume the member left. *)
Lemma dedup_members_step (w : World) master masterId dupFile rest :
  dedup_members w master masterId (dupFile :: rest)
  = (fst (dedup_members (fst (dedup_member w master masterId dupFile))
            master masterId rest),
     snd (dedup_member w master masterId dupFile)
       ++ snd (dedup_members (fst (dedup_member w master masterId dupFile))
                 master masterId rest)).
Proof.
  cbn [dedup_members].
  destruct (dedup_member w master masterId dupFile) as [w1 ev1].
  cbn [fst snd].
  destruct (dedup_members w1 master masterId rest) as [w2 ev2].
  reflexivity.
Qed.

(** The three ways a member can fail, and what each leaves behind. *)
Lemma dedup_member_identity_fails (w : World) master masterId dupFile :
  fst (GetFileUniqueIdAndLinkCount w dupFile) = None ->
  dedup_member w master masterId dupFile
  = (w, snd (GetFileUniqueIdAndLinkCount w dupFile)
        ++ [Say (ErrDupId dupFile)]).
Proof.
  unfold dedup_member.
  destruct (GetFileUniqueIdAndLinkCount w dupFile) as [r ev].
  cbn [fst snd]. intros ->. reflexivity.
Qed.

Lemma dedup_member_delete_fails (w : World) master masterId dupFile
    dupId dupLinks delErr :
  fst (GetFileUniqueIdAndLinkCount w dupFile) = Some (dupId, dupLinks) ->
  dupId <> masterId ->
  DeleteFileW w dupFile = inr delErr ->
  dedup_member w master masterId dupFile
  = (w, snd (GetFileUniqueIdAndLinkCount w dupFile)
        ++ [CallDeleteFileW dupFile; Say (ErrDelete dupFile delErr)]).
Proof.
  unfold dedup_member.
  destruct (GetFileUniqueIdAndLinkCount w dupFile) as [r ev].
  cbn [fst snd]. intros -> Hne Hd.
  destruct (Z.eqb_spec dupId masterId); [contradiction|].
  rewrite Hd. reflexivity.
Qed.

Lemma dedup_member_link_fails (w w1 : World) master masterId dupFile
    dupId dupLinks hlErr :
  fst (GetFileUniqueIdAndLinkCount w dupFile) = Some (dupId, dupLinks) ->
  dupId <> masterId ->
  DeleteFileW w dupFile = inl w1 ->
  CreateHardLinkW w1 dupFile master = inr hlErr ->
  dedup_member w master masterId dupFile
  = (w1, snd (GetFileUniqueIdAndLinkCount w dupFile)
         ++ [CallDeleteFileW dupFile; CallCreateHardLinkW dupFile master;
             Say (ErrHardLink dupFile master hlErr)]).
Proof.
  unfold dedup_member.
  destruct (GetFileUniqueIdAndLinkCount w dupFile) as [r ev].
  cbn [fst snd]. intros -> Hne Hd Hl.
  destruct (Z.eqb_spec dupId masterId); [contradiction|].
  rewrite Hd, Hl. reflexivity.
Qed.

Lemma DeduplicateGroup_master_resolves (w : World) master masterId
    masterLinks m members :
  fst (GetFileUniqueIdAndLinkCount w master) = Some (masterId, masterLinks) ->
  DeduplicateGroup w (master :: m :: members)
  = (true, fst (dedup_members w master masterId (m :: members)),
     snd (GetFileUniqueIdAndLinkCount w master)
       ++ [Say (OutMaster master)]
       ++ snd (dedup_members w master masterId (m :: members))).
Proof.
  unfold DeduplicateGroup.
  destruct (GetFileUniqueIdAndLinkCount w master) as [r ev].
  cbn [fst snd]. intros ->.
  destruct (dedup_members w master masterId (m :: members)) as [w' ev'].
  reflexivity.
Qed.

(** C5. When the identity of the master cannot be resolved,
    DeduplicateGroup returns false with the volume untouched, having made
    no call but the identity query of the master (no delete, no link, no
    query of a member) and having reported the failure; the loop of wmain
    then stops with exit code 1 without processing the groups that
    follow.  DeduplicateGroup returns false in no other case: whatever
    happens to the members, it returns true and the loop goes on with the
    next group, so the loop forces exit code 1 only after a master identity
    failure; wmain always returns, with the code the loop forces or else
    0 (1 on a missing argument).  A failure of a member only skips that
    member: when its identity query or its delete fails the volume is as
    before, when its link fails the volume is the one its delete left, and
    in each case the member is reported and the loop goes on with the
    members that follow; when the master resolves, DeduplicateGroup
    returns true with the volume the member loop leaves, and every member
    has been queried. *)
Theorem C5_master_identity_failure_aborts :
  (forall (w : World) master m members,
      fst (GetFileUniqueIdAndLinkCount w master) = None ->
      DeduplicateGroup w (master :: m :: members)
      = (false, w, snd (GetFileUniqueIdAndLinkCount w master)
                     ++ [Say (ErrMasterId master)]) /\
      (forall e, In e (snd (DeduplicateGroup w (master :: m :: members))) ->
         is_mutation e = false /\
         forall x, touches x e = true -> x = master) /\
      (forall rest,
         fst (deduplicate_all w ((master :: m :: members) :: rest))
         = (Some 1, w)) /\
      (forall rest,
         In (Say ErrFailedGroup)
           (snd (deduplicate_all w ((master :: m :: members) :: rest)))) /\
      (forall argc sizeGroups fs rest ev,
         2 <= argc ->
         group_all fs sizeGroups []
           = Some ((master :: m :: members) :: rest, ev) ->
         exists ev', wmain argc sizeGroups fs w = Some (1, w, ev'))) /\
  (forall (w : World) group,
      fst (fst (DeduplicateGroup w group)) = false ->
      exists master m members,
        group = master :: m :: members /\
        fst (GetFileUniqueIdAndLinkCount w master) = None) /\
  (forall (w : World) groups,
      fst (fst (deduplicate_all w groups)) = None \/
      (fst (fst (deduplicate_all w groups)) = Some 1 /\
       exists w0 master m members,
         In (master :: m :: members) groups /\
         fst (GetFileUniqueIdAndLinkCount w0 master) = None)) /\
  (forall (w : World) group rest w1 ev,
      DeduplicateGroup w group = (true, w1, ev) ->
      fst (fst (deduplicate_all w (group :: rest)))
      = fst (fst (deduplicate_all w1 rest))) /\
  (forall argc sizeGroups fs (w : World),
      exists r, wmain argc sizeGroups fs w = Some r) /\
  (forall argc sizeGroups fs (w : World) code w' ev,
      wmain argc sizeGroups fs w = Some (code, w', ev) ->
      (argc < 2 /\ code = 1) \/
      (2 <= argc /\
       exists all ev0,
         group_all fs sizeGroups [] = Some (all, ev0) /\
         code = match fst (fst (deduplicate_all w all)) with
                | Some c => c
                | None => 0
                end)) /\
  (forall (w : World) master masterId dupFile rest,
      (fst (GetFileUniqueIdAndLinkCount w dupFile) = None ->
       dedup_members w master masterId (dupFile :: rest)
       = (fst (dedup_members w master masterId rest),
          (snd (GetFileUniqueIdAndLinkCount w dupFile)
             ++ [Say (ErrDupId dupFile)])
            ++ snd (dedup_members w master masterId rest))) /\
      (forall dupId dupLinks delErr,
          fst (GetFileUniqueIdAndLinkCount w dupFile)
            = Some (dupId, dupLinks) ->
          dupId <> masterId ->
          DeleteFileW w dupFile = inr delErr ->
          dedup_members w master masterId (dupFile :: rest)
          = (fst (dedup_members w master masterId rest),
             (snd (GetFileUniqueIdAndLinkCount w dupFile)
                ++ [CallDeleteFileW dupFile;
                    Say (ErrDelete dupFile delErr)])
               ++ snd (dedup_members w master masterId rest))) /\
      (forall dupId dupLinks w1 hlErr,
          fst (GetFileUniqueIdAndLinkCount w dupFile)
            = Some (dupId, dupLinks) ->
          dupId <> masterId ->
          DeleteFileW w dupFile = inl w1 ->
          CreateHardLinkW w1 dupFile master = inr hlErr ->
          dedup_members w master masterId (dupFile :: rest)
          = (fst (dedup_members w1 master masterId rest),
             (snd (GetFileUniqueIdAndLinkCount w dupFile)
                ++ [CallDeleteFileW dupFile;
                    CallCreateHardLinkW dupFile master;
                    Say (ErrHardLink dupFile master hlErr)])
               ++ snd (dedup_members w1 master masterId rest)))) /\
  (forall (w : World) master masterId masterLinks m members,
      fst (GetFileUniqueIdAndLinkCount w master)
        = Some (masterId, masterLinks) ->
      DeduplicateGroup w (master :: m :: members)
      = (true, fst (dedup_members w master masterId (m :: members)),
         snd (GetFileUniqueIdAndLinkCount w master)
           ++ [Say (OutMaster master)]
           ++ snd (dedup_members w master masterId (m :: members))) /\
      forall x, In x (m :: members) ->
        In (CallCreateFileW x)
          (snd (DeduplicateGroup w (master :: m :: members)))).
Proof.
  split; [|split; [|split; [|split; [|split; [|split; [|split]]]]]].
  - intros w master m members Hm.
    pose proof (@DeduplicateGroup_master_fails w master m members Hm) as E.
    assert (Hall : forall rest,
               deduplicate_all w ((master :: m :: members) :: rest)
               = (Some 1, w,
                  Say OutStar
                    :: (snd (GetFileUniqueIdAndLinkCount w master)
                          ++ [Say (ErrMasterId master)])
                    ++ Say ErrFailedGroup
                    :: map (fun file => Say (ErrGroupFile file))
                         (master :: m :: members))).
    { intros rest. cbn [deduplicate_all]. rewrite E. reflexivity. }
    split; [exact E|]. split; [|split; [|split]].
    + rewrite E. cbn [snd]. intros e He. apply in_app_or in He.
      destruct He as [He|[<-|[]]].
      * apply (@identity_query_events w master e He).
      * split; [reflexivity|]. simpl. discriminate.
    + intros rest. rewrite Hall. reflexivity.
    + intros rest. rewrite Hall. cbn [snd]. right.
      apply in_or_app. right. left. reflexivity.
    + intros argc sizeGroups fs rest ev Hargc Hg. unfold wmain.
      destruct (Z.ltb_spec argc 2); [lia|].
      rewrite Hg, Hall. eexists. reflexivity.
  - intros w group. apply DeduplicateGroup_false.
  - intros w groups. destruct (deduplicate_all_code groups w)
      as [H|[H (w0 & g & Hin & Hf)]]; auto.
    right. split; [exact H|].
    destruct (@DeduplicateGroup_false w0 g Hf) as (master & m & members & -> & Hn).
    exists w0, master, m, members. auto.
  - intros w group rest w1 ev E. cbn [deduplicate_all]. rewrite E.
    destruct (deduplicate_all w1 rest) as [[code w2] ev']. reflexivity.
  - intros argc sizeGroups fs w. unfold wmain.
    destruct (argc <? 2); [eauto|].
    destruct (group_all_total fs sizeGroups []) as [[all ev0] E]. rewrite E.
    destruct (deduplicate_all w all) as [[c w1] ev1]. eauto.
  - intros argc sizeGroups fs w code w' ev. unfold wmain.
    destruct (Z.ltb_spec argc 2) as [Hlt|Hge];
      [intros H; inversion H; auto|].
    destruct (group_all fs sizeGroups []) as [[all ev0]|]; [|discriminate].
    intros E. right. split; [exact Hge|]. exists all, ev0.
    split; [reflexivity|].
    destruct (deduplicate_all w all) as [[c w1] ev1]. cbn [fst].
    inversion E. reflexivity.
  - intros w master masterId dupFile rest. split; [|split].
    + intros Hq. rewrite dedup_members_step.
      rewrite (@dedup_member_identity_fails w master masterId dupFile Hq).
      reflexivity.
    + intros dupId dupLinks delErr Hq Hne Hd. rewrite dedup_members_step.
      rewrite (@dedup_member_delete_fails w master masterId dupFile dupId
                 dupLinks delErr Hq Hne Hd).
      reflexivity.
    + intros dupId dupLinks w1 hlErr Hq Hne Hd Hl.
      rewrite dedup_members_step.
      rewrite (@dedup_member_link_fails w w1 master masterId dupFile dupId
                 dupLinks hlErr Hq Hne Hd Hl).
      reflexivity.
  - intros w master masterId masterLinks m members Hm.
    pose proof (@DeduplicateGroup_master_resolves w master masterId
                  masterLinks m members Hm) as E.
    split; [exact E|]. intros x Hx. rewrite E. cbn [snd].
    apply in_or_app. right. right.
    apply dedup_members_queries. exact Hx.
Qed.

End DeduplicatorFacts.

(** *** The extension filter *)

Lemma towlower_idem (c : ascii) : towlower (towlower c) = towlower c.
Proof.
  unfold towlower.
  destruct ((65 <=? N_of_ascii c) && (N_of_ascii c <=? 90))%N eqn:E;
    [|rewrite E; reflexivity].
  apply andb_true_iff in E. destruct E as [E1 E2].
  apply N.leb_le in E1, E2.
  rewrite N_ascii_embedding by lia.
  destruct (N.leb_spec 65 (N_of_ascii c + 32)); simpl;
    [destruct (N.leb_spec (N_of_ascii c + 32) 90); [lia|reflexivity]
    |reflexivity].
Qed.

Lemma towlower_dot (c : ascii) : towlower c = "."%char <-> c = "."%char.
Proof.
  split; [|intros ->; reflexivity].
  unfold towlower.
  destruct ((65 <=? N_of_ascii c) && (N_of_ascii c <=? 90))%N eqn:E; auto.
  apply andb_true_iff in E. destruct E as [E1 E2].
  apply N.leb_le in E1, E2. intros H.
  apply (f_equal N_of_ascii) in H. rewrite N_ascii_embedding in H by lia.
  change (N_of_ascii ".") with 46%N in H. lia.
Qed.

Lemma ToLower_idem (s : string) : ToLower (ToLower s) = ToLower s.
Proof.
  induction s as [|c s IH]; simpl; [reflexivity|].
  rewrite towlower_idem, IH. reflexivity.
Qed.

Lemma ToLower_length (s : string) :
  String.length (ToLower s) = String.length s.
Proof. induction s as [|c s IH]; simpl; congruence. Qed.

Lemma ToLower_append (s t : string) :
  ToLower (s ++ t) = (ToLower s ++ ToLower t)%string.
Proof. induction s as [|c s IH]; simpl; congruence. Qed.

Lemma rfind_None (s : string) (c : ascii) :
  rfind s c = None <-> lacks c s.
Proof.
  induction s as [|x s IH]; simpl; [tauto|].
  destruct (rfind s c) as [i|].
  - split; [discriminate|]. intros [_ H]. apply IH in H. discriminate.
  - destruct (Ascii.eqb_spec x c) as [->|Hne].
    + split; [discriminate|]. intros [H _]. congruence.
    + split; [intros _; split; [exact Hne|apply IH; reflexivity]|reflexivity].
Qed.

(** [rfind] splits a string at its last [c]. *)
Lemma rfind_Some (s : string) (c : ascii) (pos : nat) :
  rfind s c = Some pos ->
  exists stem rest, s = (stem ++ String c rest)%string /\
    String.length stem = pos /\ lacks c rest /\
    substr s pos = String c rest.
Proof.
  revert pos. induction s as [|x s IH]; simpl; [discriminate|].
  intros pos. destruct (rfind s c) as [i|] eqn:E.
  - intros H. inversion H; subst pos.
    destruct (IH i eq_refl) as (stem & rest & -> & Hl & Hr & Hs).
    exists (String x stem), rest. simpl. repeat split; auto.
  - destruct (Ascii.eqb_spec x c) as [->|Hne]; [|discriminate].
    intros H. inversion H; subst pos.
    exists EmptyString, s. simpl. repeat split; auto.
    apply rfind_None. exact E.
Qed.

Lemma rfind_split (stem rest : string) (c : ascii) :
  lacks c rest ->
  rfind (stem ++ String c rest) c = Some (String.length stem).
Proof.
  intros Hr. induction stem as [|x stem IH]; simpl.
  - apply rfind_None in Hr. rewrite Hr. rewrite Ascii.eqb_refl. reflexivity.
  - rewrite IH. reflexivity.
Qed.

Lemma substr_append (stem t : string) :
  substr (stem ++ t) (String.length stem) = t.
Proof. induction stem as [|x stem IH]; simpl; [destruct t|]; auto. Qed.

(** X1. HasExtension accepts every file when the filter is empty; with a
    filter, it accepts a file exactly when the lower-cased path ends in a
    dot followed by dot-free characters and that suffix, from its last dot
    on, is the lower-cased filter. *)
Theorem HasExtension_spec (file extFilter : string) :
  (extFilter = EmptyString -> HasExtension file extFilter = true) /\
  (extFilter <> EmptyString ->
   (HasExtension file extFilter = true <->
    exists stem rest,
      ToLower file = (stem ++ String "." rest)%string /\
      lacks "." rest /\
      ToLower extFilter = String "." rest)).
Proof.
  split; [intros ->; reflexivity|].
  intros Hne. unfold HasExtension.
  destruct extFilter as [|e0 ext]; [congruence|].
  set (flt := String e0 ext) in *.
  split.
  - destruct (rfind (ToLower file) ".") as [pos|] eqn:E; [|discriminate].
    intros H. apply String.eqb_eq in H.
    destruct (rfind_Some _ _ E) as (stem & rest & Hf & _ & Hr & Hs).
    exists stem, rest. repeat split; auto. congruence.
  - intros (stem & rest & Hf & Hr & He).
    rewrite Hf, (@rfind_split stem rest "." Hr), substr_append, He.
    apply String.eqb_refl.
Qed.

(** X2. HasExtension ignores case, in the file path and in the filter:
    lower-casing either argument does not change its answer. *)
Theorem HasExtension_case_insensitive (file extFilter : string) :
  HasExtension (ToLower file) extFilter = HasExtension file extFilter /\
  HasExtension file (ToLower extFilter) = HasExtension file extFilter.
Proof.
  unfold HasExtension. split.
  - rewrite ToLower_idem. reflexivity.
  - destruct extFilter as [|e0 ext]; [reflexivity|].
    cbn [ToLower]. rewrite towlower_idem, ToLower_idem. reflexivity.
Qed.

(** *** The enumeration *)

Lemma size_push_member (sg : SizeGroups) (size : Z) (p : path) k q :
  size_member (size_push sg size p) k q <->
  size_member sg k q \/ (k = size /\ q = p).
Proof.
  unfold size_member. induction sg as [|[k0 v0] rest IH]; simpl.
  - split.
    + intros (v & [E|[]] & Hq). inversion E; subst.
      destruct Hq as [->|[]]. auto.
    + intros [(v & [] & _)|[-> ->]]. exists [p]. simpl; auto.
  - destruct (Z.ltb_spec size k0); [|destruct (Z.ltb_spec k0 size)].
    + split.
      * intros (v & [E|Hin] & Hq).
        -- inversion E; subst. destruct Hq as [->|[]]. auto.
        -- left. eauto.
      * intros [(v & Hin & Hq)|[-> ->]].
        -- exists v. simpl. auto.
        -- exists [p]. simpl. auto.
    + split.
      * intros (v & [E|Hin] & Hq).
        -- inversion E; subst. left. exists v. simpl; auto.
        -- destruct (proj1 IH (ex_intro _ v (conj Hin Hq)))
             as [(v' & H1 & H2)|Hn].
           ++ left. exists v'. simpl; auto.
           ++ auto.
      * intros [(v & [E|Hin] & Hq)|Hn].
        -- inversion E; subst. exists v. simpl; auto.
        -- destruct (proj2 IH (or_introl (ex_intro _ v (conj Hin Hq))))
             as (v' & H1 & H2).
           exists v'. simpl; auto.
        -- destruct (proj2 IH (or_intror Hn)) as (v' & H1 & H2).
           exists v'. simpl; auto.
    + assert (size = k0) by lia. subst k0.
      split.
      * intros (v & [E|Hin] & Hq).
        -- inversion E; subst. apply in_app_or in Hq.
           destruct Hq as [Hq|[->|[]]]; [left; exists v0; simpl; auto|auto].
        -- left. exists v. simpl; auto.
      * intros [(v & [E|Hin] & Hq)|[-> ->]].
        -- inversion E; subst. exists (v ++ [p])%list.
           split; [simpl; auto|]. apply in_or_app; auto.
        -- exists v. simpl; auto.
        -- exists (v0 ++ [p])%list. split; [simpl; auto|].
           apply in_or_app; simpl; auto.
Qed.

Lemma size_push_keys (sg : SizeGroups) size p k :
  In k (map fst (size_push sg size p)) -> k = size \/ In k (map fst sg).
Proof.
  induction sg as [|[k0 v0] rest IH]; simpl.
  - intros [H|[]]; auto.
  - destruct (size <? k0); [|destruct (k0 <? size)]; simpl.
    + intros [H|[H|H]]; auto.
    + intros [H|H]; auto. destruct (IH H); auto.
    + intros [H|H]; auto.
Qed.

Lemma size_push_sorted (sg : SizeGroups) size p :
  sorted_sizes sg -> sorted_sizes (size_push sg size p).
Proof.
  unfold sorted_sizes. induction sg as [|[k0 v0] rest IH]; simpl; intros HS.
  - constructor; constructor.
  - inversion HS as [|? ? HS' HF]; subst.
    destruct (Z.ltb_spec size k0); [|destruct (Z.ltb_spec k0 size)]; simpl.
    + constructor; [assumption|].
      constructor; [assumption|].
      rewrite Forall_forall in *. intros x Hx. specialize (HF x Hx). lia.
    + constructor; [auto|].
      rewrite Forall_forall in *. intros x Hx.
      destruct (size_push_keys _ _ _ _ Hx) as [->|Hx']; auto.
    + constructor; assumption.
Qed.

(** Induction over a directory tree. *)
Lemma DirEntry_tree_ind (P : DirEntry -> Prop) :
  (forall fd, P (Entry fd None)) ->
  (forall fd l, Forall P l -> P (Entry fd (Some l))) ->
  forall e, P e.
Proof.
  intros HN HS. fix IH 1. intros [fd [l|]]; [|apply HN].
  apply HS. induction l as [|e l IHl]; constructor; [apply IH|exact IHl].
Qed.

Lemma enumerate_entry_dir (extFilter directory : string) fd l sg :
  is_reparse_point fd = false -> is_dot_name (cFileName fd) = false ->
  is_directory fd = true ->
  enumerate_entry extFilter directory (Entry fd (Some l)) sg
  = fold_left
      (fun sg e =>
         enumerate_entry extFilter (directory ++ "\" ++ cFileName fd) e sg)
      l sg.
Proof.
  intros H1 H2 H3. cbn [enumerate_entry]. rewrite H1, H2, H3.
  revert sg. induction l as [|e l IH]; intros sg; simpl; [reflexivity|].
  apply IH.
Qed.

Lemma listed_incl directory l l' p fd :
  incl l l' -> listed directory l p fd -> listed directory l' p fd.
Proof.
  intros Hi H. inversion H; subst.
  - eapply listed_file; eauto.
  - eapply listed_sub; eauto.
Qed.

Lemma listed_cons_inv directory e l p fd :
  listed directory (e :: l) p fd ->
  listed directory [e] p fd \/ listed directory l p fd.
Proof.
  intros H. inversion H; subst;
    match goal with
    | Hin : In _ (_ :: _) |- _ => destruct Hin as [E|Hin']; [subst e|]
    end.
  - left. eapply listed_file; simpl; eauto.
  - right. eapply listed_file; eauto.
  - left. eapply listed_sub; simpl; eauto.
  - right. eapply listed_sub; eauto.
Qed.

(** Inversion of [listed] on the entries of a one-entry search. *)
Ltac listed_one H :=
  inversion H; subst;
  match goal with
  | Hin : In _ [_] |- _ => destruct Hin as [Hin|[]]; inversion Hin; subst
  end.

Lemma fold_listing_post (extFilter directory : string) (l : list DirEntry) :
  Forall (fun e => forall directory sg,
            entry_post extFilter directory e sg
              (enumerate_entry extFilter directory e sg)) l ->
  forall sg,
    listing_post extFilter directory l sg
      (fold_left (fun sg e => enumerate_entry extFilter directory e sg) l sg).
Proof.
  induction 1 as [|e l He Hl IH]; intros sg; simpl.
  - split; [auto|]. intros size p. split; [auto|].
    intros [?|(fd & H & _)]; [assumption|].
    inversion H; subst; simpl in *; contradiction.
  - destruct (He directory sg) as [S1 M1].
    destruct (IH (enumerate_entry extFilter directory e sg)) as [S2 M2].
    split; [auto|]. intros size p. rewrite M2, M1. split.
    + intros [[?|(fd & H & R)]|(fd & H & R)]; auto.
      * right. exists fd. split; [|exact R].
        eapply listed_incl; [|exact H]. intros x [<-|[]]. simpl; auto.
      * right. exists fd. split; [|exact R].
        eapply listed_incl; [|exact H]. apply incl_tl, incl_refl.
    + intros [?|(fd & H & R)]; auto.
      destruct (listed_cons_inv H) as [H1|H1]; eauto.
Qed.

Lemma listed_one_file directory fd found p fd' :
  is_directory fd = false ->
  listed directory [Entry fd found] p fd' ->
  p = (directory ++ "\" ++ cFileName fd)%string /\ fd' = fd.
Proof. intros Hd H. listed_one H; [auto|congruence]. Qed.

Lemma listed_one_dir directory fd found p fd' :
  is_directory fd = true ->
  listed directory [Entry fd found] p fd' ->
  exists l, found = Some l /\
    listed (directory ++ "\" ++ cFileName fd)%string l p fd'.
Proof. intros Hd H. listed_one H; [congruence|eauto]. Qed.

Lemma listed_one_skipped directory fd found p fd' :
  is_reparse_point fd = true \/ is_dot_name (cFileName fd) = true ->
  listed directory [Entry fd found] p fd' -> False.
Proof. intros [Hs|Hs] H; listed_one H; congruence. Qed.

Lemma entry_post_skip (extFilter directory : string) (e : DirEntry) sg :
  (forall p fd, listed directory [e] p fd ->
     MIN_SIZE_TO_CONSIDER <= file_size fd ->
     HasExtension p extFilter = true -> False) ->
  entry_post extFilter directory e sg sg.
Proof.
  intros Hno. split; [auto|]. intros size p. split; [auto|].
  intros [?|(fd & H & <- & Hm & Hx)]; [assumption|].
  exfalso. eapply Hno; eauto.
Qed.

Lemma enumerate_entry_post (extFilter : string) (e : DirEntry) :
  forall directory sg,
    entry_post extFilter directory e sg
      (enumerate_entry extFilter directory e sg).
Proof.
  assert (Hfile : forall fd found directory sg,
             is_reparse_point fd = false ->
             is_dot_name (cFileName fd) = false ->
             is_directory fd = false ->
             entry_post extFilter directory (Entry fd found) sg
               (enumerate_entry extFilter directory (Entry fd found) sg)).
  { intros fd found directory sg Hr Hd Hdir.
    cbn [enumerate_entry]. rewrite Hr, Hd, Hdir.
    destruct (HasExtension (directory ++ "\" ++ cFileName fd) extFilter)
      eqn:Hx;
      [destruct (Z.ltb_spec (file_size fd) MIN_SIZE_TO_CONSIDER) as [Hm|Hm]|].
    - apply entry_post_skip. intros p fd' H.
      destruct (listed_one_file Hdir H) as [-> ->]. lia.
    - split; [apply size_push_sorted|]. intros size p.
      rewrite size_push_member. split.
      + intros [?|[-> ->]]; auto. right. exists fd.
        split; [eapply listed_file; simpl; eauto|auto].
      + intros [?|(fd' & H & Hs & _)]; auto.
        destruct (listed_one_file Hdir H) as [-> ->]. auto.
    - apply entry_post_skip. intros p fd' H.
      destruct (listed_one_file Hdir H) as [-> ->]. congruence. }
  induction e as [fd|fd l IH] using DirEntry_tree_ind; intros directory sg.
  - destruct (is_reparse_point fd) eqn:Hr;
      [|destruct (is_dot_name (cFileName fd)) eqn:Hd;
        [|destruct (is_directory fd) eqn:Hdir; [|apply Hfile; assumption]]];
      cbn [enumerate_entry]; rewrite ?Hr, ?Hd, ?Hdir;
      apply entry_post_skip; intros p fd' H _ _.
    + eapply listed_one_skipped; eauto.
    + eapply listed_one_skipped; eauto.
    + destruct (listed_one_dir Hdir H) as (l & E & _). discriminate.
  - destruct (is_reparse_point fd) eqn:Hr;
      [|destruct (is_dot_name (cFileName fd)) eqn:Hd;
        [|destruct (is_directory fd) eqn:Hdir; [|apply Hfile; assumption]]].
    + cbn [enumerate_entry]. rewrite Hr.
      apply entry_post_skip; intros p fd' H _ _.
      eapply listed_one_skipped; eauto.
    + cbn [enumerate_entry]. rewrite Hr, Hd.
      apply entry_post_skip; intros p fd' H _ _.
      eapply listed_one_skipped; eauto.
    + rewrite (@enumerate_entry_dir extFilter directory fd l sg Hr Hd Hdir).
      destruct (@fold_listing_post extFilter
                  (directory ++ "\" ++ cFileName fd) l IH sg) as [S M].
      split; [exact S|]. intros size p. rewrite M. split.
      * intros [?|(fd' & H & R)]; auto. right. exists fd'.
        split; [|exact R]. eapply listed_sub; simpl; eauto.
      * intros [?|(fd' & H & R)]; auto.
        destruct (listed_one_dir Hdir H) as (l' & E & H').
        inversion E; subst. right. exists fd'. auto.
Qed.

Lemma Enumerate_post (directory : string)
    (found : option (list DirEntry)) (sizeGroups : SizeGroups)
    (extFilter : string) :
  (sorted_sizes sizeGroups ->
   sorted_sizes
     (EnumerateFilesAndGroupBySize directory found sizeGroups extFilter)) /\
  forall size p,
    size_member
      (EnumerateFilesAndGroupBySize directory found sizeGroups extFilter)
      size p <->
    size_member sizeGroups size p \/
    exists l fd, found = Some l /\ listed directory l p fd /\
                 file_size fd = size /\ MIN_SIZE_TO_CONSIDER <= size /\
                 HasExtension p extFilter = true.
Proof.
  destruct found as [l|]; cbn [EnumerateFilesAndGroupBySize].
  - destruct (@fold_listing_post extFilter directory l) with (sg := sizeGroups)
      as [S M].
    { apply Forall_forall. intros e _. apply enumerate_entry_post. }
    split; [exact S|]. intros size p. rewrite M. split.
    + intros [?|(fd & H)]; auto. right. exists l, fd. auto.
    + intros [?|(l' & fd & E & H)]; auto. inversion E; subst. eauto.
  - split; [auto|]. intros size p. split; [auto|].
    intros [?|(l' & fd & E & _)]; [assumption|discriminate].
Qed.

(** X3. EnumerateFilesAndGroupBySize keeps the map sorted by size, and
    afterwards a path is stored under a size exactly when it was there
    before or the search reached it as a regular file (through no reparse
    point, no dot entry) of that size, of at least 16 KiB, that passes the
    extension filter; a search that fails adds nothing. *)
Theorem EnumerateFilesAndGroupBySize_spec (directory : string)
    (found : option (list DirEntry)) (sizeGroups : SizeGroups)
    (extFilter : string) :
  (sorted_sizes sizeGroups ->
   sorted_sizes
     (EnumerateFilesAndGroupBySize directory found sizeGroups extFilter)) /\
  forall size p,
    size_member
      (EnumerateFilesAndGroupBySize directory found sizeGroups extFilter)
      size p <->
    size_member sizeGroups size p \/
    exists l fd, found = Some l /\ listed directory l p fd /\
                 file_size fd = size /\ MIN_SIZE_TO_CONSIDER <= size /\
                 HasExtension p extFilter = true.
Proof. apply Enumerate_post. Qed.

(** *** The comparator loses no file of the size of the pivot *)

Section ComparatorComplete.

Variable fs : FileSystem.
Variable dp : list byte.
Variable off : Z.

Lemma compare_right_full (r : RightFileState) (n : nat) (t : Z) :
  let mb := firstn n (skipn (Z.to_nat t) dp) in
  let masterBytes := Z.of_nat (length mb) in
  0 <= off <= t -> right_full fs dp off t r ->
  match compare_right mb masterBytes t r with
  | Erased => False
  | Pruned k => True
  | Kept r' =>
      filePath r' = filePath r /\ right_full fs dp off (t + masterBytes) r'
  end.
Proof.
  intros mb masterBytes Hoff [Hok Hlen].
  pose proof (@compare_right_spec fs dp off t r n Hoff Hok) as Hspec.
  fold mb in Hspec. fold masterBytes in Hspec.
  destruct (compare_right mb masterBytes t r) as [|k|r'] eqn:E; auto.
  - unfold compare_right, read in E.
    destruct Hok as (_ & Hgood & Hpos & _). rewrite Hgood in E.
    cbn [gcount] in E. rewrite Hpos in E.
    assert (Hl : Z.of_nat (length (firstn (Z.to_nat masterBytes)
                                     (skipn (Z.to_nat t) (buf (stream r)))))
                 = masterBytes).
    { unfold masterBytes, mb. rewrite Nat2Z.id.
      rewrite !length_firstn, !length_skipn, Hlen. lia. }
    rewrite Hl, Z.eqb_refl in E. cbn [negb] in E.
    destruct (negb (memcmp mb _ (Z.to_nat masterBytes) =? 0)); discriminate.
  - destruct Hspec as [Hp Hr]. split; [exact Hp|]. split; [exact Hr|].
    unfold compare_right, read in E.
    destruct Hok as (_ & Hgood & _). rewrite Hgood in E. cbn [gcount] in E.
    destruct (negb _) in E; [discriminate|].
    destruct (negb _) in E; [discriminate|].
    inversion E; subst r'. cbn [stream buf]. exact Hlen.
Qed.

Lemma compare_chunk_full (n : nat) (t : Z) :
  let mb := firstn n (skipn (Z.to_nat t) dp) in
  let masterBytes := Z.of_nat (length mb) in
  0 <= off <= t ->
  forall rs kg rs' kg',
    Forall (right_full fs dp off t) rs ->
    compare_chunk mb masterBytes t rs kg = (rs', kg') ->
    Forall (right_full fs dp off (t + masterBytes)) rs' /\
    (forall k q, bucket_member kg k q -> bucket_member kg' k q) /\
    (forall q, In q (map filePath rs) ->
       In q (map filePath rs') \/ exists k, bucket_member kg' k q).
Proof.
  intros mb masterBytes Hoff rs.
  induction rs as [|r rest IH]; intros kg rs' kg' Hok Hc;
    cbn [compare_chunk] in Hc.
  - inversion Hc; subst. split; [constructor|]. split; [auto|].
    intros q [].
  - inversion Hok as [|? ? Hr Hrest]; subst.
    pose proof (@compare_right_full r n t Hoff Hr) as Hf.
    fold mb in Hf. fold masterBytes in Hf.
    destruct (compare_right mb masterBytes t r) as [|key|r1]; [contradiction| |].
    + destruct (IH _ _ _ Hrest Hc) as (H1 & H2 & H3).
      split; [exact H1|]. split.
      * intros k q Hm. apply H2. apply map_push_member. auto.
      * intros q [<-|Hq]; [|apply H3; exact Hq].
        right. exists key. apply H2. apply map_push_member. auto.
    + destruct (compare_chunk mb masterBytes t rest kg) as [rs1 kg1] eqn:E.
      inversion Hc; subst.
      destruct (IH _ _ _ Hrest E) as (H1 & H2 & H3).
      destruct Hf as [Hp Hr1].
      split; [constructor; assumption|]. split; [exact H2|].
      intros q [<-|Hq].
      * left. simpl. left. exact Hp.
      * destruct (H3 q Hq) as [?|?]; [left; simpl; auto|auto].
Qed.

Lemma compare_loop_full (fuel : nat) :
  forall m rs t kg rs' kg',
    0 <= off <= t -> buf m = dp -> gpos m = t ->
    (good m = false -> Z.of_nat (length dp) <= t) ->
    Forall (right_full fs dp off t) rs ->
    compare_loop fuel m rs t kg = Some (rs', kg') ->
    (exists t', Forall (right_full fs dp off t') rs' /\
                (rs' = [] \/ Z.of_nat (length dp) <= t')) /\
    (forall k q, bucket_member kg k q -> bucket_member kg' k q) /\
    (forall q, In q (map filePath rs) ->
       In q (map filePath rs') \/ exists k, bucket_member kg' k q).
Proof.
  induction fuel as [|fuel IH];
    intros m rs t kg rs' kg' Hoff Hbuf Hpos Hbad Hok Hl;
    cbn [compare_loop] in Hl; [discriminate|].
  destruct (read m BUFFER_SIZE) as [mb m'] eqn:Hr.
  destruct (@read_master m BUFFER_SIZE mb m' Hr ltac:(reflexivity) ltac:(lia))
    as (Hb' & Hp' & Hg' & Hmb & Hmb0 & _ & Hbad' & Hend).
  destruct (Z.leb_spec (gcount m') 0) as [Hle|Hgt].
  - inversion Hl; subst rs' kg'.
    split; [|split; auto].
    exists t. split; [exact Hok|]. right.
    destruct (good m) eqn:Hg; [|auto].
    rewrite Hbuf, Hpos in Hend. auto.
  - assert (Hgood : good m = true).
    { destruct (good m); [reflexivity|]. rewrite (Hmb0 eq_refl) in Hg'.
      simpl in Hg'. lia. }
    specialize (Hmb Hgood). rewrite Hbuf, Hpos in Hmb.
    destruct (compare_chunk mb (gcount m') t rs kg) as [rs1 kg1] eqn:Hc.
    rewrite Hg' in Hc. rewrite Hmb in Hc.
    destruct (@compare_chunk_full (Z.to_nat BUFFER_SIZE) t Hoff rs kg rs1 kg1
                Hok Hc) as (H1 & H2 & H3).
    rewrite <- Hmb, <- Hg' in H1.
    destruct rs1 as [|r1 rs1].
    + inversion Hl; subst rs' kg'.
      split; [|split; auto].
      exists (t + gcount m'). split; [constructor|auto].
    + destruct (IH m' (r1 :: rs1) (t + gcount m') kg1 rs' kg') as
          (G1 & G2 & G3); auto; try lia.
      * congruence.
      * intros Hb. specialize (Hbad' Hb ltac:(lia)). rewrite Hbuf in Hbad'.
        lia.
      * split; [exact G1|]. split; [auto|].
        intros q Hq. destruct (H3 q Hq) as [Hq1|(k & Hk)].
        -- apply G3. exact Hq1.
        -- right. exists k. auto.
Qed.

Lemma collect_identical_full (t' : Z) : forall rs dg,
  Forall (right_full fs dp off t') rs ->
  (rs = [] \/ Z.of_nat (length dp) <= t') ->
  collect_identical rs dg = (dg ++ map filePath rs)%list.
Proof.
  induction rs as [|r rest IH]; intros dg Hok Hend; simpl.
  - rewrite app_nil_r. reflexivity.
  - destruct Hend as [Hend|Hend]; [discriminate|].
    inversion Hok as [|? ? [(Hfs & Hgood & Hpos & Hag) Hlen] Hrest]; subst.
    unfold peek. rewrite Hgood.
    rewrite skipn_all2 by lia. cbn [eof eofbit].
    rewrite IH by auto. rewrite <- app_assoc. reflexivity.
Qed.

Lemma open_rights_full : forall rights rs log (n : nat),
  0 <= off -> length dp = n -> all_of_size fs rights n ->
  open_rights fs rights off = (rs, log) ->
  Forall (right_full fs dp off off) rs /\ map filePath rs = rights.
Proof.
  induction rights as [|p rest IH]; intros rs log n Hoff Hn Hall H;
    simpl in H.
  - inversion H; subst. split; constructor.
  - destruct (open_rights fs rest off) as [rs1 log1] eqn:E.
    destruct (IH rs1 log1 n Hoff Hn) as (H1 & H2); auto.
    { intros q Hq. apply Hall. right. exact Hq. }
    destruct (Hall p (or_introl eq_refl)) as (d & Hp & Hd).
    unfold open, fail in H. rewrite Hp in H. cbn [failbit] in H.
    inversion H; subst. simpl. split; [|f_equal; exact H2].
    constructor; [|exact H1].
    unfold right_full, right_ok, seekg; cbn [filePath stream failbit buf gpos].
    destruct (Z.ltb_spec off 0); [lia|].
    cbn [buf good eofbit failbit gpos andb negb].
    repeat split; auto; try congruence. intros i Hi. lia.
Qed.

End ComparatorComplete.

Lemma Compare_full (fs : FileSystem) pivot rights off kg dg
    kg' dg' log (n : nat) :
  0 <= off ->
  all_of_size fs (pivot :: rights) n ->
  CompareFilesBufferedAdvanced fs pivot rights off kg dg
    = Some (kg', dg', log) ->
  log = [] /\
  (forall k q, bucket_member kg k q -> bucket_member kg' k q) /\
  exists new, dg' = (dg ++ new)%list /\
    forall q, In q rights -> In q new \/ exists k, bucket_member kg' k q.
Proof.
  intros Hoff Hall.
  destruct (Hall pivot (or_introl eq_refl)) as (dp & Hp & Hn).
  assert (Hr : all_of_size fs rights n)
    by (intros q Hq; apply Hall; right; exact Hq).
  unfold CompareFilesBufferedAdvanced.
  unfold open at 1, fail at 1. rewrite Hp. cbn [failbit].
  unfold open at 1 2. rewrite Hp.
  destruct (open_rights fs rights off) as [rs log0] eqn:Ho.
  destruct (@open_rights_paths fs off rights rs log0 Ho) as (_ & Hlog & _).
  destruct (@open_rights_full fs dp off rights rs log0 n Hoff Hn Hr Ho)
    as (Hok & Hpaths).
  set (master := seekg (mk dp 0 false false 0) off).
  assert (Hm : master = mk dp off false false 0).
  { unfold master, seekg; cbn [failbit].
    destruct (Z.ltb_spec off 0); [lia|reflexivity]. }
  destruct (compare_loop (S (length (buf master))) master rs off kg)
    as [[rs1 kg1]|] eqn:Hl; [|discriminate].
  intros H; inversion H; subst kg1 dg' log; clear H.
  destruct (@compare_loop_full fs dp off (S (length (buf master))) master
              rs off kg rs1 kg')
    as ((t' & Hok' & Hend) & Hmono & Hroute); auto;
    try (rewrite Hm; first [reflexivity|discriminate]); [lia|].
  split.
  - rewrite Hlog. replace (filter (fun p => negb (opens fs p)) rights)
      with (@nil path); [reflexivity|].
    symmetry. clear - Hr. induction rights as [|p rest IH]; [reflexivity|].
    simpl. destruct (Hr p (or_introl eq_refl)) as (d & Hd & _).
    unfold opens at 1. rewrite Hd. simpl. apply IH.
    intros q Hq. apply Hr. right. exact Hq.
  - split; [exact Hmono|].
    exists (map filePath rs1).
    split; [apply (@collect_identical_full fs dp off t'); assumption|].
    intros q Hq. apply Hroute. rewrite Hpaths. exact Hq.
Qed.

(** X4. When the pivot and the right files all open and have one size,
    CompareFilesBufferedAdvanced loses no file: it writes no message, keeps
    what the buckets held, and every right file ends either in the
    duplicate group or in a bucket. *)
Theorem Compare_routes_every_file (fs : FileSystem) pivot rights off kg dg
    kg' dg' log (n : nat) :
  0 <= off ->
  all_of_size fs (pivot :: rights) n ->
  CompareFilesBufferedAdvanced fs pivot rights off kg dg
    = Some (kg', dg', log) ->
  log = [] /\
  (forall k q, bucket_member kg k q -> bucket_member kg' k q) /\
  exists new, dg' = (dg ++ new)%list /\
    forall q, In q rights -> In q new \/ exists k, bucket_member kg' k q.
Proof. apply Compare_full. Qed.

(** *** The partitioner keeps identical files together *)

Lemma In_batch (A : Type) (l : list A) (processed b : nat) (x : A) :
  In x (firstn b (skipn processed l)) -> In x l.
Proof.
  intros H. rewrite <- (firstn_skipn processed l). apply in_or_app. right.
  rewrite <- (firstn_skipn b (skipn processed l)). apply in_or_app. auto.
Qed.

Lemma compare_batches_full (fs : FileSystem) pivot rights off (n : nat)
    (fuel : nat) :
  0 <= off -> all_of_size fs (pivot :: rights) n ->
  forall processed kg dg kg' dg' log,
    compare_batches fuel fs pivot rights processed off kg dg
      = Some (kg', dg', log) ->
    (forall k q, bucket_member kg k q -> bucket_member kg' k q) /\
    exists new, dg' = (dg ++ new)%list /\
      forall q, In q (skipn processed rights) ->
        In q new \/ exists k, bucket_member kg' k q.
Proof.
  intros Hoff Hall.
  induction fuel as [|fuel IH]; intros processed kg dg kg' dg' log H;
    cbn [compare_batches] in H;
    destruct (Nat.ltb_spec processed (length rights)) as [Hlt|Hge];
    try discriminate.
  - inversion H; subst. split; [auto|]. exists []. rewrite app_nil_r.
    split; [reflexivity|]. rewrite skipn_all2 by lia. intros q [].
  - set (b := Nat.min (length rights - processed) MAX_BATCH) in *.
    set (batch := firstn b (skipn processed rights)) in *.
    destruct (CompareFilesBufferedAdvanced fs pivot batch off kg dg)
      as [[[kg1 dg1] log1]|] eqn:Ec; [|discriminate].
    destruct (compare_batches fuel fs pivot rights (processed + b) off kg1 dg1)
      as [[[kg2 dg2] log2]|] eqn:Eb; [|discriminate].
    inversion H; subst kg2 dg2 log; clear H.
    assert (Hbatch : all_of_size fs (pivot :: batch) n).
    { intros q [<-|Hq]; [apply Hall; left; reflexivity|].
      apply Hall. right. unfold batch in Hq.
      eapply In_batch. exact Hq. }
    destruct (@Compare_full fs pivot batch off kg dg kg1 dg1
                log1 n Hoff Hbatch Ec)
      as (_ & M1 & new1 & E1 & R1).
    destruct (IH _ _ _ _ _ _ Eb) as (M2 & new2 & E2 & R2).
    split; [auto|]. exists (new1 ++ new2)%list.
    split; [subst; rewrite app_assoc; reflexivity|].
    intros q Hq. rewrite <- (batch_split rights processed b) in Hq.
    fold batch in Hq. apply in_app_or in Hq. destruct Hq as [Hq|Hq].
    + destruct (R1 q Hq) as [?|(k & Hk)].
      * left. apply in_or_app. auto.
      * right. exists k. auto.
    + destruct (R2 q Hq) as [?|?]; [left; apply in_or_app|]; auto.
  - inversion H; subst. split; [auto|]. exists []. rewrite app_nil_r.
    split; [reflexivity|]. rewrite skipn_all2 by lia. intros q [].
Qed.

Lemma two_distinct_length (A : Type) (l : list A) (x y : A) :
  In x l -> In y l -> x <> y -> (1 < length l)%nat.
Proof.
  destruct l as [|a [|b l]]; simpl; try tauto; [|lia].
  intros [<-|[]] [<-|[]] H. congruence.
Qed.

Lemma Forall2_In_l (A B : Type) (R : A -> B -> Prop) l1 l2 a :
  Forall2 R l1 l2 -> In a l1 -> exists b, In b l2 /\ R a b.
Proof.
  induction 1 as [|x y l1 l2 Hxy HF IH]; simpl; [tauto|].
  intros [<-|Hin].
  - exists y. auto.
  - destruct (IH Hin) as (b & Hb & HR). exists b. auto.
Qed.

Lemma diverges_at_same_content (fs : FileSystem) dp off k1 k2 p q :
  diverges_at fs dp off k1 p -> diverges_at fs dp off k2 q ->
  fs p = fs q -> k1 = k2.
Proof.
  intros (dc & Hp & Ho1 & Ha1 & Hb1 & b1 & Hp1 & Hn1)
         (dc' & Hq & Ho2 & Ha2 & Hb2 & b2 & Hp2 & Hn2) E.
  assert (dc' = dc) by congruence. subst dc'.
  destruct k1 as [o1 c1], k2 as [o2 c2]; cbn [fst snd] in *.
  destruct (Z.lt_trichotomy o1 o2) as [Hlt|[Heq|Hgt]].
  - specialize (Ha2 o1 ltac:(lia)). congruence.
  - subst o2. congruence.
  - specialize (Ha1 o2 ltac:(lia)). congruence.
Qed.

Lemma Group_fuel_maximal (fs : FileSystem) fuel files groups off groups' log :
  GroupFilesByContentUsingMap_fuel fuel fs files groups off
    = Some (groups', log) ->
  exists new, groups' = (groups ++ new)%list /\
              emits_maximal fs files off new.
Proof.
  apply Group_call_tree; clear fuel files groups off groups' log.
  - intros files off Hlen _ _ p q d Hp Hq Hne.
    exfalso. pose proof (@two_distinct_length _ _ _ _ Hp Hq Hne). lia.
  - intros pivot rights off kg dg log subs Hb HF Hoff [n Hall] p q d
      Hp Hq Hne Hfp Hfq.
    destruct (batches_group _ _ _ _ Hb) as (Hsort & newm & Edg & Hnew).
    destruct (@compare_batches_full fs pivot rights off n (length rights)
                Hoff Hall 0%nat [] [pivot] kg dg log Hb)
      as (_ & new & Enew & Hroute).
    assert (new = newm) by (rewrite Edg in Enew; inversion Enew; reflexivity).
    subst new. simpl skipn in Hroute.
    destruct (Hall pivot (or_introl eq_refl)) as (dp & Hpiv & _).
    (* where a file of the call goes *)
    assert (Hfate : forall x, In x (pivot :: rights) ->
              In x dg \/ exists k v, In (k, v) kg /\ In x v).
    { intros x [<-|Hx]; [left; rewrite Edg; left; reflexivity|].
      destruct (Hroute x Hx) as [?|(k & v & Hin & Hv)].
      - left. rewrite Edg. right. assumption.
      - right. eauto. }
    (* a file of the duplicate group equals the pivot from [off] on *)
    assert (Hdg : forall x, In x dg -> same_from fs dp off x).
    { intros x Hx. rewrite Edg in Hx. destruct Hx as [<-|Hx].
      - exists dp. auto.
      - destruct (Hnew x Hx) as (_ & dp' & Hpiv' & Hs). congruence. }
    assert (Hbk : forall x k v, In (k, v) kg -> In x v ->
              diverges_at fs dp off k x /\ In x rights).
    { intros x k v Hin Hv.
      destruct (batches_bucket _ _ _ _ _ _ _ Hb Hin Hv)
        as (Hxr & dp' & Hpiv' & Hd).
      split; [congruence|exact Hxr]. }
    assert (Hmix : forall x y k v, fs x = Some d -> fs y = Some d ->
              In x dg -> In (k, v) kg -> In y v -> False).
    { intros x y k v Hx Hy Hxd Hin Hv.
      destruct (Hbk y k v Hin Hv) as [Hd _].
      apply (@same_from_not_diverges fs dp off k y); [|exact Hd].
      destruct (Hdg x Hxd) as (dx & Hfx & Hs).
      exists dx. split; [congruence|exact Hs]. }
    destruct (Hfate p Hp) as [Hpd|(k1 & v1 & Hin1 & Hv1)];
      destruct (Hfate q Hq) as [Hqd|(k2 & v2 & Hin2 & Hv2)].
    + exists dg. split; [|auto]. apply in_or_app. left.
      pose proof (@two_distinct_length _ _ _ _ Hpd Hqd Hne) as Hlen.
      apply Nat.ltb_lt in Hlen. rewrite Hlen. left. reflexivity.
    + exfalso. eapply (Hmix p q); eauto.
    + exfalso. eapply (Hmix q p); eauto.
    + destruct (Hbk p k1 v1 Hin1 Hv1) as [Hd1 _].
      destruct (Hbk q k2 v2 Hin2 Hv2) as [Hd2 _].
      assert (k1 = k2)
        by (eapply diverges_at_same_content; eauto; congruence).
      subst k2.
      assert (v1 = v2)
        by (eapply NoDup_keys_entry; eauto; apply sorted_keys_NoDup; auto).
      subst v2.
      destruct (@Forall2_In_l _ _ _ _ _ _ HF Hin1) as (sub & Hsub & Hs).
      unfold sub_results in Hs. cbn [fst snd] in Hs.
      pose proof (@two_distinct_length _ _ _ _ Hv1 Hv2 Hne) as Hlen.
      apply Nat.ltb_lt in Hlen. rewrite Hlen in Hs.
      destruct (Hs) with (p := p) (q := q) (d := d) as (g & Hg & Hpg & Hqg);
        auto.
      * destruct Hd1 as (dc & _ & _ & _ & Hb1 & _).
        apply byte_at_Some_lt in Hb1. lia.
      * exists n. intros x Hx. apply Hall. right.
        apply (Hbk x k1 v1 Hin1 Hx).
      * exists g. split; [|auto]. apply in_or_app. right.
        apply in_concat. exists sub. auto.
Qed.

(** X5. On files that all open, have one size and share their bytes before
    the offset, the groups GroupFilesByContentUsingMap emits are the
    classes of equal content: two different paths of the input are emitted
    together in one group exactly when their contents are the same. *)
Theorem GroupFiles_groups_are_content_classes (fs : FileSystem) files groups
    off groups' log (n : nat) :
  0 <= off ->
  all_of_size fs files n ->
  identical_prefix fs files off ->
  GroupFilesByContentUsingMap fs files groups off = Some (groups', log) ->
  exists new, groups' = (groups ++ new)%list /\
    forall p q, In p files -> In q files -> p <> q ->
      ((exists g, In g new /\ In p g /\ In q g) <-> fs p = fs q).
Proof.
  intros Hoff Hall Hpre H.
  destruct (Group_fuel_maximal _ _ _ _ _ H) as (new & E & HM).
  destruct (Group_fuel_identical _ _ _ _ _ H) as (new' & E' & HI).
  assert (new' = new) by (apply (app_inv_head groups); congruence).
  subst new'. exists new. split; [exact E|].
  intros p q Hp Hq Hne. split.
  - intros (g & Hg & Hpg & Hqg).
    destruct (HI Hpre g p q Hg Hpg Hqg) as (d & -> & ->). reflexivity.
  - intros Heq. destruct (Hall p Hp) as (d & Hd & _).
    apply (HM Hoff (ex_intro _ n Hall) p q d); congruence.
Qed.

(** *** Bytes before the offset are never read *)

Lemma stream_sim_good s1 s2 : stream_sim s1 s2 -> good s1 = good s2.
Proof. intros (_ & _ & E & F & _). unfold good. congruence. Qed.

Lemma read_sim (s1 s2 : ifstream) (n : Z) :
  stream_sim s1 s2 ->
  fst (read s1 n) = fst (read s2 n) /\
  stream_sim (snd (read s1 n)) (snd (read s2 n)).
Proof.
  intros Hs. pose proof (stream_sim_good Hs) as Hg.
  destruct Hs as (Hpos & Hp & He & Hf & Hc & Hb).
  unfold read. rewrite <- Hg. destruct (good s1) eqn:G.
  - specialize (Hb eq_refl). rewrite <- Hp, <- Hb. cbn [fst snd].
    split; [reflexivity|].
    set (c := firstn (Z.to_nat n) (skipn (Z.to_nat (gpos s1)) (buf s1))).
    unfold stream_sim; cbn [gpos eofbit failbit gcount buf good].
    repeat split; try lia.
    intros _.
    replace (Z.to_nat (gpos s1 + Z.of_nat (length c)))
      with (length c + Z.to_nat (gpos s1))%nat by lia.
    rewrite <- !skipn_skipn. rewrite Hb. reflexivity.
  - cbn [fst snd]. split; [reflexivity|].
    unfold stream_sim; cbn [gpos eofbit failbit gcount buf good].
    repeat split; auto.
    rewrite He. destruct (eofbit s2); discriminate.
Qed.

Lemma peek_sim (s1 s2 : ifstream) :
  stream_sim s1 s2 -> eof (snd (peek s1)) = eof (snd (peek s2)).
Proof.
  intros Hs. pose proof (stream_sim_good Hs) as Hg.
  destruct Hs as (Hpos & Hp & He & Hf & Hc & Hb).
  unfold peek. rewrite <- Hg. destruct (good s1) eqn:G.
  - specialize (Hb eq_refl). rewrite <- Hp, <- Hb.
    destruct (skipn (Z.to_nat (gpos s1)) (buf s1)); reflexivity.
  - cbn [snd eof eofbit]. exact He.
Qed.

Lemma compare_right_sim mb masterBytes t r1 r2 :
  right_sim r1 r2 ->
  match compare_right mb masterBytes t r1,
        compare_right mb masterBytes t r2 with
  | Erased, Erased => True
  | Pruned k1, Pruned k2 => k1 = k2
  | Kept r1', Kept r2' => right_sim r1' r2'
  | _, _ => False
  end.
Proof.
  intros [Hp Hs]. unfold compare_right.
  destruct (read_sim masterBytes Hs) as [Hb Hs'].
  destruct (read (stream r1) masterBytes) as [rb1 s1'].
  destruct (read (stream r2) masterBytes) as [rb2 s2'].
  cbn [fst snd] in *. subst rb2.
  assert (Hc : gcount s1' = gcount s2') by (apply Hs').
  rewrite <- Hc.
  destruct (negb (gcount s1' =? masterBytes)); [exact I|].
  destruct (negb (memcmp mb rb1 (Z.to_nat masterBytes) =? 0));
    [reflexivity|].
  split; [exact Hp|exact Hs'].
Qed.

Lemma compare_chunk_sim mb masterBytes t : forall rs1 rs2 kg,
  Forall2 right_sim rs1 rs2 ->
  snd (compare_chunk mb masterBytes t rs1 kg)
  = snd (compare_chunk mb masterBytes t rs2 kg) /\
  Forall2 right_sim (fst (compare_chunk mb masterBytes t rs1 kg))
                    (fst (compare_chunk mb masterBytes t rs2 kg)).
Proof.
  intros rs1 rs2 kg H. revert kg.
  induction H as [|r1 r2 rs1 rs2 Hr HF IH]; intros kg; cbn [compare_chunk].
  - split; [reflexivity|constructor].
  - pose proof (@compare_right_sim mb masterBytes t r1 r2 Hr) as Hv.
    assert (Hp : filePath r1 = filePath r2) by (apply Hr).
    destruct (compare_right mb masterBytes t r1) as [|k1|r1'];
      destruct (compare_right mb masterBytes t r2) as [|k2|r2'];
      try contradiction.
    + apply IH.
    + subst k2. rewrite Hp. apply IH.
    + destruct (IH kg) as [E F].
      destruct (compare_chunk mb masterBytes t rs1 kg) as [a1 b1].
      destruct (compare_chunk mb masterBytes t rs2 kg) as [a2 b2].
      cbn [fst snd] in *. split; [exact E|constructor; assumption].
Qed.

Lemma compare_loop_sim (fuel : nat) : forall m1 m2 rs1 rs2 t kg,
  stream_sim m1 m2 -> Forall2 right_sim rs1 rs2 ->
  match compare_loop fuel m1 rs1 t kg, compare_loop fuel m2 rs2 t kg with
  | Some (rs1', kg1), Some (rs2', kg2) =>
      kg1 = kg2 /\ Forall2 right_sim rs1' rs2'
  | None, None => True
  | _, _ => False
  end.
Proof.
  induction fuel as [|fuel IH]; intros m1 m2 rs1 rs2 t kg Hm Hrs;
    cbn [compare_loop]; [exact I|].
  destruct (read_sim BUFFER_SIZE Hm) as [Hb Hm'].
  destruct (read m1 BUFFER_SIZE) as [mb1 m1'].
  destruct (read m2 BUFFER_SIZE) as [mb2 m2'].
  cbn [fst snd] in *. subst mb2.
  assert (Hc : gcount m1' = gcount m2') by (apply Hm').
  rewrite <- Hc.
  destruct (gcount m1' <=? 0); [split; [reflexivity|exact Hrs]|].
  destruct (@compare_chunk_sim mb1 (gcount m1') t rs1 rs2 kg Hrs) as [E F].
  destruct (compare_chunk mb1 (gcount m1') t rs1 kg) as [a1 b1].
  destruct (compare_chunk mb1 (gcount m1') t rs2 kg) as [a2 b2].
  cbn [fst snd] in *. subst b2.
  inversion F as [|x y l1 l2 Hxy HF]; subst.
  - split; [reflexivity|constructor].
  - apply IH; [exact Hm'|exact F].
Qed.

Lemma compare_loop_more_fuel (fuel : nat) : forall fuel' m rs t kg r,
  (fuel <= fuel')%nat ->
  compare_loop fuel m rs t kg = Some r ->
  compare_loop fuel' m rs t kg = Some r.
Proof.
  induction fuel as [|fuel IH]; intros fuel' m rs t kg r Hle H;
    cbn [compare_loop] in H; [discriminate|].
  destruct fuel' as [|fuel']; [lia|]. cbn [compare_loop].
  destruct (read m BUFFER_SIZE) as [mb m'].
  destruct (gcount m' <=? 0); [exact H|].
  destruct (compare_chunk mb (gcount m') t rs kg) as [[|r1 rs1] kg1];
    [exact H|].
  apply IH; [lia|exact H].
Qed.

Lemma collect_identical_sim : forall rs1 rs2 dg,
  Forall2 right_sim rs1 rs2 ->
  collect_identical rs1 dg = collect_identical rs2 dg.
Proof.
  intros rs1 rs2 dg H. revert dg.
  induction H as [|r1 r2 rs1 rs2 [Hp Hs] HF IH]; intros dg;
    cbn [collect_identical]; [reflexivity|].
  pose proof (peek_sim Hs) as He.
  destruct (peek (stream r1)) as [c1 s1'].
  destruct (peek (stream r2)) as [c2 s2'].
  cbn [snd] in He. rewrite <- He, Hp.
  destruct (eof s1'); apply IH.
Qed.

Lemma open_seek_sim (fs1 fs2 : FileSystem) (off : Z) (p : path) :
  agree_from fs1 fs2 off ->
  fail (open fs1 p) = fail (open fs2 p) /\
  stream_sim (seekg (open fs1 p) off) (seekg (open fs2 p) off).
Proof.
  intros Ha. specialize (Ha p). unfold open, fail, seekg, stream_sim, good.
  destruct (fs1 p) as [d1|], (fs2 p) as [d2|]; try contradiction;
    cbn [failbit gpos gcount buf eofbit]; (split; [reflexivity|]).
  - destruct (Z.ltb_spec off 0);
      cbn [failbit eofbit gpos gcount buf negb andb].
    + repeat split; try lia; discriminate.
    + repeat split; try lia. intros _. exact Ha.
  - repeat split; try lia; cbn; discriminate.
Qed.

Lemma open_rights_sim (fs1 fs2 : FileSystem) (off : Z) :
  agree_from fs1 fs2 off ->
  forall rights,
    snd (open_rights fs1 rights off) = snd (open_rights fs2 rights off) /\
    Forall2 right_sim (fst (open_rights fs1 rights off))
                      (fst (open_rights fs2 rights off)).
Proof.
  intros Ha. induction rights as [|p rest IH]; cbn [open_rights].
  - split; [reflexivity|constructor].
  - destruct (@open_seek_sim fs1 fs2 off p Ha) as [Hf Hs].
    destruct IH as [E F].
    destruct (open_rights fs1 rest off) as [a1 b1].
    destruct (open_rights fs2 rest off) as [a2 b2].
    cbn [fst snd] in *. rewrite <- Hf.
    destruct (fail (open fs1 p)); cbn [fst snd].
    + split; [congruence|exact F].
    + split; [exact E|]. constructor; [|exact F]. split; [reflexivity|exact Hs].
Qed.

Lemma Compare_agree_from (fs1 fs2 : FileSystem) (off : Z) pivot rights
    kg dg :
  agree_from fs1 fs2 off ->
  CompareFilesBufferedAdvanced fs1 pivot rights off kg dg
  = CompareFilesBufferedAdvanced fs2 pivot rights off kg dg.
Proof.
  intros Ha.
  destruct (Compare_total fs1 pivot rights off kg dg) as [r1 E1].
  destruct (Compare_total fs2 pivot rights off kg dg) as [r2 E2].
  rewrite E1, E2. f_equal.
  unfold CompareFilesBufferedAdvanced in E1, E2.
  destruct (@open_seek_sim fs1 fs2 off pivot Ha) as [Hf Hm].
  rewrite <- Hf in E2.
  destruct (fail (open fs1 pivot)); [congruence|].
  destruct (@open_rights_sim fs1 fs2 off Ha rights) as [El Hrs].
  destruct (open_rights fs1 rights off) as [rs1 log1].
  destruct (open_rights fs2 rights off) as [rs2 log2].
  cbn [fst snd] in *. subst log2.
  set (m1 := seekg (open fs1 pivot) off) in *.
  set (m2 := seekg (open fs2 pivot) off) in *.
  set (f1 := S (length (buf m1))) in *.
  set (f2 := S (length (buf m2))) in *.
  destruct (compare_loop f1 m1 rs1 off kg) as [[a1 b1]|] eqn:L1;
    [|discriminate].
  destruct (compare_loop f2 m2 rs2 off kg) as [[a2 b2]|] eqn:L2;
    [|discriminate].
  apply (@compare_loop_more_fuel f1 (Nat.max f1 f2)) in L1; [|lia].
  apply (@compare_loop_more_fuel f2 (Nat.max f1 f2)) in L2; [|lia].
  pose proof (@compare_loop_sim (Nat.max f1 f2) m1 m2 rs1 rs2 off kg Hm Hrs)
    as Hsim.
  rewrite L1, L2 in Hsim. destruct Hsim as [-> HF].
  rewrite (collect_identical_sim dg HF) in E1. congruence.
Qed.

Lemma agree_from_later (fs1 fs2 : FileSystem) (off off' : Z) :
  off <= off' -> agree_from fs1 fs2 off -> agree_from fs1 fs2 off'.
Proof.
  intros Hle Ha p. specialize (Ha p).
  destruct (fs1 p) as [d1|], (fs2 p) as [d2|]; try exact Ha.
  replace (Z.to_nat off')
    with ((Z.to_nat off' - Z.to_nat off) + Z.to_nat off)%nat by lia.
  rewrite <- !skipn_skipn. rewrite Ha. reflexivity.
Qed.

Lemma compare_batches_agree_from (fs1 fs2 : FileSystem) (off : Z) pivot
    rights :
  agree_from fs1 fs2 off ->
  forall fuel processed kg dg,
    compare_batches fuel fs1 pivot rights processed off kg dg
    = compare_batches fuel fs2 pivot rights processed off kg dg.
Proof.
  intros Ha. induction fuel as [|fuel IH]; intros processed kg dg;
    cbn [compare_batches]; [reflexivity|].
  destruct (processed <? length rights)%nat; [|reflexivity].
  rewrite (@Compare_agree_from fs1 fs2 off pivot
             (firstn (Nat.min (length rights - processed) MAX_BATCH)
                (skipn processed rights)) kg dg Ha).
  destruct (CompareFilesBufferedAdvanced fs2 pivot _ off kg dg)
    as [[[kg1 dg1] log1]|]; [|reflexivity].
  rewrite IH. reflexivity.
Qed.

Lemma recurse_key_groups_ext
    (rec1 rec2 : list path -> list (list path) -> Z ->
                 option (list (list path) * list Msg)) :
  forall entries : KeyGroups,
    (forall (k : GroupKey) v, In (k, v) entries -> (1 < length v)%nat ->
       forall g, rec1 v g (fst k) = rec2 v g (fst k)) ->
    forall g, recurse_key_groups rec1 entries g
              = recurse_key_groups rec2 entries g.
Proof.
  induction entries as [|[k v] rest IH]; intros H g;
    cbn [recurse_key_groups]; [reflexivity|]. cbn [fst snd].
  assert (Hrest : forall g', recurse_key_groups rec1 rest g'
                             = recurse_key_groups rec2 rest g').
  { apply IH. intros k' v' Hin. apply H. right. exact Hin. }
  destruct (Nat.ltb_spec 1 (length v)) as [Hlen|Hlen]; [|apply Hrest].
  rewrite (H k v (or_introl eq_refl) Hlen g).
  destruct (rec2 v g (fst k)) as [[g1 l1]|]; [|reflexivity].
  rewrite Hrest. reflexivity.
Qed.

Lemma Group_fuel_agree_from (fs1 fs2 : FileSystem) (fuel : nat) :
  forall files groups off,
    agree_from fs1 fs2 off ->
    GroupFilesByContentUsingMap_fuel fuel fs1 files groups off
    = GroupFilesByContentUsingMap_fuel fuel fs2 files groups off.
Proof.
  induction fuel as [|fuel IH]; intros files groups off Ha;
    destruct files as [|pivot [|p2 rest]];
    cbn [GroupFilesByContentUsingMap_fuel]; try reflexivity.
  set (rights := p2 :: rest).
  rewrite <- (@compare_batches_agree_from fs1 fs2 off pivot rights Ha).
  destruct (compare_batches (length rights) fs1 pivot rights 0 off []
              [pivot]) as [[[kg dg] log]|] eqn:Eb; [|reflexivity].
  rewrite (@recurse_key_groups_ext (GroupFilesByContentUsingMap_fuel fuel fs1)
             (GroupFilesByContentUsingMap_fuel fuel fs2) kg);
    [reflexivity|].
  intros k v Hin Hlen g. apply IH.
  destruct v as [|q v']; [simpl in Hlen; lia|].
  destruct (@batches_bucket fs1 pivot rights off kg dg log k (q :: v') q
              Eb Hin (or_introl eq_refl))
    as (_ & dp & _ & dc & _ & Hle & _).
  exact (agree_from_later Hle Ha).
Qed.

(** X6. The comparator reads no byte before the shared offset: on two
    volumes that open the same paths and hold the same bytes from
    [totalBytesRead] on, CompareFilesBufferedAdvanced returns the same
    buckets, the same duplicate group and the same messages. *)
Theorem Compare_ignores_prefix (fs1 fs2 : FileSystem) (off : Z) pivot rights
    kg dg :
  agree_from fs1 fs2 off ->
  CompareFilesBufferedAdvanced fs1 pivot rights off kg dg
  = CompareFilesBufferedAdvanced fs2 pivot rights off kg dg.
Proof. apply Compare_agree_from. Qed.

(** X7. The partitioner reads no byte before the shared offset either, at
    any depth of its recursion: on two volumes that agree from
    [totalBytesRead] on it emits the same groups and messages. *)
Theorem GroupFiles_ignores_prefix (fs1 fs2 : FileSystem) files groups off :
  agree_from fs1 fs2 off ->
  GroupFilesByContentUsingMap fs1 files groups off
  = GroupFilesByContentUsingMap fs2 files groups off.
Proof.
  intros Ha. unfold GroupFilesByContentUsingMap.
  apply Group_fuel_agree_from. exact Ha.
Qed.

(** *** The order of the files in a group *)

Lemma subseq_nil_l (A : Type) (l : list A) : subseq [] l.
Proof. induction l; constructor; assumption. Qed.

Lemma subseq_refl (A : Type) (l : list A) : subseq l l.
Proof. induction l; [constructor|apply subseq_take; assumption]. Qed.

Lemma subseq_trans (A : Type) (l1 l2 l3 : list A) :
  subseq l1 l2 -> subseq l2 l3 -> subseq l1 l3.
Proof.
  intros H12 H23. revert l1 H12.
  induction H23 as [|x l2 l3 H IH|x l2 l3 H IH]; intros l1 H12.
  - exact H12.
  - constructor. apply IH. exact H12.
  - inversion H12; subst; [apply subseq_skip|apply subseq_take];
      apply IH; assumption.
Qed.

Lemma subseq_app (A : Type) (l1 l2 l3 l4 : list A) :
  subseq l1 l2 -> subseq l3 l4 -> subseq (l1 ++ l3) (l2 ++ l4).
Proof.
  intros H12 H34. induction H12; simpl;
    [assumption|apply subseq_skip|apply subseq_take]; assumption.
Qed.

Lemma subseq_In (A : Type) (l1 l2 : list A) (x : A) :
  subseq l1 l2 -> In x l1 -> In x l2.
Proof.
  induction 1 as [|y l1 l2 H IH|y l1 l2 H IH]; simpl; intuition.
Qed.

Lemma subseq_NoDup (A : Type) (l1 l2 : list A) :
  subseq l1 l2 -> NoDup l2 -> NoDup l1.
Proof.
  induction 1 as [|y l1 l2 H IH|y l1 l2 H IH]; intros Hnd.
  - exact Hnd.
  - inversion Hnd; subst. auto.
  - inversion Hnd; subst. constructor; [|auto].
    intros Hin. apply (@subseq_In _ _ _ _ H) in Hin. contradiction.
Qed.

Lemma subseq_filter (A : Type) (f : A -> bool) (l : list A) :
  subseq (filter f l) l.
Proof.
  induction l as [|x l IH]; simpl; [constructor|].
  destruct (f x); [apply subseq_take|apply subseq_skip]; exact IH.
Qed.

Lemma subseq_skipn (A : Type) (n : nat) (l : list A) : subseq (skipn n l) l.
Proof.
  revert l. induction n as [|n IH]; intros [|x l]; simpl;
    try apply subseq_refl. constructor. apply IH.
Qed.

Lemma grows_refl (R : Z -> Prop) paths kg : grows_in_order R paths kg kg.
Proof.
  intros k v Hin. exists v, []. rewrite app_nil_r.
  split; [reflexivity|]. split; [auto|]. split; [apply subseq_nil_l|].
  congruence.
Qed.

Lemma grows_weaken (R R' : Z -> Prop) paths paths' kg kg' :
  (forall o, R o -> R' o) -> subseq paths paths' ->
  grows_in_order R paths kg kg' -> grows_in_order R' paths' kg kg'.
Proof.
  intros HR Hs H k v' Hin.
  destruct (H k v' Hin) as (v & add & E & Hv & Ha & Hr).
  exists v, add. split; [exact E|]. split; [exact Hv|].
  split; [exact (subseq_trans Ha Hs)|auto].
Qed.

(** Two runs one after the other, over lists one after the other. *)
Lemma grows_seq_app (R : Z -> Prop) paths1 paths2 kg kg1 kg2 :
  grows_in_order R paths1 kg kg1 -> grows_in_order R paths2 kg1 kg2 ->
  grows_in_order R (paths1 ++ paths2) kg kg2.
Proof.
  intros H1 H2 k v2 Hin.
  destruct (H2 k v2 Hin) as (v1 & add2 & E2 & [Hv1| ->] & Ha2 & Hr2).
  - destruct (H1 k v1 Hv1) as (v & add1 & E1 & Hv & Ha1 & Hr1).
    exists v, (add1 ++ add2)%list. subst. rewrite app_assoc.
    split; [reflexivity|]. split; [exact Hv|].
    split; [apply subseq_app; assumption|].
    intros Hne. destruct add1 as [|x add1]; [apply Hr2; exact Hne|].
    apply Hr1. discriminate.
  - exists [], add2. split; [exact E2|]. split; [auto|].
    split; [|exact Hr2].
    change add2 with ([] ++ add2)%list.
    apply subseq_app; [apply subseq_nil_l|exact Ha2].
Qed.

(** Two runs one after the other over the same files, the second over those
    the first left, under offsets the first cannot use. *)
Lemma grows_seq_excl (R1 R2 : Z -> Prop) paths1 paths2 kg kg1 kg2 :
  (forall o, R1 o -> R2 o -> False) -> subseq paths2 paths1 ->
  grows_in_order R1 paths1 kg kg1 -> grows_in_order R2 paths2 kg1 kg2 ->
  grows_in_order (fun o => R1 o \/ R2 o) paths1 kg kg2.
Proof.
  intros Hx Hs H1 H2 k v2 Hin.
  destruct (H2 k v2 Hin) as (v1 & add2 & E2 & [Hv1| ->] & Ha2 & Hr2).
  - destruct (H1 k v1 Hv1) as (v & add1 & E1 & Hv & Ha1 & Hr1).
    exists v, (add1 ++ add2)%list. subst. rewrite app_assoc.
    split; [reflexivity|]. split; [exact Hv|].
    destruct add1 as [|x add1].
    + split; [exact (subseq_trans Ha2 Hs)|]. simpl. auto.
    + destruct add2 as [|y add2].
      * rewrite app_nil_r. split; [exact Ha1|].
        intros _. left. apply Hr1. discriminate.
      * exfalso. apply (Hx (fst k)); [apply Hr1|apply Hr2]; discriminate.
  - exists [], add2. split; [exact E2|]. split; [auto|].
    split; [exact (subseq_trans Ha2 Hs)|auto].
Qed.

Lemma map_push_entries (kg : KeyGroups) (key : GroupKey) (p : path) :
  forall (k : GroupKey) v', In (k, v') (map_push kg key p) ->
    In (k, v') kg \/
    (k = key /\ exists v, v' = (v ++ [p])%list /\ (In (key, v) kg \/ v = [])).
Proof.
  induction kg as [|[k0 v0] rest IH]; intros k v'; cbn [map_push].
  - intros [E|[]]. inversion E; subst. right. split; [reflexivity|].
    exists []. auto.
  - destruct (key_lt key k0) eqn:E1; [|destruct (key_lt k0 key) eqn:E2].
    + intros [E|Hin]; [|left; exact Hin]. inversion E; subst.
      right. split; [reflexivity|]. exists []. auto.
    + intros [E|Hin]; [left; left; exact E|].
      destruct (IH k v' Hin) as [H|(-> & v & -> & [H| ->])].
      * left. right. exact H.
      * right. split; [reflexivity|]. exists v. split; [reflexivity|].
        left. right. exact H.
      * right. split; [reflexivity|]. exists []. auto.
    + pose proof (key_lt_total _ _ E1 E2) as ->.
      intros [E|Hin]; [|left; right; exact Hin]. inversion E; subst.
      right. split; [reflexivity|]. exists v0. split; [reflexivity|].
      left. left. reflexivity.
Qed.

Lemma grows_map_push (R : Z -> Prop) (kg : KeyGroups) key p :
  R (fst key) -> grows_in_order R [p] kg (map_push kg key p).
Proof.
  intros HR k v' Hin.
  destruct (map_push_entries _ _ _ _ _ Hin) as [H|(-> & v & -> & Hv)].
  - exists v', []. rewrite app_nil_r. split; [reflexivity|].
    split; [auto|]. split; [apply subseq_nil_l|congruence].
  - exists v, [p]. split; [reflexivity|]. split; [exact Hv|].
    split; [apply subseq_refl|auto].
Qed.

(** The offset of a key the comparator prunes under lies in the chunk. *)
Lemma compare_right_key (mb : list byte) (t : Z) (it : RightFileState) key :
  compare_right mb (Z.of_nat (length mb)) t it = Pruned key ->
  t <= fst key < t + Z.of_nat (length mb).
Proof.
  unfold compare_right.
  pose proof (read_gcount (stream it) (Z.of_nat (length mb))) as Hg.
  destruct (read (stream it) (Z.of_nat (length mb))) as [rb s].
  cbn [fst snd] in Hg. rewrite Hg, Nat2Z.id.
  destruct (Z.eqb_spec (Z.of_nat (length rb)) (Z.of_nat (length mb)))
    as [Hlen|]; cbn [negb]; [|discriminate].
  destruct (Z.eqb_spec (memcmp mb rb (length mb)) 0) as [|Hne]; cbn [negb];
    [discriminate|].
  intros E. inversion E; subst key. cbn [fst].
  destruct (@find_mismatch_spec (length mb) mb rb eq_refl ltac:(lia) Hne)
    as (i & -> & Hi & _).
  lia.
Qed.

Lemma compare_right_path (mb : list byte) (n t : Z) (it it' : RightFileState) :
  compare_right mb n t it = Kept it' -> filePath it' = filePath it.
Proof.
  unfold compare_right. destruct (read (stream it) n) as [rb s].
  destruct (negb (gcount s =? n)); [discriminate|].
  destruct (negb (memcmp mb rb (Z.to_nat n) =? 0)); [discriminate|].
  intros E. inversion E. reflexivity.
Qed.

Lemma compare_chunk_order (mb : list byte) (t : Z) : forall rs kg,
  grows_in_order (fun o => t <= o < t + Z.of_nat (length mb))
    (map filePath rs) kg
    (snd (compare_chunk mb (Z.of_nat (length mb)) t rs kg)) /\
  subseq (map filePath (fst (compare_chunk mb (Z.of_nat (length mb)) t rs kg)))
    (map filePath rs).
Proof.
  induction rs as [|it rest IH]; intros kg; cbn [compare_chunk map].
  - split; [apply grows_refl|constructor].
  - destruct (compare_right mb (Z.of_nat (length mb)) t it) as [|key|it']
      eqn:Ec.
    + destruct (IH kg) as [G S]. split.
      * eapply grows_weaken; [|apply subseq_skip, subseq_refl|exact G]. auto.
      * constructor. exact S.
    + destruct (IH (map_push kg key (filePath it))) as [G S]. split.
      * change (filePath it :: map filePath rest)
          with ([filePath it] ++ map filePath rest)%list.
        eapply grows_seq_app; [|exact G].
        apply grows_map_push. exact (compare_right_key _ _ _ Ec).
      * constructor. exact S.
    + destruct (IH kg) as [G S].
      destruct (compare_chunk mb (Z.of_nat (length mb)) t rest kg)
        as [rs' kg'].
      cbn [fst snd map] in *. split.
      * eapply grows_weaken; [|apply subseq_skip, subseq_refl|exact G]. auto.
      * rewrite (compare_right_path _ _ _ _ Ec). apply subseq_take. exact S.
Qed.

Lemma compare_loop_order (fuel : nat) : forall m rs t kg rs' kg',
  compare_loop fuel m rs t kg = Some (rs', kg') ->
  grows_in_order (fun o => t <= o) (map filePath rs) kg kg' /\
  subseq (map filePath rs') (map filePath rs).
Proof.
  induction fuel as [|fuel IH]; intros m rs t kg rs' kg' H;
    cbn [compare_loop] in H; [discriminate|].
  pose proof (read_gcount m BUFFER_SIZE) as Hg.
  destruct (read m BUFFER_SIZE) as [mb m1]. cbn [fst snd] in Hg.
  rewrite Hg in H.
  destruct (Z.leb_spec (Z.of_nat (length mb)) 0) as [|Hpos].
  { inversion H; subst. split; [apply grows_refl|apply subseq_refl]. }
  destruct (compare_chunk_order mb t rs kg) as [G1 S1].
  destruct (compare_chunk mb (Z.of_nat (length mb)) t rs kg) as [rs1 kg1].
  cbn [fst snd] in G1, S1.
  destruct rs1 as [|r1 rs1].
  - inversion H; subst. split; [|exact S1].
    eapply grows_weaken; [|apply subseq_refl|exact G1].
    intros o Ho. cbv beta in Ho. lia.
  - destruct (IH _ _ _ _ _ _ H) as [G2 S2]. split.
    + assert (Hx : forall o,
                (fun o => t <= o < t + Z.of_nat (length mb)) o ->
                (fun o => t + Z.of_nat (length mb) <= o) o -> False)
        by (intros o Ho1 Ho2; cbv beta in Ho1, Ho2; lia).
      eapply grows_weaken;
        [|apply subseq_refl|exact (grows_seq_excl Hx S1 G1 G2)].
      intros o [Ho|Ho]; cbv beta in Ho; lia.
    + exact (subseq_trans S2 S1).
Qed.

Lemma collect_identical_order : forall rs dg,
  exists new, collect_identical rs dg = (dg ++ new)%list /\
              subseq new (map filePath rs).
Proof.
  induction rs as [|r rest IH]; intros dg; cbn [collect_identical map].
  - exists []. rewrite app_nil_r. split; [reflexivity|constructor].
  - destruct (peek (stream r)) as [c s]. destruct (eof s).
    + destruct (IH (dg ++ [filePath r])%list) as (new & E & S).
      exists (filePath r :: new). rewrite E, <- app_assoc.
      split; [reflexivity|]. apply subseq_take. exact S.
    + destruct (IH dg) as (new & E & S). exists new.
      split; [exact E|]. apply subseq_skip. exact S.
Qed.

Lemma Compare_order (fs : FileSystem) pivot rights off kg dg kg' dg' log :
  CompareFilesBufferedAdvanced fs pivot rights off kg dg
    = Some (kg', dg', log) ->
  grows_in_order (fun _ => True) rights kg kg' /\
  exists new, dg' = (dg ++ new)%list /\ subseq new rights.
Proof.
  unfold CompareFilesBufferedAdvanced.
  destruct (fail (open fs pivot)).
  { intros H. inversion H; subst. split; [apply grows_refl|].
    exists []. rewrite app_nil_r. split; [reflexivity|apply subseq_nil_l]. }
  destruct (open_rights fs rights off) as [rs0 log0] eqn:Eo.
  destruct (open_rights_paths _ _ _ Eo) as (Hp & _).
  assert (S0 : subseq (map filePath rs0) rights)
    by (rewrite Hp; apply subseq_filter).
  destruct (compare_loop _ _ rs0 off kg) as [[rs1 kg1]|] eqn:El;
    [|discriminate].
  intros H. inversion H; subst. clear H.
  destruct (compare_loop_order _ _ _ _ _ El) as [G S]. split.
  - eapply grows_weaken; [|exact S0|exact G]. auto.
  - destruct (collect_identical_order rs1 dg) as (new & E & Sn).
    exists new. split; [exact E|].
    exact (subseq_trans Sn (subseq_trans S S0)).
Qed.

Lemma compare_batches_order (fs : FileSystem) pivot rights off (fuel : nat) :
  forall processed kg dg kg' dg' log,
    compare_batches fuel fs pivot rights processed off kg dg
      = Some (kg', dg', log) ->
    grows_in_order (fun _ => True) (skipn processed rights) kg kg' /\
    exists new, dg' = (dg ++ new)%list /\
                subseq new (skipn processed rights).
Proof.
  induction fuel as [|fuel IH]; intros processed kg dg kg' dg' log H;
    cbn [compare_batches] in H;
    destruct (processed <? length rights)%nat;
    try discriminate;
    try (inversion H; subst; split; [apply grows_refl|];
         exists []; rewrite app_nil_r;
         split; [reflexivity|apply subseq_nil_l]).
  set (b := Nat.min (length rights - processed) MAX_BATCH) in *.
  destruct (CompareFilesBufferedAdvanced fs pivot
              (firstn b (skipn processed rights)) off kg dg)
    as [[[kg1 dg1] log1]|] eqn:Ec; [|discriminate].
  destruct (compare_batches fuel fs pivot rights (processed + b) off kg1 dg1)
    as [[[kg2 dg2] log2]|] eqn:Eb; [|discriminate].
  inversion H; subst. clear H.
  destruct (Compare_order _ _ _ _ _ _ Ec) as (G1 & n1 & -> & S1).
  destruct (IH _ _ _ _ _ _ Eb) as (G2 & n2 & -> & S2).
  rewrite <- (batch_split rights processed b). split.
  - exact (grows_seq_app G1 G2).
  - exists (n1 ++ n2)%list. rewrite app_assoc. split; [reflexivity|].
    apply subseq_app; assumption.
Qed.

Lemma Group_fuel_order (fs : FileSystem) fuel files groups off groups' log :
  GroupFilesByContentUsingMap_fuel fuel fs files groups off
    = Some (groups', log) ->
  exists new, groups' = (groups ++ new)%list /\
              Forall (fun g => subseq g files) new.
Proof.
  apply (@Group_call_tree fs
           (fun files _ new => Forall (fun g => subseq g files) new)).
  - constructor.
  - intros pivot rights o kg dg lg subs Hb HF.
    destruct (compare_batches_order _ _ _ _ _ _ _ _ Hb)
      as (G & new & -> & Sn).
    cbn [skipn] in G, Sn.
    apply Forall_app. split.
    + destruct (1 <? length ([pivot] ++ new))%nat; constructor;
        [|constructor].
      simpl. apply subseq_take. exact Sn.
    + apply Forall_forall. intros g Hg. apply in_concat in Hg.
      destruct Hg as (sub & Hsub & Hg).
      destruct (@Forall2_In_r _ _ _ _ _ _ HF Hsub) as ([k v] & Hin & Hs).
      unfold sub_results in Hs. cbn [fst snd] in Hs.
      destruct (1 <? length v)%nat; [|subst sub; destruct Hg].
      rewrite Forall_forall in Hs. specialize (Hs g Hg).
      destruct (G k v Hin) as (v0 & add & -> & [[]| ->] & Sa & _).
      cbn [app] in Hs.
      apply subseq_skip. exact (subseq_trans Hs Sa).
Qed.

(** X11. Every group emitted by GroupFilesByContentUsingMap lists its files
    in the order of the input list: it is the input with some files left
    out.  So the first file of a group, the master of the deduplicator,
    is the one of the group that comes first in the input, and a group of
    an input without repeated paths has no repeated path. *)
Theorem GroupFiles_groups_in_input_order (fs : FileSystem) files groups off
    groups' log :
  GroupFilesByContentUsingMap fs files groups off = Some (groups', log) ->
  exists new, groups' = (groups ++ new)%list /\
    (forall g, In g new -> subseq g files) /\
    (NoDup files -> forall g, In g new -> NoDup g).
Proof.
  intros H. apply Group_fuel_order in H. destruct H as (new & E & HF).
  rewrite Forall_forall in HF. exists new. split; [exact E|].
  split; [exact HF|].
  intros Hnd g Hg. exact (subseq_NoDup (HF g Hg) Hnd).
Qed.

(** *** What the partitioner reports *)

Lemma reports_unopenable_incl (fs : FileSystem) files files' m :
  incl files files' ->
  reports_unopenable fs files m -> reports_unopenable fs files' m.
Proof. intros Hi (p & Hp & R). exists p. split; [apply Hi, Hp|exact R]. Qed.

Lemma recurse_key_groups_log (Q : list path -> Msg -> Prop)
    (recurse : list path -> list (list path) -> Z ->
               option (list (list path) * list Msg)) :
  (forall files groups off groups' log,
      recurse files groups off = Some (groups', log) ->
      Forall (Q files) log) ->
  forall (entries : KeyGroups) groups groups' log,
    recurse_key_groups recurse entries groups = Some (groups', log) ->
    Forall (fun m => exists (k : GroupKey) v, In (k, v) entries /\ Q v m) log.
Proof.
  intros Hrec. induction entries as [|[k v] rest IH];
    intros groups groups' log H; cbn [recurse_key_groups] in H.
  - inversion H; subst. constructor.
  - cbn [fst snd] in H.
    assert (Hrest : forall g g' l,
              recurse_key_groups recurse rest g = Some (g', l) ->
              Forall (fun m => exists (k0 : GroupKey) v0,
                        In (k0, v0) ((k, v) :: rest) /\ Q v0 m) l).
    { intros g g' l Hl. eapply Forall_impl; [|exact (IH _ _ _ Hl)].
      intros m (k0 & v0 & Hin & Hq). exists k0, v0.
      split; [right; exact Hin|exact Hq]. }
    destruct (1 <? length v)%nat; [|exact (Hrest _ _ _ H)].
    destruct (recurse v groups (fst k)) as [[g1 l1]|] eqn:E1; [|discriminate].
    destruct (recurse_key_groups recurse rest g1) as [[g2 l2]|] eqn:E2;
      [|discriminate].
    inversion H; subst. apply Forall_app. split; [|exact (Hrest _ _ _ E2)].
    eapply Forall_impl; [|exact (Hrec _ _ _ _ _ E1)].
    intros m Hq. exists k, v. split; [left; reflexivity|exact Hq].
Qed.

Lemma Group_fuel_log (fs : FileSystem) (fuel : nat) :
  forall files groups off groups' log,
    GroupFilesByContentUsingMap_fuel fuel fs files groups off
      = Some (groups', log) ->
    Forall (reports_unopenable fs files) log.
Proof.
  induction fuel as [|fuel IH]; intros files groups off groups' log H;
    destruct files as [|pivot [|p2 rest]];
    cbn [GroupFilesByContentUsingMap_fuel] in H;
    try discriminate; try (inversion H; subst; constructor).
  set (rights := p2 :: rest) in *.
  destruct (compare_batches (length rights) fs pivot rights 0 off []
              [pivot]) as [[[kg dg] log1]|] eqn:Eb; [|discriminate].
  destruct (recurse_key_groups (GroupFilesByContentUsingMap_fuel fuel fs) kg _)
    as [[g2 l2]|] eqn:Er; [|discriminate].
  inversion H; subst. clear H.
  apply Forall_app. split.
  - destruct (compare_batches_spec _ _ _ _ _ _ _ _ Eb) as [_ Hl].
    destruct (fs pivot) as [dp|] eqn:Hp.
    + subst log1. cbn [skipn]. apply Forall_forall. intros m Hm.
      apply in_map_iff in Hm. destruct Hm as (p & <- & Hin).
      apply filter_In in Hin. destruct Hin as [Hin Ho].
      exists p. split; [right; exact Hin|]. split; [|auto].
      unfold opens in Ho. destruct (fs p); [discriminate|reflexivity].
    + destruct Hl as (_ & _ & HF). eapply Forall_impl; [|exact HF].
      intros m <-. exists pivot. split; [left; reflexivity|]. auto.
  - pose proof (@recurse_key_groups_log (reports_unopenable fs)
                  (GroupFilesByContentUsingMap_fuel fuel fs) IH
                  kg _ _ _ Er) as HF.
    eapply Forall_impl; [|exact HF].
    intros m (k & v & Hin & Hq).
    apply (@reports_unopenable_incl fs v); [|exact Hq].
    intros q Hqv. right.
    exact (proj1 (@batches_bucket fs pivot rights off kg dg log1 k v q
                    Eb Hin Hqv)).
Qed.

(** X19. GroupFilesByContentUsingMap writes error messages only about files
    of its input that do not open: each message is the master or right
    open error of such a file, and when every input file opens it writes
    nothing. *)
Theorem GroupFiles_reports_only_unopenable (fs : FileSystem) files groups off
    groups' log :
  GroupFilesByContentUsingMap fs files groups off = Some (groups', log) ->
  (forall m, In m log -> reports_unopenable fs files m) /\
  ((forall p, In p files -> fs p <> None) -> log = []).
Proof.
  intros H. apply Group_fuel_log in H. rewrite Forall_forall in H.
  split; [exact H|]. intros Hopen.
  destruct log as [|m log']; [reflexivity|].
  destruct (H m (or_introl eq_refl)) as (p & Hp & Hn & _).
  destruct (Hopen p Hp Hn).
Qed.

(** *** The batches of the partitioner *)

Lemma batches_of_concat (fuel : nat) : forall l,
  (length l <= fuel)%nat -> concat (batches_of fuel l) = l.
Proof.
  induction fuel as [|fuel IH]; intros [|x l] Hl; cbn [batches_of concat];
    try reflexivity; [cbn [length] in Hl; lia|].
  rewrite IH; [apply firstn_skipn|].
  rewrite length_skipn. cbn [length] in *. unfold MAX_BATCH. lia.
Qed.

Lemma batches_of_sizes (fuel : nat) : forall l,
  Forall (fun b => (1 <= length b <= MAX_BATCH)%nat) (batches_of fuel l).
Proof.
  induction fuel as [|fuel IH]; intros [|x l]; cbn [batches_of];
    try constructor; [|apply IH].
  rewrite length_firstn. cbn [length]. unfold MAX_BATCH. lia.
Qed.

Lemma compare_batches_run (fs : FileSystem) pivot rights off (fuel : nat) :
  forall processed kg dg,
    (length rights - processed <= fuel)%nat ->
    compare_batches fuel fs pivot rights processed off kg dg
    = run_batches fs pivot (batches_of fuel (skipn processed rights)) off
        kg dg.
Proof.
  induction fuel as [|fuel IH]; intros processed kg dg Hf;
    cbn [compare_batches];
    destruct (Nat.ltb_spec processed (length rights)) as [Hlt|Hge];
    try lia.
  - reflexivity.
  - assert (Hlen : length (skipn processed rights)
                   = (length rights - processed)%nat)
      by apply length_skipn.
    destruct (skipn processed rights) as [|x l] eqn:Es;
      [simpl in Hlen; lia|].
    cbn [batches_of run_batches]. rewrite <- Es.
    set (b := Nat.min (length rights - processed) MAX_BATCH).
    assert (Hb : firstn b (skipn processed rights)
                 = firstn MAX_BATCH (skipn processed rights)).
    { unfold b. rewrite <- length_skipn.
      destruct (Nat.le_ge_cases (length (skipn processed rights)) MAX_BATCH)
        as [Hle|Hle].
      - rewrite Nat.min_l by exact Hle.
        rewrite !firstn_all2; auto.
      - rewrite Nat.min_r by exact Hle. reflexivity. }
    rewrite Hb.
    destruct (CompareFilesBufferedAdvanced fs pivot _ off kg dg)
      as [[[kg1 dg1] log1]|]; [|reflexivity].
    rewrite IH by (unfold b, MAX_BATCH; lia).
    replace (skipn (processed + b) rights)
      with (skipn MAX_BATCH (skipn processed rights)); [reflexivity|].
    rewrite skipn_skipn. unfold b.
    destruct (Nat.le_ge_cases (length rights - processed) MAX_BATCH)
      as [Hle|Hle].
    + rewrite Nat.min_l by exact Hle.
      rewrite !skipn_all2; [reflexivity|lia|lia].
    + rewrite Nat.min_r by exact Hle. f_equal. lia.
  - rewrite skipn_all2 by exact Hge. reflexivity.
Qed.

(** X20. The batching loop of GroupFilesByContentUsingMap calls the
    comparator once per batch of consecutive right files, every batch
    against the same pivot and from the same offset: the batches have
    between 1 and 256 files and together are the right files in their
    order, so no call opens more than 256 right files. *)
Theorem compare_batches_bounded (fs : FileSystem) pivot rights off kg dg :
  let batches := batches_of (length rights) rights in
  compare_batches (length rights) fs pivot rights 0 off kg dg
  = run_batches fs pivot batches off kg dg /\
  concat batches = rights /\
  Forall (fun b => (1 <= length b <= MAX_BATCH)%nat) batches.
Proof.
  intros batches. split; [|split].
  - rewrite compare_batches_run by lia. reflexivity.
  - apply batches_of_concat. lia.
  - apply batches_of_sizes.
Qed.

(** *** The deduplicator under the contract of the Win32 calls *)

Section DeduplicatorContract.

Context {World : Type} {api : Win32 World}.

(** What the Win32 calls promise: a successful delete changes the identity
    of no other name; a successful link gives the new name the identity of
    the existing file and changes the identity of no other name. *)
Hypothesis DeleteFileW_frame :
  forall (w w1 : World) p, DeleteFileW w p = inl w1 ->
    forall q, q <> p -> unique_id w1 q = unique_id w q.
Hypothesis CreateHardLinkW_links :
  forall (w w2 : World) newName existing,
    CreateHardLinkW w newName existing = inl w2 ->
    unique_id w2 newName = unique_id w existing /\
    forall q, q <> newName -> unique_id w2 q = unique_id w q.

Lemma dedup_member_contract (w : World) master masterId dupFile w' ev :
  dupFile <> master ->
  unique_id w master = Some masterId ->
  dedup_member w master masterId dupFile = (w', ev) ->
  (forall q, q <> dupFile -> unique_id w' q = unique_id w q) /\
  (unique_id w' dupFile = Some masterId \/
   reported_skipped master dupFile ev).
Proof.
  intros Hne Hm. unfold dedup_member, reported_skipped.
  pose proof (eq_refl (unique_id w dupFile)) as Hu. unfold unique_id at 2 in Hu.
  destruct (GetFileUniqueIdAndLinkCount w dupFile) as [r ev0].
  cbn [fst] in Hu.
  destruct r as [[dupId dupLinks]|].
  - destruct (Z.eqb_spec dupId masterId) as [->|Hid].
    + intros H. inversion H; subst. split; [auto|]. left. exact Hu.
    + destruct (DeleteFileW w dupFile) as [w1|delErr] eqn:Ed.
      * assert (Hf : forall q, q <> dupFile ->
                  unique_id w1 q = unique_id w q)
          by (intros q Hq; eapply DeleteFileW_frame; eauto).
        destruct (CreateHardLinkW w1 dupFile master) as [w2|hlErr] eqn:El.
        -- assert (Hl : unique_id w2 dupFile = unique_id w1 master /\
                        forall q, q <> dupFile ->
                          unique_id w2 q = unique_id w1 q)
             by (eapply CreateHardLinkW_links; eauto).
           destruct Hl as [Hl1 Hl2].
           intros H. inversion H; subst. split.
           ++ intros q Hq. rewrite Hl2, Hf; auto.
           ++ left. rewrite Hl1, Hf; auto.
        -- intros H. inversion H; subst. split; [auto|].
           right. right. right. exists hlErr.
           apply in_or_app. right. simpl. auto.
      * intros H. inversion H; subst. split; [auto|].
        right. right. left. exists delErr.
        apply in_or_app. right. simpl. auto.
  - intros H. inversion H; subst. split; [auto|].
    right. left. apply in_or_app. right. simpl. auto.
Qed.

Lemma reported_skipped_app master m ev1 ev2 :
  reported_skipped master m ev1 \/ reported_skipped master m ev2 ->
  reported_skipped master m (ev1 ++ ev2).
Proof.
  unfold reported_skipped.
  intros [[H|[[c H]|[c H]]]|[H|[[c H]|[c H]]]];
    [left|right; left; exists c|right; right; exists c
    |left|right; left; exists c|right; right; exists c];
    apply in_or_app; auto.
Qed.

Lemma dedup_members_contract (master : path) (masterId : Z) :
  forall members (w w' : World) ev,
    ~ In master members -> NoDup members ->
    unique_id w master = Some masterId ->
    dedup_members w master masterId members = (w', ev) ->
    (forall q, ~ In q members -> unique_id w' q = unique_id w q) /\
    forall m, In m members ->
      unique_id w' m = Some masterId \/ reported_skipped master m ev.
Proof.
  induction members as [|d rest IH]; intros w w' ev Hnot Hnd Hm H;
    cbn [dedup_members] in H.
  - inversion H; subst. split; [auto|]. intros m [].
  - destruct (dedup_member w master masterId d) as [w1 ev1] eqn:E1.
    destruct (dedup_members w1 master masterId rest) as [w2 ev2] eqn:E2.
    inversion H; subst w' ev; clear H.
    inversion Hnd as [|? ? Hd Hnd']; subst.
    assert (Hdm : d <> master) by (intros ->; apply Hnot; left; reflexivity).
    destruct (@dedup_member_contract w master masterId d w1 ev1 Hdm Hm E1)
      as [F1 P1].
    assert (Hm1 : unique_id w1 master = Some masterId)
      by (rewrite F1; auto).
    destruct (IH w1 w2 ev2) as [F2 P2]; auto.
    { intros Hin. apply Hnot. right. exact Hin. }
    split.
    + intros q Hq. rewrite F2, F1; auto.
      * intros ->. apply Hq. left. reflexivity.
      * intros Hin. apply Hq. right. exact Hin.
    + intros m [<-|Hin].
      * destruct P1 as [P1|P1].
        -- left. rewrite F2; auto.
        -- right. apply reported_skipped_app. auto.
      * destruct (P2 m Hin) as [?|?]; [left; assumption|].
        right. apply reported_skipped_app. auto.
Qed.

Lemma DeduplicateGroup_contract (w w' : World) (master : path)
    (members : list path) (ok : bool) (ev : list Event) :
  NoDup (master :: members) ->
  DeduplicateGroup w (master :: members) = (ok, w', ev) ->
  unique_id w' master = unique_id w master /\
  (forall q, ~ In q members -> unique_id w' q = unique_id w q) /\
  (ok = true ->
   forall m, In m members ->
     unique_id w' m = unique_id w master \/ reported_skipped master m ev).
Proof.
  intros Hnd. inversion Hnd as [|? ? Hnot Hnd']; subst.
  unfold DeduplicateGroup. destruct members as [|m0 rest].
  { intros H. inversion H; subst. repeat split; auto. intros _ m []. }
  pose proof (eq_refl (unique_id w master)) as Hu.
  unfold unique_id at 2 in Hu.
  destruct (GetFileUniqueIdAndLinkCount w master) as [r ev0].
  cbn [fst] in Hu.
  destruct r as [[masterId masterLinks]|].
  - destruct (dedup_members w master masterId (m0 :: rest)) as [w1 ev1] eqn:E.
    intros H. inversion H; subst ok w' ev; clear H.
    destruct (@dedup_members_contract master masterId (m0 :: rest) w w1 ev1
                Hnot Hnd' Hu E) as [F P].
    split; [apply F; exact Hnot|]. split; [exact F|].
    intros _ m Hin. rewrite Hu. destruct (P m Hin) as [?|Hr]; [auto|].
    right. apply reported_skipped_app. right.
    change (Say (OutMaster master) :: ev1)
      with ([Say (OutMaster master)] ++ ev1)%list.
    apply reported_skipped_app. auto.
  - intros H. inversion H; subst. split; [reflexivity|].
    split; [auto|discriminate].
Qed.

(** X8. On a volume whose delete and link calls keep their contract,
    DeduplicateGroup on a group without repeated paths leaves the identity
    of the master and of every path outside the group as it was, and when
    it returns true every other member either has the identity of the
    master or was reported as left aside (identity, delete or link
    failure). *)
Theorem DeduplicateGroup_links_members (w w' : World) (master : path)
    (members : list path) (ok : bool) (ev : list Event) :
  NoDup (master :: members) ->
  DeduplicateGroup w (master :: members) = (ok, w', ev) ->
  unique_id w' master = unique_id w master /\
  (forall q, ~ In q members -> unique_id w' q = unique_id w q) /\
  (ok = true ->
   forall m, In m members ->
     unique_id w' m = unique_id w master \/ reported_skipped master m ev).
Proof. apply DeduplicateGroup_contract. Qed.

End DeduplicatorContract.

(** *** The order of the Win32 calls *)

Section DeduplicatorProtocol.

Context {World : Type} {api : Win32 World}.

Lemma query_path_calls (w : World) (p : path) :
  filter is_path_call (snd (GetFileUniqueIdAndLinkCount w p))
  = [CallCreateFileW p].
Proof.
  unfold GetFileUniqueIdAndLinkCount.
  destruct (CreateFileW w p) as [h|err];
    [destruct (GetFileInformationByHandle w h) as [info|err]|]; reflexivity.
Qed.

Lemma dedup_member_calls (w : World) master masterId dupFile :
  member_calls master dupFile
    (filter is_path_call (snd (dedup_member w master masterId dupFile))).
Proof.
  unfold dedup_member, member_calls.
  pose proof (query_path_calls w dupFile) as Hq.
  destruct (GetFileUniqueIdAndLinkCount w dupFile) as [r ev0].
  cbn [snd] in Hq.
  destruct r as [[dupId dupLinks]|];
    [destruct (dupId =? masterId);
     [|destruct (DeleteFileW w dupFile) as [w1|delErr];
       [destruct (CreateHardLinkW w1 dupFile master) as [w2|hlErr]|]]|];
    cbn [snd]; rewrite filter_app, Hq; simpl; auto.
Qed.

Lemma dedup_members_calls (master : path) (masterId : Z) :
  forall members (w : World),
    exists blocks,
      filter is_path_call (snd (dedup_members w master masterId members))
      = concat blocks /\
      Forall2 (member_calls master) members blocks.
Proof.
  induction members as [|d rest IH]; intros w; cbn [dedup_members].
  - exists []. split; [reflexivity|constructor].
  - pose proof (dedup_member_calls w master masterId d) as Hd.
    destruct (dedup_member w master masterId d) as [w1 ev1].
    destruct (IH w1) as (blocks & E & HF).
    destruct (dedup_members w1 master masterId rest) as [w2 ev2].
    cbn [snd] in *.
    exists (filter is_path_call ev1 :: blocks). split.
    + rewrite filter_app, E. reflexivity.
    + constructor; assumption.
Qed.

(** X9. The Win32 calls of DeduplicateGroup that name a path follow one
    protocol: when it returns false it only queried the master; when it
    returns true it queried the master once and then, member by member in
    group order, queried the member, possibly deleted it, and possibly
    linked it to the master, in that order and never more. *)
Theorem DeduplicateGroup_call_protocol (w : World) (master m0 : path)
    (rest : list path) :
  (fst (fst (DeduplicateGroup w (master :: m0 :: rest))) = false ->
   filter is_path_call (snd (DeduplicateGroup w (master :: m0 :: rest)))
   = [CallCreateFileW master]) /\
  (fst (fst (DeduplicateGroup w (master :: m0 :: rest))) = true ->
   exists blocks,
     filter is_path_call (snd (DeduplicateGroup w (master :: m0 :: rest)))
     = CallCreateFileW master :: concat blocks /\
     Forall2 (member_calls master) (m0 :: rest) blocks).
Proof.
  unfold DeduplicateGroup.
  pose proof (query_path_calls w master) as Hq.
  destruct (GetFileUniqueIdAndLinkCount w master) as [r ev0].
  cbn [snd] in Hq.
  destruct r as [[masterId masterLinks]|].
  - destruct (dedup_members_calls master masterId (m0 :: rest) w)
      as (blocks & E & HF).
    destruct (dedup_members w master masterId (m0 :: rest)) as [w' ev'].
    cbn [fst snd] in *. split; [discriminate|]. intros _.
    exists blocks. split; [|exact HF].
    rewrite filter_app, Hq. simpl. rewrite E. reflexivity.
  - cbn [fst snd]. split; [|discriminate]. intros _.
    rewrite filter_app, Hq. reflexivity.
Qed.

End DeduplicatorProtocol.

(** *** The log of the deduplicator and the volume *)

Section Consolidation.

Context {World : Type} {api : Win32 World}.

Lemma consolidates_app (master : path) (w w1 w2 : World) s1 s2 :
  consolidates api master w s1 w1 -> consolidates api master w1 s2 w2 ->
  consolidates api master w (s1 ++ s2) w2.
Proof.
  induction 1; intros H2; simpl;
    [exact H2|eapply consolidates_relinked|eapply consolidates_lost]; eauto.
Qed.

Lemma log_matches_app master s1 s2 ev1 ev2 :
  log_matches master s1 ev1 -> log_matches master s2 ev2 ->
  log_matches master (s1 ++ s2) (ev1 ++ ev2).
Proof.
  intros [R1 L1] [R2 L2]. split; intros p; rewrite !in_app_iff.
  - rewrite R1, R2. reflexivity.
  - rewrite L1, L2. split.
    + intros [[c H]|[c H]]; exists c; apply in_or_app; auto.
    + intros [c H]. apply in_app_or in H. destruct H as [H|H]; eauto.
Qed.

Lemma log_matches_quiet master (ev : list Event) :
  (forall p m, ~ In (Say (OutReplaced p m)) ev) ->
  (forall p m c, ~ In (Say (ErrHardLink p m c)) ev) ->
  log_matches master [] ev.
Proof.
  intros HR HL. split; intros p; split.
  - intros [].
  - intros H. exact (HR _ _ H).
  - intros [].
  - intros [c H]. exact (HL _ _ _ H).
Qed.

Lemma query_quiet (w : World) (p : path) :
  (forall q m, ~ In (Say (OutReplaced q m))
                   (snd (GetFileUniqueIdAndLinkCount w p))) /\
  (forall q m c, ~ In (Say (ErrHardLink q m c))
                     (snd (GetFileUniqueIdAndLinkCount w p))).
Proof.
  unfold GetFileUniqueIdAndLinkCount.
  destruct (CreateFileW w p) as [h|e];
    [destruct (GetFileInformationByHandle w h) as [i|e]|];
    cbn [snd]; split; intros; simpl; intuition discriminate.
Qed.

Lemma dedup_member_consolidates (w : World) master masterId dupFile :
  exists steps,
    consolidates api master w steps
      (fst (dedup_member w master masterId dupFile)) /\
    subseq (map fst steps) [dupFile] /\
    log_matches master steps (snd (dedup_member w master masterId dupFile)).
Proof.
  unfold dedup_member.
  destruct (query_quiet w dupFile) as [QR QL].
  destruct (GetFileUniqueIdAndLinkCount w dupFile) as [r ev].
  cbn [snd] in QR, QL.
  assert (Hq : log_matches master [] ev)
    by (apply log_matches_quiet; assumption).
  assert (Hnone : forall m, (forall p x, Say m <> Say (OutReplaced p x)) ->
            (forall p x c, Say m <> Say (ErrHardLink p x c)) ->
            log_matches master [] (ev ++ [Say m])).
  { intros m H1 H2. change (@nil (path * Outcome)) with
      (@nil (path * Outcome) ++ [])%list.
    apply log_matches_app; [exact Hq|].
    apply log_matches_quiet.
    - intros p x [E|[]]. exact (H1 _ _ E).
    - intros p x c [E|[]]. exact (H2 _ _ _ E). }
  assert (Hstay : forall m, (forall p x, Say m <> Say (OutReplaced p x)) ->
            (forall p x c, Say m <> Say (ErrHardLink p x c)) ->
            exists steps, consolidates api master w steps w /\
              subseq (map fst steps) [dupFile] /\
              log_matches master steps (ev ++ [Say m])).
  { intros m H1 H2. exists []. split; [constructor|].
    split; [apply subseq_nil_l|apply Hnone; assumption]. }
  destruct r as [[dupId dupLinks]|];
    [|cbn [fst snd]; apply Hstay; discriminate].
  destruct (dupId =? masterId);
    [cbn [fst snd]; apply Hstay; discriminate|].
  destruct (DeleteFileW w dupFile) as [w1|delErr] eqn:Ed.
  - destruct (CreateHardLinkW w1 dupFile master) as [w2|hlErr] eqn:El;
      cbn [fst snd].
    + exists [(dupFile, Relinked)].
      split; [eapply consolidates_relinked; eauto; constructor|].
      split; [apply subseq_refl|].
      change [(dupFile, Relinked)]
        with ([] ++ [(dupFile, Relinked)])%list.
      apply log_matches_app; [exact Hq|].
      split; intros p; simpl; split.
      * intros [E|[]]. inversion E; subst. auto.
      * intros [E|[E|[E|[]]]]; try discriminate. inversion E; subst. auto.
      * intros [E|[]]. discriminate.
      * intros [c [E|[E|[E|[]]]]]; discriminate.
    + exists [(dupFile, Lost)].
      split; [eapply consolidates_lost; eauto; constructor|].
      split; [apply subseq_refl|].
      change [(dupFile, Lost)] with ([] ++ [(dupFile, Lost)])%list.
      apply log_matches_app; [exact Hq|].
      split; intros p; simpl; split.
      * intros [E|[]]. discriminate.
      * intros [E|[E|[E|[]]]]; discriminate.
      * intros [E|[]]. inversion E; subst. exists hlErr. auto.
      * intros [c [E|[E|[E|[]]]]]; try discriminate.
        inversion E; subst. auto.
  - cbn [fst snd]. exists []. split; [constructor|].
    split; [apply subseq_nil_l|].
    change (@nil (path * Outcome)) with
      (@nil (path * Outcome) ++ [])%list.
    apply log_matches_app; [exact Hq|].
    apply log_matches_quiet.
    + intros p x [E|[E|[]]]; discriminate.
    + intros p x c [E|[E|[]]]; discriminate.
Qed.

Lemma dedup_members_consolidates (master : path) (masterId : Z) :
  forall members (w : World),
  exists steps,
    consolidates api master w steps
      (fst (dedup_members w master masterId members)) /\
    subseq (map fst steps) members /\
    log_matches master steps (snd (dedup_members w master masterId members)).
Proof.
  induction members as [|d rest IH]; intros w; cbn [dedup_members].
  - exists []. split; [constructor|]. split; [constructor|].
    apply log_matches_quiet; intros; intros [].
  - destruct (dedup_member_consolidates w master masterId d)
      as (s1 & C1 & S1 & L1).
    destruct (dedup_member w master masterId d) as [w1 ev1].
    destruct (IH w1) as (s2 & C2 & S2 & L2).
    destruct (dedup_members w1 master masterId rest) as [w2 ev2].
    cbn [fst snd] in *. exists (s1 ++ s2)%list.
    split; [exact (consolidates_app C1 C2)|].
    split; [|exact (log_matches_app L1 L2)].
    rewrite map_app. change (d :: rest) with ([d] ++ rest)%list.
    apply subseq_app; assumption.
Qed.

(** X16. The log of DeduplicateGroup tells what it did to the volume: the
    volume afterwards is reached by deleting some members, in group order,
    each delete followed by a link to the master; the members whose link
    succeeded are those reported as replaced, and the members whose link
    failed, which stay deleted, are those reported with a hard-link
    error.  A failed link does not make the function return false. *)
Theorem DeduplicateGroup_log_matches_volume (w w' : World) (master : path)
    (members : list path) (ok : bool) (ev : list Event) :
  DeduplicateGroup w (master :: members) = (ok, w', ev) ->
  exists steps,
    consolidates api master w steps w' /\
    subseq (map fst steps) members /\
    log_matches master steps ev /\
    (steps <> [] -> ok = true).
Proof.
  unfold DeduplicateGroup. destruct members as [|m0 rest].
  { intros H. inversion H; subst. exists [].
    split; [constructor|]. split; [constructor|].
    split; [|congruence].
    apply log_matches_quiet.
    - intros p x [E|[]]. discriminate.
    - intros p x c [E|[]]. discriminate. }
  destruct (query_quiet w master) as [QR QL].
  destruct (GetFileUniqueIdAndLinkCount w master) as [r ev0].
  cbn [snd] in QR, QL.
  assert (Hq : log_matches master [] ev0)
    by (apply log_matches_quiet; assumption).
  destruct r as [[masterId masterLinks]|].
  - destruct (dedup_members_consolidates master masterId (m0 :: rest) w)
      as (steps & C & S & L).
    destruct (dedup_members w master masterId (m0 :: rest)) as [w1 ev1].
    cbn [fst snd] in *.
    intros H. inversion H; subst ok w' ev. clear H.
    exists steps. split; [exact C|]. split; [exact S|].
    split; [|reflexivity].
    change steps with ([] ++ ([] ++ steps))%list.
    apply log_matches_app; [exact Hq|].
    apply (@log_matches_app master [] steps [Say (OutMaster master)] ev1);
      [|exact L].
    apply log_matches_quiet.
    + intros p x [E|[]]. discriminate.
    + intros p x c [E|[]]. discriminate.
  - intros H. inversion H; subst ok w' ev. clear H.
    exists []. split; [constructor|]. split; [apply subseq_nil_l|].
    split; [|congruence].
    change (@nil (path * Outcome)) with
      (@nil (path * Outcome) ++ [])%list.
    apply log_matches_app; [exact Hq|].
    apply log_matches_quiet.
    + intros p x [E|[]]. discriminate.
    + intros p x c [E|[]]. discriminate.
Qed.

End Consolidation.

(** *** Handles *)

Section Handles.

Context {World : Type} {api : Win32 World}.













End Handles.

(** *** File index and file size *)

Lemma land_shiftl_low (h l : Z) :
  0 <= l < 2 ^ 32 -> Z.land (Z.shiftl h 32) l = 0.
Proof.
  intros Hl. apply Z.bits_inj'. intros n Hn.
  rewrite Z.land_spec, Z.bits_0.
  destruct (Z.lt_ge_cases n 32) as [Hlt|Hge].
  - rewrite Z.shiftl_spec_low by exact Hlt. reflexivity.
  - destruct (Z.eq_dec l 0) as [->|Hne].
    + rewrite Z.bits_0. apply andb_false_r.
    + rewrite (Z.bits_above_log2 l n); [apply andb_false_r|lia|].
      assert (Z.log2 l < 32) by (apply Z.log2_lt_pow2; lia). lia.
Qed.

(** [(static_cast<ULONGLONG>(high) << 32) | low] on two [DWORD]s. *)
Lemma compose64 (h l : Z) :
  is_dword h -> is_dword l ->
  Z.lor (Z.shiftl h 32 mod 2 ^ 64) l = h * 2 ^ 32 + l.
Proof.
  unfold is_dword. intros Hh Hl.
  assert (Hs : Z.shiftl h 32 = h * 2 ^ 32)
    by (apply Z.shiftl_mul_pow2; lia).
  rewrite Z.mod_small by (rewrite Hs; lia).
  pose proof (Z.add_lor_land (Z.shiftl h 32) l) as H.
  rewrite (land_shiftl_low h Hl) in H. lia.
Qed.

Lemma compose64_inj (h1 l1 h2 l2 : Z) :
  is_dword h1 -> is_dword l1 -> is_dword h2 -> is_dword l2 ->
  h1 * 2 ^ 32 + l1 = h2 * 2 ^ 32 + l2 -> h1 = h2 /\ l1 = l2.
Proof. unfold is_dword. lia. Qed.

Section Identity.

Context {World : Type} {api : Win32 World}.

Lemma query_result (w : World) (p : path) :
  fst (GetFileUniqueIdAndLinkCount w p)
  = option_map
      (fun fileInfo =>
         (Z.lor (Z.shiftl (nFileIndexHigh fileInfo) 32 mod 2 ^ 64)
                (nFileIndexLow fileInfo),
          nNumberOfLinks fileInfo))
      (file_information w p).
Proof.
  unfold GetFileUniqueIdAndLinkCount, file_information.
  destruct (CreateFileW w p) as [h|e]; [|reflexivity].
  destruct (GetFileInformationByHandle w h); reflexivity.
Qed.

(** X14. The unique id of GetFileUniqueIdAndLinkCount is the 64-bit file
    index: when the query succeeds the file opened and its information
    was read, the link count is the one read, and for index halves that
    are DWORDs the id is high * 2^32 + low, below 2^64.  So two successful
    queries return the same id exactly when both halves are the same. *)
Theorem GetFileUniqueId_is_file_index (w1 w2 : World) (p1 p2 : path)
    id1 links1 ev1 id2 links2 ev2 :
  GetFileUniqueIdAndLinkCount w1 p1 = (Some (id1, links1), ev1) ->
  GetFileUniqueIdAndLinkCount w2 p2 = (Some (id2, links2), ev2) ->
  exists info1 info2,
    file_information w1 p1 = Some info1 /\
    file_information w2 p2 = Some info2 /\
    links1 = nNumberOfLinks info1 /\ links2 = nNumberOfLinks info2 /\
    (is_dword (nFileIndexHigh info1) -> is_dword (nFileIndexLow info1) ->
     id1 = nFileIndexHigh info1 * 2 ^ 32 + nFileIndexLow info1 /\
     0 <= id1 < 2 ^ 64 /\
     (is_dword (nFileIndexHigh info2) -> is_dword (nFileIndexLow info2) ->
      (id1 = id2 <->
       nFileIndexHigh info1 = nFileIndexHigh info2 /\
       nFileIndexLow info1 = nFileIndexLow info2))).
Proof.
  intros E1 E2.
  apply (f_equal fst) in E1, E2. rewrite query_result in E1, E2.
  destruct (file_information w1 p1) as [i1|]; [|discriminate].
  destruct (file_information w2 p2) as [i2|]; [|discriminate].
  cbn [fst option_map] in E1, E2.
  assert (Hid1 : Z.lor (Z.shiftl (nFileIndexHigh i1) 32 mod 2 ^ 64)
                   (nFileIndexLow i1) = id1) by congruence.
  assert (Hid2 : Z.lor (Z.shiftl (nFileIndexHigh i2) 32 mod 2 ^ 64)
                   (nFileIndexLow i2) = id2) by congruence.
  assert (Hn1 : nNumberOfLinks i1 = links1) by congruence.
  assert (Hn2 : nNumberOfLinks i2 = links2) by congruence.
  clear E1 E2.
  exists i1, i2. do 2 (split; [reflexivity|]).
  split; [auto|]. split; [auto|].
  intros Hh1 Hl1. rewrite (compose64 Hh1 Hl1) in Hid1. subst id1.
  split; [reflexivity|]. split; [unfold is_dword in *; lia|].
  intros Hh2 Hl2. rewrite (compose64 Hh2 Hl2) in Hid2. subst id2. split.
  - apply compose64_inj; assumption.
  - intros [-> ->]. reflexivity.
Qed.

End Identity.

(** X15. The size EnumerateFilesAndGroupBySize computes from the find data
    is the 64-bit value high * 2^32 + low of its two DWORD halves, so the
    size bound rejects a file exactly when the high half is zero and the
    low half is below 16384: files of 4 GiB and more are never taken for
    small ones. *)
Theorem file_size_is_64_bit (findData : WIN32_FIND_DATA) :
  is_dword (nFileSizeHigh findData) -> is_dword (nFileSizeLow findData) ->
  file_size findData
  = nFileSizeHigh findData * 2 ^ 32 + nFileSizeLow findData /\
  ((file_size findData <? MIN_SIZE_TO_CONSIDER) = true <->
   nFileSizeHigh findData = 0 /\ nFileSizeLow findData < 16384).
Proof.
  intros Hh Hl. unfold file_size. rewrite (compose64 Hh Hl).
  split; [reflexivity|]. rewrite Z.ltb_lt.
  unfold MIN_SIZE_TO_CONSIDER, is_dword in *. lia.
Qed.

(** *** The program as a whole *)

Lemma report_groups_spec (size : Z) : forall duplicateGroups all,
  fst (report_groups size duplicateGroups all)
  = (all ++ filter (fun g => negb (length g <? 2)%nat) duplicateGroups)%list /\
  Forall (fun e => is_mutation e = false)
    (snd (report_groups size duplicateGroups all)).
Proof.
  induction duplicateGroups as [|g rest IH]; intros all;
    cbn [report_groups filter].
  - rewrite app_nil_r. split; [reflexivity|constructor].
  - destruct (length g <? 2)%nat; cbn [negb]; [apply IH|].
    destruct (IH (all ++ [g])%list) as [E F].
    destruct (report_groups size rest (all ++ [g])) as [all' ev].
    cbn [fst snd] in *. split.
    + rewrite E, <- app_assoc. reflexivity.
    + constructor; [reflexivity|]. apply Forall_app. split; [|exact F].
      apply Forall_forall. intros e He. apply in_map_iff in He.
      destruct He as (f & <- & _). reflexivity.
Qed.

Lemma grouped_from_later (fs : FileSystem) entry rest g :
  grouped_from fs rest g -> grouped_from fs (entry :: rest) g.
Proof.
  intros (L & (size & files & Hin & Hsub) & Hid).
  split; [exact L|]. split; [|exact Hid].
  exists size, files. split; [right; exact Hin|exact Hsub].
Qed.

Lemma group_all_spec (fs : FileSystem) : forall sizeGroups all all' ev,
  group_all fs sizeGroups all = Some (all', ev) ->
  Forall (fun e => is_mutation e = false) ev /\
  exists new, all' = (all ++ new)%list /\
              Forall (grouped_from fs sizeGroups) new.
Proof.
  induction sizeGroups as [|[size files] rest IH]; intros all all' ev H;
    cbn [group_all] in H.
  - inversion H; subst. split; [constructor|]. exists [].
    rewrite app_nil_r. split; [reflexivity|constructor].
  - cbn [fst snd] in H.
    destruct (length files <? 2)%nat.
    + destruct (IH _ _ _ H) as (F & new & E & G). split; [exact F|].
      exists new. split; [exact E|].
      eapply Forall_impl; [|exact G]. intros g. apply grouped_from_later.
    + unfold GroupFilesByContentUsingMap in H.
      destruct (GroupFilesByContentUsingMap_fuel (length files) fs files [] 0)
        as [[dgs log]|] eqn:Eg; [|discriminate].
      destruct (Group_fuel_identical _ _ _ _ _ Eg) as (n1 & E1 & Hid).
      destruct (Group_fuel_disjoint _ _ _ _ _ Eg) as (n2 & E2 & Hsub & _).
      cbn [app] in E1, E2. subst n1 n2.
      destruct (report_groups_spec size dgs all) as [Er Fr].
      destruct (report_groups size dgs all) as [all1 ev1].
      cbn [fst snd] in Er, Fr.
      destruct (group_all fs rest all1) as [[all2 ev2]|] eqn:Ea;
        [|discriminate].
      inversion H; subst all' ev. clear H.
      destruct (IH _ _ _ Ea) as (F & new & E & G). split.
      * apply Forall_app. split.
        { apply Forall_forall. intros e He. apply in_map_iff in He.
          destruct He as (m & <- & _). reflexivity. }
        apply Forall_app. split; assumption.
      * exists (filter (fun g => negb (length g <? 2)%nat) dgs ++ new)%list.
        split; [rewrite E, Er, app_assoc; reflexivity|].
        apply Forall_app. split.
        { apply Forall_forall. intros g Hg. apply filter_In in Hg.
          destruct Hg as [Hg Hl]. split.
          - destruct (Nat.ltb_spec (length g) 2); [discriminate|lia].
          - split.
            + exists size, files. split; [left; reflexivity|].
              intros p Hp. exact (Hsub g p Hg Hp).
            + intros p q Hp Hq. apply (Hid ltac:(intros ? ? ? ? _ _ _ _ i Hi; lia) g p q Hg Hp Hq). }
        eapply Forall_impl; [|exact G]. intros g. apply grouped_from_later.
Qed.

Section ProgramFacts.

Context {World : Type} {api : Win32 World}.

Lemma deduplicate_all_events : forall groups (w : World) e,
  In e (snd (deduplicate_all w groups)) -> is_mutation e = true ->
  exists w0 g, In g groups /\ In e (snd (DeduplicateGroup w0 g)).
Proof.
  induction groups as [|g rest IH]; intros w e; cbn [deduplicate_all].
  - intros [].
  - destruct (DeduplicateGroup w g) as [[ok w1] ev] eqn:Ed.
    assert (Hhere : In e ev ->
              exists w0 g0, In g0 (g :: rest) /\
                            In e (snd (DeduplicateGroup w0 g0))).
    { intros He. exists w, g. rewrite Ed. split; [left; reflexivity|exact He]. }
    destruct ok.
    + specialize (IH w1 e).
      destruct (deduplicate_all w1 rest) as [[code w2] ev'].
      cbn [snd] in *. intros [<-|He] Hm; [discriminate|].
      apply in_app_or in He. destruct He as [He|He]; [auto|].
      destruct (IH He Hm) as (w0 & g0 & Hin & H0).
      exists w0, g0. split; [right; exact Hin|exact H0].
    + cbn [snd]. intros [<-|He] Hm; [discriminate|].
      apply in_app_or in He. destruct He as [He|He]; [auto|].
      destruct He as [<-|He]; [discriminate|].
      apply in_map_iff in He. destruct He as (f & <- & _). discriminate.
Qed.

Lemma mutates_is_mutation (x : path) (e : Event) :
  mutates x e = true -> is_mutation e = true.
Proof. destruct e; simpl; auto; discriminate. Qed.

(** Whatever [wmain] deletes or links belongs to a group of at least two
    files of one size bucket and one content, and is no master. *)
Lemma wmain_mutation_origin (argc : Z) (sizeGroups : list (Z * list path))
    (fs : FileSystem) (w w' : World) code ev e x :
  wmain argc sizeGroups fs w = Some (code, w', ev) ->
  In e ev -> mutates x e = true ->
  exists master members,
    grouped_from fs sizeGroups (master :: members) /\ In x members /\
    forall n ex, e = CallCreateHardLinkW n ex -> ex = master.
Proof.
  unfold wmain. intros H He Hx.
  pose proof (mutates_is_mutation _ _ Hx) as Hm.
  destruct (argc <? 2).
  { inversion H; subst. destruct He as [<-|[]]. discriminate. }
  destruct (group_all fs sizeGroups []) as [[all ev0]|] eqn:Eg;
    [|discriminate].
  destruct (group_all_spec _ _ _ Eg) as (F0 & new & E & G).
  cbn [app] in E. subst new.
  pose proof (@deduplicate_all_events all w e) as Hd.
  destruct (deduplicate_all w all) as [[c w2] ev2]. cbn [snd] in Hd.
  inversion H; subst code w' ev. clear H.
  assert (He2 : In e ev2).
  { apply in_app_or in He. destruct He as [He|He]; [|exact He].
    exfalso.
    assert (He0 : In e ev0 \/ e = Say OutNoDuplicates).
    { destruct all; [apply in_app_or in He; destruct He as [?|[<-|[]]]|];
        auto. }
    destruct He0 as [He0| ->]; [|discriminate].
    rewrite Forall_forall in F0. rewrite (F0 e He0) in Hm. discriminate. }
  destruct (Hd He2 Hm) as (w0 & g & Hg & Hev).
  rewrite Forall_forall in G. pose proof (G g Hg) as Hgf.
  destruct g as [|master members].
  { destruct Hgf as [L _]. simpl in L. lia. }
  destruct (DeduplicateGroup_events _ _ _ _ Hev) as [Hmut Hlnk].
  exists master, members. split; [exact Hgf|]. split; [auto|].
  intros n ex ->. apply (Hlnk n ex eq_refl).
Qed.

(** X10. End to end: a path that [wmain] deletes or replaces by a link was
    found by the search of the root folder as a regular file of at least 16
    KiB that passes the extension filter, and the master it is linked to is
    another such file of the same listed size and the same content. *)
Theorem wmain_argv_relinks_listed_duplicates (argv : list string)
    (found : option (list DirEntry)) (fs : FileSystem) (w w' : World)
    code ev e x :
  wmain_argv argv found fs w = Some (code, w', ev) ->
  In e ev -> mutates x e = true ->
  let rootFolder := nth 1 argv ""%string in
  let extFilter :=
    if 3 <=? Z.of_nat (length argv) then nth 2 argv ""%string
    else ""%string in
  exists l fd master fdm d,
    found = Some l /\
    listed rootFolder l x fd /\ listed rootFolder l master fdm /\
    file_size fd = file_size fdm /\ MIN_SIZE_TO_CONSIDER <= file_size fd /\
    HasExtension x extFilter = true /\
    HasExtension master extFilter = true /\
    fs x = Some d /\ fs master = Some d /\
    forall n ex, e = CallCreateHardLinkW n ex -> n = x /\ ex = master.
Proof.
  intros H He Hx rootFolder extFilter. unfold wmain_argv in H.
  fold rootFolder extFilter in H.
  destruct (@wmain_mutation_origin _ _ _ _ _ _ _ _ _ H He Hx)
    as (master & members & (_ & (size & files & Hin & Hsub) & Hid) & Hxm & Hl).
  destruct (@Enumerate_post rootFolder found [] extFilter) as [_ M].
  assert (Hmem : forall p, In p (master :: members) ->
            exists l fd, found = Some l /\ listed rootFolder l p fd /\
              file_size fd = size /\ MIN_SIZE_TO_CONSIDER <= size /\
              HasExtension p extFilter = true).
  { intros p Hp.
    destruct (proj1 (M size p)) as [(v & [] & _)|Hr]; [|exact Hr].
    exists files. split; [exact Hin|apply Hsub; exact Hp]. }
  destruct (Hmem x (or_intror Hxm)) as (l & fd & El & Lx & Sx & Mx & Xx).
  destruct (Hmem master (or_introl eq_refl))
    as (l' & fdm & El' & Lm & Sm & _ & Xm).
  rewrite El in El'. inversion El'; subst l'.
  destruct (Hid x master (or_intror Hxm) (or_introl eq_refl))
    as (d & Dx & Dm).
  exists l, fd, master, fdm, d.
  repeat (split; [first [assumption | congruence | lia]|]).
  intros n ex ->. split; [|apply (Hl n ex eq_refl)].
  simpl in Hx. apply String.eqb_eq in Hx. congruence.
Qed.

End ProgramFacts.

(** *** The order of the search *)

Lemma files_of_entry_dir (directory : string) fd l :
  is_reparse_point fd = false -> is_dot_name (cFileName fd) = false ->
  is_directory fd = true ->
  files_of_entry directory (Entry fd (Some l))
  = flat_map (files_of_entry (directory ++ "\" ++ cFileName fd)) l.
Proof.
  intros H1 H2 H3. cbn [files_of_entry]. rewrite H1, H2, H3.
  reflexivity.
Qed.

Lemma push_all_app (l1 l2 : list (path * WIN32_FIND_DATA)) sg :
  push_all (l1 ++ l2) sg = push_all l2 (push_all l1 sg).
Proof. unfold push_all. apply fold_left_app. Qed.

Lemma enumerate_entry_pushes (extFilter : string) (e : DirEntry) :
  forall directory sg,
    enumerate_entry extFilter directory e sg
    = push_all (filter (accepted extFilter) (files_of_entry directory e)) sg.
Proof.
  induction e as [fd|fd l IH] using DirEntry_tree_ind; intros directory sg.
  - cbn [enumerate_entry files_of_entry].
    destruct (is_reparse_point fd); [reflexivity|].
    destruct (is_dot_name (cFileName fd)); [reflexivity|].
    destruct (is_directory fd); [reflexivity|].
    cbn [filter]. unfold accepted. cbn [fst snd].
    destruct (HasExtension _ extFilter); cbn [andb]; [|reflexivity].
    destruct (file_size fd <? MIN_SIZE_TO_CONSIDER); reflexivity.
  - destruct (is_reparse_point fd) eqn:H1;
      [cbn [enumerate_entry files_of_entry]; rewrite H1; reflexivity|].
    destruct (is_dot_name (cFileName fd)) eqn:H2;
      [cbn [enumerate_entry files_of_entry]; rewrite H1, H2; reflexivity|].
    destruct (is_directory fd) eqn:H3.
    + rewrite (@enumerate_entry_dir extFilter directory fd l sg H1 H2 H3),
        (@files_of_entry_dir directory fd l H1 H2 H3).
      set (sub := (directory ++ "\" ++ cFileName fd)%string).
      clearbody sub. revert sg.
      induction IH as [|e l He Hl IHl]; intros sg; simpl; [reflexivity|].
      rewrite filter_app, push_all_app, <- He. apply IHl.
    + cbn [enumerate_entry files_of_entry]. rewrite H1, H2, H3.
      cbn [filter]. unfold accepted. cbn [fst snd].
      destruct (HasExtension _ extFilter); cbn [andb]; [|reflexivity].
      destruct (file_size fd <? MIN_SIZE_TO_CONSIDER); reflexivity.
Qed.

Lemma Enumerate_pushes (directory : string) (found : option (list DirEntry))
    (sg : SizeGroups) (extFilter : string) :
  EnumerateFilesAndGroupBySize directory found sg extFilter
  = push_all (filter (accepted extFilter) (files_found directory found)) sg.
Proof.
  destruct found as [l|]; cbn [EnumerateFilesAndGroupBySize files_found];
    [|reflexivity].
  revert sg. induction l as [|e l IH]; intros sg; simpl; [reflexivity|].
  rewrite filter_app, push_all_app, <- enumerate_entry_pushes. apply IH.
Qed.

Lemma size_push_entries (sg : SizeGroups) (size : Z) (p : path) :
  forall k v', In (k, v') (size_push sg size p) ->
    In (k, v') sg \/
    (k = size /\ exists v, v' = (v ++ [p])%list /\ (In (k, v) sg \/ v = [])).
Proof.
  induction sg as [|[k0 v0] rest IH]; intros k v'; cbn [size_push].
  - intros [E|[]]. inversion E; subst. right. split; [reflexivity|].
    exists []. auto.
  - destruct (Z.ltb_spec size k0); [|destruct (Z.ltb_spec k0 size)].
    + intros [E|Hin]; [|left; exact Hin]. inversion E; subst.
      right. split; [reflexivity|]. exists []. auto.
    + intros [E|Hin]; [left; left; exact E|].
      destruct (IH k v' Hin) as [Hr|(-> & v & -> & [Hr| ->])].
      * left. right. exact Hr.
      * right. split; [reflexivity|]. exists v. split; [reflexivity|].
        left. right. exact Hr.
      * right. split; [reflexivity|]. exists []. auto.
    + assert (size = k0) by lia. subst k0.
      intros [E|Hin]; [|left; right; exact Hin]. inversion E; subst.
      right. split; [reflexivity|]. exists v0. split; [reflexivity|].
      left. left. reflexivity.
Qed.

Lemma subseq_snoc (A : Type) (l1 l2 : list A) (x : A) :
  subseq l1 l2 -> subseq l1 (l2 ++ [x]).
Proof.
  intros H. rewrite <- (app_nil_r l1).
  apply subseq_app; [exact H|apply subseq_nil_l].
Qed.

Lemma push_all_order (files : list (path * WIN32_FIND_DATA)) :
  forall size v, In (size, v) (push_all files []) ->
    subseq v (map fst files).
Proof.
  induction files as [|x files IH] using rev_ind; intros size v.
  - intros [].
  - rewrite push_all_app. cbn [push_all fold_left].
    fold (push_all files []). rewrite map_app. cbn [map].
    intros Hin.
    destruct (size_push_entries _ _ _ _ _ Hin)
      as [H|(-> & v0 & -> & [H| ->])].
    + apply subseq_snoc. exact (IH _ _ H).
    + apply subseq_app; [exact (IH _ _ H)|apply subseq_refl].
    + apply subseq_app; [apply subseq_nil_l|apply subseq_refl].
Qed.

Lemma Enumerate_bucket_order (directory : string)
    (found : option (list DirEntry)) (extFilter : string) size v :
  In (size, v) (EnumerateFilesAndGroupBySize directory found [] extFilter) ->
  subseq v (map fst (files_found directory found)).
Proof.
  rewrite Enumerate_pushes. intros Hin.
  apply push_all_order in Hin.
  eapply subseq_trans; [exact Hin|]. clear Hin.
  induction (files_found directory found) as [|x l IH]; simpl;
    [constructor|].
  destruct (accepted extFilter x); simpl;
    [apply subseq_take|apply subseq_skip]; exact IH.
Qed.

(** X12. The recursive search is a pipeline: EnumerateFilesAndGroupBySize
    pushes, one after the other and under their sizes, the regular files
    the search visits that pass the extension filter and the size bound, in
    the order of the search; so every bucket of a map that was empty lists
    its files in the order the search found them. *)
Theorem Enumerate_in_search_order (directory : string)
    (found : option (list DirEntry)) (extFilter : string) :
  (forall sizeGroups,
     EnumerateFilesAndGroupBySize directory found sizeGroups extFilter
     = push_all (filter (accepted extFilter) (files_found directory found))
         sizeGroups) /\
  forall size v,
    In (size, v) (EnumerateFilesAndGroupBySize directory found [] extFilter) ->
    subseq v (map fst (files_found directory found)).
Proof.
  split; [intros sg; apply Enumerate_pushes|].
  intros size v. apply Enumerate_bucket_order.
Qed.

Lemma subseq_pair (A : Type) (x y : A) (l : list A) :
  In y l -> subseq [x; y] (x :: l).
Proof.
  intros Hin. apply subseq_take.
  induction l as [|z l IH]; [destruct Hin|].
  destruct Hin as [->|Hin].
  - apply subseq_take, subseq_nil_l.
  - apply subseq_skip, IH, Hin.
Qed.

Lemma group_all_order (fs : FileSystem) : forall sizeGroups all all' ev,
  group_all fs sizeGroups all = Some (all', ev) ->
  exists new, all' = (all ++ new)%list /\
    Forall (fun g => exists size files,
              In (size, files) sizeGroups /\ subseq g files) new.
Proof.
  induction sizeGroups as [|[size files] rest IH]; intros all all' ev H;
    cbn [group_all] in H.
  - inversion H; subst. exists []. rewrite app_nil_r.
    split; [reflexivity|constructor].
  - cbn [fst snd] in H.
    assert (Hlater : forall new,
              Forall (fun g => exists size files,
                        In (size, files) rest /\ subseq g files) new ->
              Forall (fun g => exists size0 files0,
                        In (size0, files0) ((size, files) :: rest) /\
                        subseq g files0) new).
    { intros new. apply Forall_impl. intros g (s & f & Hin & Hs).
      exists s, f. split; [right; exact Hin|exact Hs]. }
    destruct (length files <? 2)%nat.
    + destruct (IH _ _ _ H) as (new & E & G). exists new. auto.
    + unfold GroupFilesByContentUsingMap in H.
      destruct (GroupFilesByContentUsingMap_fuel (length files) fs files [] 0)
        as [[dgs log]|] eqn:Eg; [|discriminate].
      destruct (Group_fuel_order _ _ _ _ _ Eg) as (n1 & E1 & Ho).
      cbn [app] in E1. subst n1.
      destruct (report_groups_spec size dgs all) as [Er _].
      destruct (report_groups size dgs all) as [all1 ev1].
      cbn [fst] in Er.
      destruct (group_all fs rest all1) as [[all2 ev2]|] eqn:Ea;
        [|discriminate].
      inversion H; subst all' ev. clear H.
      destruct (IH _ _ _ Ea) as (new & E & G).
      exists (filter (fun g => negb (length g <? 2)%nat) dgs ++ new)%list.
      split; [rewrite E, Er, app_assoc; reflexivity|].
      apply Forall_app. split; [|auto].
      apply Forall_forall. intros g Hg. apply filter_In in Hg.
      destruct Hg as [Hg _]. rewrite Forall_forall in Ho.
      exists size, files. split; [left; reflexivity|exact (Ho g Hg)].
Qed.

Section ProgramOrder.

Context {World : Type} {api : Win32 World}.

(** X13. The copy that [wmain] keeps is the one the search finds first: for
    every hard link it creates, the existing file it links to comes before
    the replaced name in the order in which the search of the root folder
    visits the regular files. *)
Theorem wmain_argv_keeps_first_found (argv : list string)
    (found : option (list DirEntry)) (fs : FileSystem) (w w' : World)
    code ev n ex :
  wmain_argv argv found fs w = Some (code, w', ev) ->
  In (CallCreateHardLinkW n ex) ev ->
  subseq [ex; n] (map fst (files_found (nth 1 argv ""%string) found)).
Proof.
  unfold wmain_argv, wmain. intros H He.
  set (rootFolder := nth 1 argv ""%string) in *.
  set (extFilter := if 3 <=? Z.of_nat (length argv)
                    then nth 2 argv ""%string else ""%string) in *.
  set (sg := EnumerateFilesAndGroupBySize rootFolder found [] extFilter) in *.
  destruct (Z.of_nat (length argv) <? 2).
  { inversion H; subst. destruct He as [E|[]]. discriminate. }
  destruct (group_all fs sg []) as [[all ev0]|] eqn:Eg; [|discriminate].
  destruct (group_all_spec _ _ _ Eg) as (F0 & _).
  destruct (group_all_order _ _ _ Eg) as (new & E & G).
  cbn [app] in E. subst new.
  pose proof (@deduplicate_all_events _ _ all w (CallCreateHardLinkW n ex))
    as Hd.
  destruct (deduplicate_all w all) as [[c w2] ev2]. cbn [snd] in Hd.
  inversion H; subst code w' ev. clear H.
  assert (He2 : In (CallCreateHardLinkW n ex) ev2).
  { apply in_app_or in He. destruct He as [He|He]; [|exact He].
    exfalso.
    assert (He0 : In (CallCreateHardLinkW n ex) ev0).
    { destruct all; [|exact He].
      apply in_app_or in He. destruct He as [?|[?|[]]];
        [assumption|discriminate]. }
    rewrite Forall_forall in F0. specialize (F0 _ He0). discriminate. }
  destruct (Hd He2 eq_refl) as (w0 & g & Hg & Hev).
  rewrite Forall_forall in G.
  destruct (G g Hg) as (size & files & Hin & Hs).
  destruct g as [|master members].
  { simpl in Hev. destruct Hev as [?|[]]. discriminate. }
  destruct (DeduplicateGroup_events _ _ _ _ Hev) as [_ Hlnk].
  destruct (Hlnk n ex eq_refl) as [Hn ->].
  pose proof (@Enumerate_bucket_order rootFolder found extFilter
                size files Hin) as Hb.
  exact (subseq_trans (subseq_trans (@subseq_pair _ master n members Hn) Hs)
           Hb).
Qed.

End ProgramOrder.

(** *** The report of the program *)

Lemma report_free_quiet (ev : list Event) :
  Forall (fun e => report_free e = true) ev ->
  header_indices ev = [] /\ filter is_star ev = [] /\
  ~ In (Say OutNoDuplicates) ev.
Proof.
  induction 1 as [|e ev He HF (IH1 & IH2 & IH3)];
    [repeat split; auto|].
  unfold header_indices in *. cbn [flat_map filter].
  rewrite IH1, IH2.
  destruct e as [[]| | | | |]; try discriminate; cbn [app is_star];
    (split; [reflexivity|]; split; [reflexivity|]);
    intros [E|Hin]; try discriminate; auto.
Qed.

Lemma report_free_says (A : Type) (f : A -> Msg) (l : list A) :
  (forall x, report_free (Say (f x)) = true) ->
  Forall (fun e => report_free e = true) (map (fun x => Say (f x)) l).
Proof.
  intros Hf. apply Forall_forall. intros e He. apply in_map_iff in He.
  destruct He as (x & <- & _). apply Hf.
Qed.

Lemma header_indices_cons (e : Event) (ev : list Event) :
  header_indices (e :: ev)
  = (match e with
     | Say (OutGroupHeader index _) => [index]
     | _ => []
     end ++ header_indices ev)%list.
Proof. reflexivity. Qed.

Lemma header_indices_app (ev1 ev2 : list Event) :
  header_indices (ev1 ++ ev2)
  = (header_indices ev1 ++ header_indices ev2)%list.
Proof. apply flat_map_app. Qed.

Lemma report_groups_numbers (size : Z) : forall duplicateGroups all,
  header_indices (snd (report_groups size duplicateGroups all))
  = seq (S (length all))
      (length (fst (report_groups size duplicateGroups all)) - length all) /\
  (length all <= length (fst (report_groups size duplicateGroups all)))%nat /\
  filter is_star (snd (report_groups size duplicateGroups all)) = [] /\
  ~ In (Say OutNoDuplicates) (snd (report_groups size duplicateGroups all)).
Proof.
  induction duplicateGroups as [|g rest IH]; intros all;
    cbn [report_groups].
  - cbn [fst snd]. rewrite Nat.sub_diag. repeat split; auto.
  - destruct (length g <? 2)%nat; [apply IH|].
    destruct (IH (all ++ [g])%list) as (I1 & I2 & I3 & I4).
    destruct (report_groups size rest (all ++ [g])) as [all' ev].
    cbn [fst snd] in *. rewrite length_app in *. cbn [length] in *.
    destruct (report_free_quiet
                (report_free_says OutGroupFile g (fun _ => eq_refl)))
      as (Q1 & Q2 & Q3).
    split; [|split; [lia|split]].
    + rewrite header_indices_cons, header_indices_app, Q1, I1. cbn [app].
      replace (length all' - length all)%nat
        with (S (length all' - (length all + 1)))%nat by lia.
      cbn [seq]. rewrite Nat.add_1_r. reflexivity.
    + cbn [filter is_star]. rewrite filter_app, Q2, I3. reflexivity.
    + intros [E|Hin]; [discriminate|].
      apply in_app_or in Hin. destruct Hin; auto.
Qed.

Lemma group_all_numbers (fs : FileSystem) : forall sizeGroups all all' ev,
  group_all fs sizeGroups all = Some (all', ev) ->
  header_indices ev = seq (S (length all)) (length all' - length all) /\
  (length all <= length all')%nat /\
  filter is_star ev = [] /\ ~ In (Say OutNoDuplicates) ev.
Proof.
  induction sizeGroups as [|entry rest IH]; intros all all' ev H;
    cbn [group_all] in H.
  - inversion H; subst. rewrite Nat.sub_diag. repeat split; auto.
  - destruct (length (snd entry) <? 2)%nat; [exact (IH _ _ _ H)|].
    unfold GroupFilesByContentUsingMap in H.
    destruct (GroupFilesByContentUsingMap_fuel _ fs (snd entry) [] 0)
      as [[dgs log]|] eqn:Eg; [|discriminate].
    pose proof (Group_fuel_log _ _ _ _ _ Eg) as Hlog.
    destruct (report_groups_numbers (fst entry) dgs all)
      as (R1 & R2 & R3 & R4).
    destruct (report_groups (fst entry) dgs all) as [all1 ev1].
    cbn [fst snd] in R1, R2, R3, R4.
    destruct (group_all fs rest all1) as [[all2 ev2]|] eqn:Ea;
      [|discriminate].
    inversion H; subst all' ev. clear H.
    destruct (IH _ _ _ Ea) as (I1 & I2 & I3 & I4).
    assert (Hfree : Forall (fun e => report_free e = true) (map Say log)).
    { apply Forall_forall. intros e He. apply in_map_iff in He.
      destruct He as (m & <- & Hm). rewrite Forall_forall in Hlog.
      destruct (Hlog m Hm) as (p & _ & _ & [-> | ->]); reflexivity. }
    destruct (report_free_quiet Hfree) as (Q1 & Q2 & Q3).
    split; [|split; [lia|split]].
    + rewrite !header_indices_app, Q1, R1, I1. cbn [app].
      replace (length all2 - length all)%nat
        with ((length all1 - length all)
              + (length all2 - length all1))%nat by lia.
      rewrite seq_app. f_equal. f_equal. lia.
    + rewrite !filter_app, Q2, R3, I3. reflexivity.
    + intros Hin. apply in_app_or in Hin. destruct Hin as [Hin|Hin]; auto.
      apply in_app_or in Hin. destruct Hin; auto.
Qed.

Section Report.

Context {World : Type} {api : Win32 World}.

Lemma query_report_free (w : World) (p : path) :
  Forall (fun e => report_free e = true)
    (snd (GetFileUniqueIdAndLinkCount w p)).
Proof.
  unfold GetFileUniqueIdAndLinkCount.
  destruct (CreateFileW w p) as [h|e];
    [destruct (GetFileInformationByHandle w h) as [i|e]|];
    cbn [snd]; repeat (constructor; try reflexivity).
Qed.

Lemma dedup_member_report_free (w : World) master masterId dupFile :
  Forall (fun e => report_free e = true)
    (snd (dedup_member w master masterId dupFile)).
Proof.
  unfold dedup_member.
  pose proof (query_report_free w dupFile) as Hq.
  destruct (GetFileUniqueIdAndLinkCount w dupFile) as [r ev].
  cbn [snd] in Hq.
  destruct r as [[dupId dupLinks]|];
    [destruct (dupId =? masterId);
     [|destruct (DeleteFileW w dupFile) as [w1|delErr];
       [destruct (CreateHardLinkW w1 dupFile master) as [w2|hlErr]|]]|];
    cbn [snd]; apply Forall_app; (split; [exact Hq|]);
    repeat (constructor; try reflexivity).
Qed.

Lemma dedup_members_report_free (master : path) (masterId : Z) :
  forall members (w : World),
    Forall (fun e => report_free e = true)
      (snd (dedup_members w master masterId members)).
Proof.
  induction members as [|d rest IH]; intros w; cbn [dedup_members];
    [constructor|].
  pose proof (dedup_member_report_free w master masterId d) as Hd.
  destruct (dedup_member w master masterId d) as [w1 ev1].
  pose proof (IH w1) as Hr.
  destruct (dedup_members w1 master masterId rest) as [w2 ev2].
  cbn [snd] in *. apply Forall_app. split; assumption.
Qed.

Lemma DeduplicateGroup_report_free (w : World) (group : list path) :
  Forall (fun e => report_free e = true) (snd (DeduplicateGroup w group)).
Proof.
  unfold DeduplicateGroup.
  destruct group as [|master [|m0 rest]];
    try (cbn [snd]; repeat (constructor; try reflexivity)).
  pose proof (query_report_free w master) as Hq.
  destruct (GetFileUniqueIdAndLinkCount w master) as [r ev0].
  cbn [snd] in Hq.
  destruct r as [[masterId masterLinks]|].
  - pose proof (dedup_members_report_free master masterId (m0 :: rest) w)
      as Hm.
    destruct (dedup_members w master masterId (m0 :: rest)) as [w1 ev1].
    cbn [snd] in *. apply Forall_app. split; [exact Hq|].
    constructor; [reflexivity|exact Hm].
  - cbn [snd]. apply Forall_app. split; [exact Hq|].
    repeat (constructor; try reflexivity).
Qed.

Lemma deduplicate_all_numbers : forall groups (w : World),
  header_indices (snd (deduplicate_all w groups)) = [] /\
  ~ In (Say OutNoDuplicates) (snd (deduplicate_all w groups)) /\
  (length (filter is_star (snd (deduplicate_all w groups)))
   <= length groups)%nat /\
  (fst (fst (deduplicate_all w groups)) = None ->
   length (filter is_star (snd (deduplicate_all w groups)))
   = length groups).
Proof.
  induction groups as [|g rest IH]; intros w; cbn [deduplicate_all].
  - cbn [fst snd]. repeat split; auto.
  - destruct (report_free_quiet (DeduplicateGroup_report_free w g))
      as (Q1 & Q2 & Q3).
    destruct (DeduplicateGroup w g) as [[ok w1] ev].
    cbn [snd] in Q1, Q2, Q3. destruct ok.
    + destruct (IH w1) as (I1 & I2 & I3 & I4).
      destruct (deduplicate_all w1 rest) as [[code w2] ev'].
      cbn [fst snd] in *.
      rewrite header_indices_cons, header_indices_app, Q1, I1.
      cbn [filter is_star]. rewrite filter_app, Q2. cbn [app length].
      split; [reflexivity|]. split; [|split; [lia|intros H; rewrite I4; auto]].
      intros [E|Hin]; [discriminate|].
      apply in_app_or in Hin. destruct Hin; auto.
    + cbn [fst snd].
      destruct (report_free_quiet
                  (report_free_says ErrGroupFile g (fun _ => eq_refl)))
        as (G1 & G2 & G3).
      rewrite header_indices_cons, header_indices_app, header_indices_cons,
        Q1, G1.
      cbn [filter is_star]. rewrite filter_app, Q2. cbn [filter is_star].
      rewrite G2. cbn [app length].
      split; [reflexivity|]. split; [|split; [lia|discriminate]].
      intros [E|Hin]; [discriminate|].
      apply in_app_or in Hin. destruct Hin as [Hin|[E|Hin]];
        [auto|discriminate|auto].
Qed.

(** X18. The report of [wmain]: the duplicate groups are numbered 1, 2,
    ..., n in the order they are written, across the size buckets and
    whatever groups are left out; [No duplicate files found.] is written
    exactly when no group is; and a [*] is written for each group handed to
    the deduplicator, for all n of them when the exit code is 0. *)
Theorem wmain_numbers_groups (argc : Z) (sizeGroups : list (Z * list path))
    (fs : FileSystem) (w w' : World) code ev :
  2 <= argc ->
  wmain argc sizeGroups fs w = Some (code, w', ev) ->
  exists n,
    header_indices ev = seq 1 n /\
    (In (Say OutNoDuplicates) ev <-> n = 0%nat) /\
    (length (filter is_star ev) <= n)%nat /\
    (code = 0 -> length (filter is_star ev) = n).
Proof.
  intros Hargc. unfold wmain.
  destruct (Z.ltb_spec argc 2); [lia|].
  destruct (group_all fs sizeGroups []) as [[all ev0]|] eqn:Eg;
    [|discriminate].
  destruct (group_all_numbers _ _ _ Eg) as (G1 & _ & G3 & G4).
  cbn [length] in G1. rewrite Nat.sub_0_r in G1.
  destruct (deduplicate_all_numbers all w) as (D1 & D2 & D3 & D4).
  pose proof (deduplicate_all_code all w) as Hcode.
  destruct (deduplicate_all w all) as [[c w2] ev2].
  cbn [fst snd] in D1, D2, D3, D4, Hcode.
  intros Hw. inversion Hw; subst code w' ev. clear Hw.
  exists (length all).
  assert (Hc : match c with Some c0 => c0 | None => 0 end = 0 -> c = None).
  { destruct Hcode as [->|[-> _]]; [reflexivity|discriminate]. }
  destruct all as [|g all'].
  - cbn [length] in *. rewrite !header_indices_app, !filter_app, G1, D1, G3.
    cbn. split; [reflexivity|]. split; [|split; [lia|intros _; lia]].
    split; [reflexivity|]. intros _. apply in_or_app. left.
    apply in_or_app. right. left. reflexivity.
  - rewrite header_indices_app, filter_app, G1, D1, G3, app_nil_r.
    cbn [app]. split; [reflexivity|]. split; [|split; [exact D3|auto]].
    split; [|discriminate]. intros Hin. exfalso.
    apply in_app_or in Hin. destruct Hin; auto.
Qed.

End Report.

(** *** The program consolidates the duplicates *)

Lemma NoDup_app_disjoint (A : Type) (l1 l2 : list A) :
  NoDup (l1 ++ l2) -> forall a, In a l1 -> ~ In a l2.
Proof.
  induction l1 as [|x l1 IH]; simpl; intros Hnd a; [tauto|].
  inversion Hnd as [|? ? Hx Hnd']; subst.
  intros [->|Ha] H2; [apply Hx, in_or_app; auto|exact (IH Hnd' a Ha H2)].
Qed.

Lemma pairwise_disjoint_filter (f : list path -> bool) (l : list (list path)) :
  pairwise_disjoint l -> pairwise_disjoint (filter f l).
Proof.
  unfold pairwise_disjoint. induction 1 as [|g l Hg Hl IH]; simpl;
    [constructor|].
  destruct (f g); [|exact IH]. constructor; [|exact IH].
  rewrite Forall_forall in *. intros g2 Hg2. apply filter_In in Hg2.
  apply Hg, Hg2.
Qed.

Lemma sound_group_later entry rest g :
  sound_group rest g -> sound_group (entry :: rest) g.
Proof.
  intros (L & N & size & files & Hin & Hi). split; [exact L|].
  split; [exact N|]. exists size, files. split; [right; exact Hin|exact Hi].
Qed.

Lemma group_all_groups (fs : FileSystem) : forall sizeGroups all all' ev,
  NoDup (concat (map snd sizeGroups)) ->
  group_all fs sizeGroups all = Some (all', ev) ->
  exists new, all' = (all ++ new)%list /\ pairwise_disjoint new /\
              Forall (sound_group sizeGroups) new.
Proof.
  induction sizeGroups as [|[size files] rest IH]; intros all all' ev Hnd H;
    cbn [group_all] in H.
  - inversion H; subst. exists []. rewrite app_nil_r.
    split; [reflexivity|]. split; constructor.
  - cbn [map concat fst snd] in Hnd, H.
    pose proof (NoDup_app_remove_l _ _ Hnd) as Hnd2.
    pose proof (NoDup_app_remove_r _ _ Hnd) as Hnd1.
    pose proof (NoDup_app_disjoint _ _ Hnd) as Hx.
    assert (Hlater : forall new, Forall (sound_group rest) new ->
              Forall (sound_group ((size, files) :: rest)) new).
    { intros new. apply Forall_impl. intros g. apply sound_group_later. }
    destruct (length files <? 2)%nat.
    + destruct (IH _ _ _ Hnd2 H) as (new & E & D & S). exists new. auto.
    + unfold GroupFilesByContentUsingMap in H.
      destruct (GroupFilesByContentUsingMap_fuel (length files) fs files [] 0)
        as [[dgs log]|] eqn:Eg; [|discriminate].
      destruct (Group_fuel_disjoint _ _ _ _ _ Eg) as (n1 & E1 & Hsub & Hd).
      destruct (Group_fuel_order _ _ _ _ _ Eg) as (n2 & E2 & Ho).
      cbn [app] in E1, E2. subst n1 n2. rewrite Forall_forall in Ho.
      destruct (report_groups_spec size dgs all) as [Er _].
      destruct (report_groups size dgs all) as [all1 ev1].
      cbn [fst] in Er.
      destruct (group_all fs rest all1) as [[all2 ev2]|] eqn:Ea;
        [|discriminate].
      inversion H; subst all' ev. clear H.
      destruct (IH _ _ _ Hnd2 Ea) as (new & E & D & S).
      exists (filter (fun g => negb (length g <? 2)%nat) dgs ++ new)%list.
      split; [rewrite E, Er, app_assoc; reflexivity|]. split.
      * apply pairwise_disjoint_app;
          [apply pairwise_disjoint_filter; exact Hd|exact D|].
        intros g1 g2 p Hg1 Hg2 Hp1 Hp2. apply filter_In in Hg1.
        rewrite Forall_forall in S.
        destruct (S g2 Hg2) as (_ & _ & s2 & f2 & Hin2 & Hi2).
        apply (Hx p); [exact (Hsub g1 p (proj1 Hg1) Hp1)|].
        apply in_concat. exists f2. split; [|apply Hi2, Hp2].
        apply in_map_iff. exists (s2, f2). auto.
      * apply Forall_app. split; [|auto].
        apply Forall_forall. intros g Hg. apply filter_In in Hg.
        destruct Hg as [Hg Hl]. split.
        { destruct (Nat.ltb_spec (length g) 2); [discriminate|lia]. }
        split; [exact (subseq_NoDup (Ho g Hg) Hnd1)|].
        exists size, files. split; [left; reflexivity|].
        intros p Hp. exact (Hsub g p Hg Hp).
Qed.

Lemma group_all_complete (fs : FileSystem) : forall sizeGroups all all' ev,
  group_all fs sizeGroups all = Some (all', ev) ->
  (forall g, In g all -> In g all') /\
  forall size files (n : nat) p q,
    In (size, files) sizeGroups -> all_of_size fs files n ->
    In p files -> In q files -> p <> q -> fs p = fs q ->
    exists g, In g all' /\ In p g /\ In q g.
Proof.
  induction sizeGroups as [|[size files] rest IH]; intros all all' ev H;
    cbn [group_all] in H.
  - inversion H; subst. split; [auto|]. intros ? ? ? ? ? [].
  - cbn [fst snd] in H.
    destruct (Nat.ltb_spec (length files) 2) as [Hshort|Hlong].
    + destruct (IH _ _ _ H) as [Hmono Hc]. split; [exact Hmono|].
      intros s f n p q [E|Hin]; [|exact (Hc s f n p q Hin)].
      inversion E; subst. intros _ Hp Hq Hne.
      pose proof (@two_distinct_length _ _ _ _ Hp Hq Hne). lia.
    + unfold GroupFilesByContentUsingMap in H.
      destruct (GroupFilesByContentUsingMap_fuel (length files) fs files [] 0)
        as [[dgs log]|] eqn:Eg; [|discriminate].
      destruct (Group_fuel_maximal _ _ _ _ _ Eg) as (n1 & E1 & Hmax).
      cbn [app] in E1. subst n1.
      destruct (report_groups_spec size dgs all) as [Er _].
      destruct (report_groups size dgs all) as [all1 ev1].
      cbn [fst] in Er.
      destruct (group_all fs rest all1) as [[all2 ev2]|] eqn:Ea;
        [|discriminate].
      inversion H; subst all' ev. clear H.
      destruct (IH _ _ _ Ea) as [Hmono Hc]. split.
      * intros g Hg. apply Hmono. rewrite Er. apply in_or_app. auto.
      * intros s f n p q [E|Hin]; [|exact (Hc s f n p q Hin)].
        inversion E; subst s f. intros Hall Hp Hq Hne Heq.
        destruct (Hall p Hp) as (d & Hd & _).
        destruct (Hmax (Z.le_refl 0) (ex_intro _ n Hall) p q d Hp Hq Hne Hd
                    ltac:(congruence)) as (g & Hg & Hpg & Hqg).
        exists g. split; [|auto]. apply Hmono. rewrite Er.
        apply in_or_app. right. apply filter_In. split; [exact Hg|].
        pose proof (@two_distinct_length _ _ _ _ Hpg Hqg Hne).
        destruct (Nat.ltb_spec (length g) 2); [lia|reflexivity].
Qed.

Lemma size_push_perm (sg : SizeGroups) (size : Z) (p : path) :
  Permutation (concat (map snd (size_push sg size p)))
              (p :: concat (map snd sg)).
Proof.
  induction sg as [|[k v] rest IH]; cbn [size_push]; [reflexivity|].
  destruct (size <? k); [reflexivity|].
  destruct (k <? size); cbn [map concat snd].
  - etransitivity; [apply Permutation_app_head; exact IH|].
    symmetry. apply Permutation_middle.
  - rewrite <- app_assoc. symmetry. apply Permutation_middle.
Qed.

Lemma push_all_perm (files : list (path * WIN32_FIND_DATA)) : forall sg,
  Permutation (concat (map snd (push_all files sg)))
              (concat (map snd sg) ++ map fst files).
Proof.
  induction files as [|x files IH]; intros sg; cbn [push_all fold_left map].
  - rewrite app_nil_r. reflexivity.
  - fold (push_all files (size_push sg (file_size (snd x)) (fst x))).
    etransitivity; [apply IH|].
    etransitivity;
      [apply Permutation_app_tail; apply size_push_perm|].
    cbn [app]. apply Permutation_middle.
Qed.

Lemma push_all_member (files : list (path * WIN32_FIND_DATA)) :
  forall sg k q,
    size_member (push_all files sg) k q <->
    size_member sg k q \/ exists fd, In (q, fd) files /\ file_size fd = k.
Proof.
  induction files as [|[p fd] files IH]; intros sg k q;
    cbn [push_all fold_left].
  - split; [auto|]. intros [?|(fd & [] & _)]. assumption.
  - fold (push_all files (size_push sg (file_size fd) p)).
    cbn [fst snd]. rewrite IH, size_push_member. split.
    + intros [[?|[-> ->]]|(fd' & Hin & E)]; auto.
      * right. exists fd. split; [left; reflexivity|reflexivity].
      * right. exists fd'. split; [right; exact Hin|exact E].
    + intros [?|(fd' & [E|Hin] & Ek)]; auto.
      * inversion E; subst. auto.
      * right. exists fd'. auto.
Qed.

Lemma sorted_sizes_entry (sg : SizeGroups) k v1 v2 :
  sorted_sizes sg -> In (k, v1) sg -> In (k, v2) sg -> v1 = v2.
Proof.
  unfold sorted_sizes. induction sg as [|[k0 v0] rest IH]; simpl; [tauto|].
  intros HS. inversion HS as [|? ? HS' HF]; subst.
  rewrite Forall_forall in HF.
  assert (Hlt : forall v, In (k, v) rest -> k0 < k).
  { intros v Hin. apply HF. apply in_map_iff. exists (k, v). auto. }
  intros [E1|H1] [E2|H2].
  - congruence.
  - inversion E1; subst. pose proof (Hlt _ H2). lia.
  - inversion E2; subst. pose proof (Hlt _ H1). lia.
  - exact (IH HS' H1 H2).
Qed.

Lemma subseq_map_filter (A B : Type) (f : A -> B) (g : A -> bool)
    (l : list A) :
  subseq (map f (filter g l)) (map f l).
Proof.
  induction l as [|x l IH]; simpl; [constructor|].
  destruct (g x); simpl; [apply subseq_take|apply subseq_skip]; exact IH.
Qed.

Section Consolidated.

Context {World : Type} {api : Win32 World}.

Hypothesis DeleteFileW_frame :
  forall (w w1 : World) p, DeleteFileW w p = inl w1 ->
    forall q, q <> p -> unique_id w1 q = unique_id w q.
Hypothesis CreateHardLinkW_links :
  forall (w w2 : World) newName existing,
    CreateHardLinkW w newName existing = inl w2 ->
    unique_id w2 newName = unique_id w existing /\
    forall q, q <> newName -> unique_id w2 q = unique_id w q.

Lemma DeduplicateGroup_ok_master (w w' : World) master m0 rest ev :
  DeduplicateGroup w (master :: m0 :: rest) = (true, w', ev) ->
  exists id, unique_id w master = Some id.
Proof.
  unfold DeduplicateGroup, unique_id.
  destruct (GetFileUniqueIdAndLinkCount w master) as [[[id links]|] ev0];
    cbn [fst option_map].
  - intros _. exists id. reflexivity.
  - discriminate.
Qed.

Lemma reported_skipped_star master m ev1 ev2 :
  reported_skipped master m ev1 \/ reported_skipped master m ev2 ->
  reported_skipped master m (Say OutStar :: ev1 ++ ev2).
Proof.
  intros H. change (Say OutStar :: ev1 ++ ev2)
    with ([Say OutStar] ++ (ev1 ++ ev2))%list.
  apply reported_skipped_app. right. apply reported_skipped_app. exact H.
Qed.

Lemma deduplicate_all_links : forall groups (w w' : World) ev,
  Forall (fun g => (2 <= length g)%nat /\ NoDup g) groups ->
  pairwise_disjoint groups ->
  deduplicate_all w groups = (None, w', ev) ->
  (forall q, (forall g, In g groups -> ~ In q g) ->
             unique_id w' q = unique_id w q) /\
  forall master members, In (master :: members) groups ->
    exists id, unique_id w' master = Some id /\
      forall m, In m members ->
        unique_id w' m = Some id \/ reported_skipped master m ev.
Proof.
  induction groups as [|g0 rest IH]; intros w w' ev HF HD H;
    cbn [deduplicate_all] in H.
  - inversion H; subst. split; [auto|]. intros ? ? [].
  - inversion HF as [|? ? [Hlen Hnd] HF']; subst.
    inversion HD as [|? ? Hdis HD']; subst.
    rewrite Forall_forall in Hdis.
    destruct g0 as [|master0 [|m0 members0]];
      try (simpl in Hlen; lia).
    set (g0 := master0 :: m0 :: members0) in *.
    destruct (DeduplicateGroup w g0) as [[ok w1] ev1] eqn:Ed.
    destruct ok; [|discriminate].
    destruct (deduplicate_all w1 rest) as [[code w2] ev2] eqn:Er.
    inversion H; subst code w' ev. clear H.
    destruct (IH _ _ _ HF' HD' Er) as [Fr Lr].
    destruct (@DeduplicateGroup_contract _ _ DeleteFileW_frame
                CreateHardLinkW_links w w1 master0 (m0 :: members0) true ev1
                Hnd Ed) as (Cm & Cf & Cl).
    destruct (DeduplicateGroup_ok_master _ _ _ _ Ed) as [id Hid].
    split.
    + intros q Hq. rewrite Fr.
      * apply Cf. intros Hin. apply (Hq g0); [left; reflexivity|].
        right. exact Hin.
      * intros g Hg. apply Hq. right. exact Hg.
    + intros master members [E|Hin].
      * inversion E; subst master members. exists id.
        assert (Hkeep : forall q, In q g0 -> unique_id w2 q = unique_id w1 q).
        { intros q Hq. apply Fr. intros g Hg Hqg.
          exact (Hdis g Hg q Hq Hqg). }
        split.
        { rewrite Hkeep by (left; reflexivity). congruence. }
        intros m Hm. destruct (Cl eq_refl m Hm) as [Hu|Hr].
        -- left. rewrite Hkeep by (right; exact Hm). congruence.
        -- right. apply reported_skipped_star. auto.
      * destruct (Lr master members Hin) as (id' & Hm & Hms).
        exists id'. split; [exact Hm|].
        intros m Hmem. destruct (Hms m Hmem) as [?|Hr]; [auto|].
        right. apply reported_skipped_star. auto.
Qed.

Lemma wmain_groups_linked (argc : Z) (sizeGroups : list (Z * list path))
    (fs : FileSystem) (w w' : World) ev :
  NoDup (concat (map snd sizeGroups)) ->
  wmain argc sizeGroups fs w = Some (0, w', ev) ->
  forall size files (n : nat) p q,
    In (size, files) sizeGroups -> all_of_size fs files n ->
    In p files -> In q files -> p <> q -> fs p = fs q ->
    (exists id, unique_id w' p = Some id /\ unique_id w' q = Some id) \/
    reported_aside p ev \/ reported_aside q ev.
Proof.
  intros Hnd. unfold wmain.
  destruct (argc <? 2); [discriminate|].
  destruct (group_all fs sizeGroups []) as [[all ev0]|] eqn:Eg;
    [|discriminate].
  destruct (@group_all_groups fs sizeGroups [] all ev0 Hnd Eg)
    as (new & E & Hdis & Hsound).
  cbn [app] in E. subst new.
  destruct (@group_all_complete fs sizeGroups [] all ev0 Eg)
    as [_ Hcomplete].
  pose proof (deduplicate_all_code all w) as Hcode.
  destruct (deduplicate_all w all) as [[c w2] ev2] eqn:Ed.
  cbn [fst] in Hcode.
  intros Hw. injection Hw as Hc Hw' Hev. subst w2.
  assert (c = None) by (destruct Hcode as [->|[-> _]];
                        [reflexivity|discriminate]).
  subst c. clear Hc Hcode.
  assert (HF : Forall (fun g => (2 <= length g)%nat /\ NoDup g) all).
  { eapply Forall_impl; [|exact Hsound].
    intros g (L & N & _). auto. }
  destruct (@deduplicate_all_links all w w' ev2 HF Hdis Ed) as [_ Hlinks].
  intros size files n p q Hin Hall Hp Hq Hne Heq.
  destruct (Hcomplete size files n p q Hin Hall Hp Hq Hne Heq)
    as (g & Hg & Hpg & Hqg).
  destruct g as [|master members]; [destruct Hpg|].
  destruct (Hlinks master members Hg) as (id & Hm & Hms).
  assert (Hrep : forall m, reported_skipped master m ev2 ->
            reported_aside m ev).
  { intros m Hr. exists master. rewrite <- Hev.
    apply reported_skipped_app. auto. }
  assert (Hcase : forall x, In x (master :: members) ->
            unique_id w' x = Some id \/ reported_aside x ev).
  { intros x [<-|Hx]; [auto|].
    destruct (Hms x Hx) as [?|Hr]; [auto|right; apply Hrep; exact Hr]. }
  destruct (Hcase p Hpg) as [Hup|?]; [|auto].
  destruct (Hcase q Hqg) as [Huq|?]; [|auto].
  left. exists id. auto.
Qed.

(** X21. [wmain] does what it is for.  On a volume whose delete and link
    calls keep their contract, with no path in two size buckets, a run
    that ends with exit code 0 leaves any two different files of a bucket
    whose files all open with one size, and whose contents are identical,
    with one and the same identity, unless a message said that one of the
    two was left aside. *)
Theorem wmain_consolidates_duplicates (argc : Z)
    (sizeGroups : list (Z * list path)) (fs : FileSystem) (w w' : World)
    ev size files (n : nat) p q :
  NoDup (concat (map snd sizeGroups)) ->
  wmain argc sizeGroups fs w = Some (0, w', ev) ->
  In (size, files) sizeGroups -> all_of_size fs files n ->
  In p files -> In q files -> p <> q -> fs p = fs q ->
  (exists id, unique_id w' p = Some id /\ unique_id w' q = Some id) \/
  reported_aside p ev \/ reported_aside q ev.
Proof.
  intros Hnd Hw Hin Hall Hp Hq Hne Heq.
  exact (@wmain_groups_linked argc sizeGroups fs w w' ev Hnd Hw size files n
           p q Hin Hall Hp Hq Hne Heq).
Qed.

(** X22. The same from the arguments of the program: when the files the
    search accepts have different paths and open with the sizes the search
    reported, a run of [wmain] that ends with exit code 0 leaves any two
    accepted files of identical content with one and the same identity,
    unless a message said that one of the two was left aside. *)
Theorem wmain_argv_consolidates_duplicates (argv : list string)
    (found : option (list DirEntry)) (fs : FileSystem) (w w' : World)
    ev p q fdp fdq :
  let rootFolder := nth 1 argv ""%string in
  let extFilter :=
    if 3 <=? Z.of_nat (length argv) then nth 2 argv ""%string
    else ""%string in
  let accepted_files :=
    filter (accepted extFilter) (files_found rootFolder found) in
  NoDup (map fst accepted_files) ->
  sizes_agree fs accepted_files ->
  wmain_argv argv found fs w = Some (0, w', ev) ->
  In (p, fdp) accepted_files -> In (q, fdq) accepted_files ->
  p <> q -> fs p = fs q ->
  (exists id, unique_id w' p = Some id /\ unique_id w' q = Some id) \/
  reported_aside p ev \/ reported_aside q ev.
Proof.
  intros rootFolder extFilter accepted_files Hnd Hsz Hw Hp Hq Hne Heq.
  unfold wmain_argv in Hw. fold rootFolder extFilter in Hw.
  rewrite Enumerate_pushes in Hw. fold accepted_files in Hw.
  set (sg := push_all accepted_files []) in *.
  assert (Hsorted : sorted_sizes sg).
  { unfold sg, accepted_files. rewrite <- Enumerate_pushes.
    apply (proj1 (Enumerate_post rootFolder found [] extFilter)).
    constructor. }
  assert (Hmem : forall x fd, In (x, fd) accepted_files ->
            size_member sg (file_size fd) x).
  { intros x fd Hx. apply push_all_member. right. exists fd. auto. }
  destruct (Hmem p fdp Hp) as (vp & Hvp & Hpv).
  destruct (Hmem q fdq Hq) as (vq & Hvq & Hqv).
  destruct (Hsz p fdp Hp) as (dp & Hdp & Hlp).
  destruct (Hsz q fdq Hq) as (dq & Hdq & Hlq).
  assert (Hsame : file_size fdq = file_size fdp) by congruence.
  rewrite Hsame in Hvq.
  pose proof (@sorted_sizes_entry sg (file_size fdp) vq vp Hsorted Hvq Hvp)
    as Hv.
  subst vq.
  assert (Hall : all_of_size fs vp (length dp)).
  { intros x Hx.
    destruct (proj1 (push_all_member accepted_files [] (file_size fdp) x))
      as [(v & [] & _)|(fd & Hfd & Efd)].
    { exists vp. auto. }
    destruct (Hsz x fd Hfd) as (d & Hd & Hl). exists d.
    split; [exact Hd|]. lia. }
  assert (HndS : NoDup (concat (map snd sg))).
  { apply (Permutation_NoDup (l := map fst accepted_files)); [|exact Hnd].
    symmetry. exact (push_all_perm accepted_files []). }
  exact (@wmain_groups_linked _ sg fs w w' ev HndS Hw (file_size fdp) vp
           (length dp) p q Hvp Hall Hpv Hqv Hne Heq).
Qed.

End Consolidated.

(* ================================================================== *)
(** * The statements on the example inputs *)

Local Open Scope string_scope.
Local Open Scope list_scope.
Local Open Scope Z_scope.

(** The comparator over two chunks: [b] survives, [c] diverges in the second
    chunk, [d] and [e] in the first, and [f], whose second read is short,
    is dropped although it differs from the pivot. *)
Example compare_two_chunks :
  CompareFilesBufferedAdvanced fs_long "a" ["b"; "c"; "d"; "e"; "f"] 0 []
    ["a"]
  = Some ([((4999, "b"%byte), ["d"; "e"]); ((5002, "w"%byte), ["c"])],
          ["a"; "b"], []).
Proof. vm_compute. reflexivity. Qed.

(** The partitioner resumes on the bucket of [d] and [e] at offset 4999;
    the bucket of [c] alone is dropped. *)
Example group_two_chunks :
  GroupFilesByContentUsingMap fs_long ["a"; "b"; "c"; "d"; "e"; "f"] [] 0
  = Some ([["a"; "b"]; ["d"; "e"]], []).
Proof. vm_compute. reflexivity. Qed.

(** More right files than one batch holds: 300 copies of the path [b]
    against the pivot [a] are compared in two calls and all recorded. *)
Example group_two_batches :
  GroupFilesByContentUsingMap fs_demo ("a" :: repeat "b" 300) [] 0
  = Some ([("a" :: repeat "b" 300)], []).
Proof. vm_compute. reflexivity. Qed.

(** The deduplicator on a volume where [b] is a separate file and [c] a
    link to the master: [b] is deleted and linked, [c] is skipped. *)
Example deduplicate_relinks :
  DeduplicateGroup (vol_demo [("a", 1); ("b", 2); ("c", 1)]) ["a"; "b"; "c"]
  = (true, vol_demo [("a", 1); ("c", 1); ("b", 1)],
     [CallCreateFileW "a"; CallGetFileInformationByHandle 1;
      CallCloseHandle 1; Say (OutMaster "a");
      CallCreateFileW "b"; CallGetFileInformationByHandle 2;
      CallCloseHandle 2; CallDeleteFileW "b"; CallCreateHardLinkW "b" "a";
      Say (OutReplaced "b" "a");
      CallCreateFileW "c"; CallGetFileInformationByHandle 1;
      CallCloseHandle 1; Say (OutSkipLinked "c")]).
Proof. vm_compute. reflexivity. Qed.

(** [wmain] on one size bucket of the example files, on a volume where
    every file is separate: exit code 0, [b] and [d] relinked. *)
Example wmain_runs :
  option_map (fun r => (fst (fst r)))
    (wmain 2 [(5, ["a"; "b"; "c"; "d"])] fs_demo
       (vol_demo [("a", 1); ("b", 2); ("c", 3); ("d", 4)]))
  = Some 0 /\
  option_map (fun r => dir_entries (snd (fst r)))
    (wmain 2 [(5, ["a"; "b"; "c"; "d"])] fs_demo
       (vol_demo [("a", 1); ("b", 2); ("c", 3); ("d", 4)]))
  = Some [("a", 1); ("c", 3); ("b", 1); ("d", 3)].
Proof. split; vm_compute; reflexivity. Qed.

(** C2 as stated fails: the pivot [a] has byte [l] at offset 2, and the
    right file [c] is stored under the key (2, [x]), with its own byte, and
    not under (2, [l]). *)
Lemma C2_counterexample :
  exists kg' dg' log,
    CompareFilesBufferedAdvanced fs_demo "a" ["c"%string] 0 [] ["a"%string]
      = Some (kg', dg', log) /\
    option_map (fun d => byte_at d 2) (fs_demo "a"%string) = Some (Some "l"%byte) /\
    bucket_member kg' (2, "x"%byte) "c"%string /\
    ~ bucket_member kg' (2, "l"%byte) "c"%string.
Proof.
  exists [((2, "x"%byte), ["c"%string])], ["a"%string], [].
  split; [vm_compute; reflexivity|]. split; [vm_compute; reflexivity|].
  split.
  - exists ["c"%string]. split; simpl; auto.
  - intros (v & [E|[]] & _). inversion E.
Qed.


(** The four files [a], [b], [c], [d] have the same size. *)
Lemma demo_equal_sizes : equal_sizes fs_demo ["a"; "b"; "c"; "d"].
Proof.
  intros p q dp dq Hp Hq. simpl in Hp, Hq.
  destruct Hp as [<-|[<-|[<-|[<-|[]]]]];
    destruct Hq as [<-|[<-|[<-|[<-|[]]]]];
    vm_compute; intros E1 E2;
    injection E1 as <-; injection E2 as <-; reflexivity.
Defined.

(** C1 on the example files: two groups, each of one content. *)
Lemma C1_witness :
  equal_sizes fs_demo ["a"; "b"; "c"; "d"]%string /\
  identical_prefix fs_demo ["a"; "b"; "c"; "d"]%string 0 /\
  GroupFilesByContentUsingMap fs_demo ["a"; "b"; "c"; "d"]%string [] 0
    = Some ([["a"; "b"]; ["c"; "d"]]%string, []) /\
  exists d, fs_demo "c"%string = Some d /\ fs_demo "d"%string = Some d.
Proof.
  assert (Hpre : identical_prefix fs_demo ["a"; "b"; "c"; "d"]%string 0)
    by (intros p q dp dq _ _ _ _ i Hi; lia).
  assert (Hrun : GroupFilesByContentUsingMap fs_demo
                   ["a"; "b"; "c"; "d"]%string [] 0
                 = Some ([["a"; "b"]; ["c"; "d"]]%string, []))
    by (vm_compute; reflexivity).
  split; [exact demo_equal_sizes|]. split; [exact Hpre|].
  split; [exact Hrun|].
  destruct (C1_emitted_groups_byte_identical fs_demo) as [H _].
  destruct (H _ _ _ _ _ demo_equal_sizes Hpre Hrun) as (new & E & Hn).
  simpl in E. subst new.
  apply (Hn ["c"; "d"]%string); simpl; auto.
Defined.

(** C2 (amended) on the pivot chunk of [a] against the right file [c]. *)
Lemma C2_witness :
  let mb := list_byte_of_string "hello" in
  let it := mkRight "c" (seekg (open fs_demo "c") 0) in
  let rb := fst (read (stream it) (Z.of_nat (length mb))) in
  length rb = length mb /\ rb <> mb /\
  compare_right mb (Z.of_nat (length mb)) 0 it = Pruned (2, "x"%byte) /\
  bucket_member (map_push [] (2, "x"%byte) "c") (2, "x"%byte) "c".
Proof.
  cbv zeta.
  set (mb := list_byte_of_string "hello").
  set (it := mkRight "c" (seekg (open fs_demo "c") 0)).
  assert (Hlen : length (fst (read (stream it) (Z.of_nat (length mb))))
                 = length mb) by (vm_compute; reflexivity).
  assert (Hne : fst (read (stream it) (Z.of_nat (length mb))) <> mb)
    by (vm_compute; discriminate).
  destruct (C2_mismatch_keyed_by_right_byte fs_demo) as [H _].
  destruct (H mb 0 it [] [] Hlen Hne)
    as (i & x & y & _ & _ & _ & _ & Hr & _ & Hm).
  split; [exact Hlen|]. split; [exact Hne|].
  assert (E : Pruned (0 + Z.of_nat i, y) = Pruned (2, "x"%byte))
    by (rewrite <- Hr; vm_compute; reflexivity).
  injection E as E1 E2. rewrite E1, E2 in Hm, Hr.
  split; [exact Hr|exact Hm].
Defined.


(** C4 on the example files: the bucket of [c] and [d] is smaller than the
    input and does not hold the pivot; the call returns. *)
Lemma C4_witness :
  compare_batches 3 fs_demo "a" ["b"; "c"; "d"] 0 0 [] ["a"]
    = Some ([((2, "x"%byte), ["c"; "d"])], ["a"; "b"], []) /\
  (length ["c"; "d"] < length ["a"; "b"; "c"; "d"])%nat /\
  ~ In "a" ["c"; "d"] /\
  (exists r, GroupFilesByContentUsingMap fs_demo ["a"; "b"; "c"; "d"] [] 0
             = Some r).
Proof.
  assert (Hb : compare_batches (length ["b"; "c"; "d"]) fs_demo "a"
                 ["b"; "c"; "d"] 0 0 [] ["a"]
               = Some ([((2, "x"%byte), ["c"; "d"])], ["a"; "b"], []))
    by (vm_compute; reflexivity).
  destruct (C4_partitioning_terminates fs_demo) as (Ht & _ & Hk).
  destruct (Hk _ _ _ _ _ _ (2, "x"%byte) ["c"; "d"] Hb (or_introl eq_refl))
    as (Hlen & Hnot & _).
  split; [exact Hb|]. split; [exact Hlen|]. split; [exact Hnot|].
  destruct (Ht ["a"; "b"; "c"; "d"] [] 0) as (r & Hr & _).
  exists r. exact Hr.
Defined.

(** C8 on the example files, [e] included: no group of one file, and a
    bucket of one file is skipped without a recursive call. *)
Lemma C8_witness :
  GroupFilesByContentUsingMap fs_demo ["a"; "b"; "c"; "d"; "e"] [] 0
    = Some ([["a"; "b"]; ["c"; "d"]], []) /\
  Forall (fun g => (2 <= length g)%nat) [["a"; "b"]; ["c"; "d"]] /\
  recurse_key_groups (fun _ _ _ => None) [((4, "o"%byte), ["e"])] []
    = Some ([], []).
Proof.
  assert (Hrun : GroupFilesByContentUsingMap fs_demo
                   ["a"; "b"; "c"; "d"; "e"] [] 0
                 = Some ([["a"; "b"]; ["c"; "d"]], []))
    by (vm_compute; reflexivity).
  destruct (C8_no_singleton_groups fs_demo) as (H1 & H2 & _).
  destruct (H1 _ _ _ _ _ Hrun) as (new & E & HF).
  simpl in E. subst new.
  split; [exact Hrun|]. split; [exact HF|].
  etransitivity; [apply H2; simpl; lia|reflexivity].
Defined.

(** C9 on the example files with a path [zz] that does not open, as a
    right file and as the pivot. *)
Lemma C9_witness :
  fs_demo "a" <> None /\ In "zz" ["b"; "zz"; "c"] /\ fs_demo "zz" = None /\
  CompareFilesBufferedAdvanced fs_demo "a" ["b"; "zz"; "c"] 0 [] ["a"]
    = Some ([((2, "x"%byte), ["c"])], ["a"; "b"], [ErrOpeningRight "zz"]) /\
  In (ErrOpeningRight "zz") [ErrOpeningRight "zz"] /\
  CompareFilesBufferedAdvanced fs_demo "a"
    (filter (opens fs_demo) ["b"; "zz"; "c"]) 0 [] ["a"]
    = Some ([((2, "x"%byte), ["c"])], ["a"; "b"], []) /\
  (exists log, GroupFilesByContentUsingMap fs_demo ["zz"; "a"; "b"] [] 0
               = Some ([], log)).
Proof.
  assert (Hp : fs_demo "a" <> None) by (vm_compute; discriminate).
  assert (Hin : In "zz" ["b"; "zz"; "c"]) by (simpl; auto).
  assert (Hz : fs_demo "zz" = None) by (vm_compute; reflexivity).
  assert (Hrun : CompareFilesBufferedAdvanced fs_demo "a" ["b"; "zz"; "c"]
                   0 [] ["a"]
                 = Some ([((2, "x"%byte), ["c"])], ["a"; "b"],
                         [ErrOpeningRight "zz"]))
    by (vm_compute; reflexivity).
  destruct (C9_unopenable_files_excluded fs_demo) as (H1 & _ & _ & H4).
  destruct (H1 _ _ _ _ _ _ _ _ "zz" Hp Hin Hz Hrun) as (Hlog & Hf & _).
  repeat (split; [assumption|]).
  destruct (H4 "zz" ["a"; "b"] [] 0 Hz) as (log & E & _).
  exists log. exact E.
Defined.

(** C10 on the example files, with the path [a] listed twice. *)
Lemma C10_witness :
  GroupFilesByContentUsingMap fs_demo ["a"; "c"; "b"; "d"; "a"] [] 0
    = Some ([["a"; "b"; "a"]; ["c"; "d"]], []) /\
  pairwise_disjoint [["a"; "b"; "a"]; ["c"; "d"]].
Proof.
  assert (Hrun : GroupFilesByContentUsingMap fs_demo
                   ["a"; "c"; "b"; "d"; "a"] [] 0
                 = Some ([["a"; "b"; "a"]; ["c"; "d"]], []))
    by (vm_compute; reflexivity).
  destruct (C10_emitted_groups_disjoint fs_demo) as [_ H].
  destruct (H _ _ _ _ _ Hrun) as (new & E & _ & HD).
  simpl in E. subst new. split; [exact Hrun|exact HD].
Defined.

(** A member that does not exist is skipped and the members after it are
    processed: [b] is missing, [c] is deleted and linked to the master. *)
Example deduplicate_skips_failed_member :
  DeduplicateGroup (vol_demo [("a", 1); ("c", 3)]) ["a"; "b"; "c"]
  = (true, vol_demo [("a", 1); ("c", 1)],
     [CallCreateFileW "a"; CallGetFileInformationByHandle 1;
      CallCloseHandle 1; Say (OutMaster "a");
      CallCreateFileW "b"; Say (ErrFailedOpen "b" 2); Say (ErrDupId "b");
      CallCreateFileW "c"; CallGetFileInformationByHandle 3;
      CallCloseHandle 3; CallDeleteFileW "c"; CallCreateHardLinkW "c" "a";
      Say (OutReplaced "c" "a")]).
Proof. vm_compute. reflexivity. Qed.

(** C5 on a volume where the master [a] does not exist, and on a volume
    where the master exists and the member [b] does not. *)
Lemma C5_witness :
  (fst (GetFileUniqueIdAndLinkCount (vol_demo [("b", 7)]) "a") = None /\
   DeduplicateGroup (vol_demo [("b", 7)]) ["a"; "b"]
     = (false, vol_demo [("b", 7)],
        [CallCreateFileW "a"; Say (ErrFailedOpen "a" 2);
         Say (ErrMasterId "a")]) /\
   fst (deduplicate_all (vol_demo [("b", 7)]) [["a"; "b"]; ["b"; "c"]])
     = (Some 1, vol_demo [("b", 7)])) /\
  (fst (GetFileUniqueIdAndLinkCount (vol_demo [("a", 1); ("c", 3)]) "b")
     = None /\
   dedup_members (vol_demo [("a", 1); ("c", 3)]) "a" 1 ["b"; "c"]
     = (fst (dedup_members (vol_demo [("a", 1); ("c", 3)]) "a" 1 ["c"]),
        (snd (GetFileUniqueIdAndLinkCount (vol_demo [("a", 1); ("c", 3)]) "b")
           ++ [Say (ErrDupId "b")])
          ++ snd (dedup_members (vol_demo [("a", 1); ("c", 3)]) "a" 1 ["c"])) /\
   fst (fst (DeduplicateGroup (vol_demo [("a", 1); ("c", 3)])
               ["a"; "b"; "c"])) = true /\
   In (CallCreateFileW "c")
     (snd (DeduplicateGroup (vol_demo [("a", 1); ("c", 3)])
             ["a"; "b"; "c"]))).
Proof.
  assert (Hm : fst (GetFileUniqueIdAndLinkCount (vol_demo [("b", 7)]) "a")
               = None) by (vm_compute; reflexivity).
  assert (Hb : fst (GetFileUniqueIdAndLinkCount
                      (vol_demo [("a", 1); ("c", 3)]) "b") = None)
    by (vm_compute; reflexivity).
  assert (Ha : fst (GetFileUniqueIdAndLinkCount
                      (vol_demo [("a", 1); ("c", 3)]) "a") = Some (1, 1))
    by (vm_compute; reflexivity).
  destruct (@C5_master_identity_failure_aborts Volume Volume_Win32)
    as (H & _ & _ & _ & _ & _ & Hloop & Hgroup).
  destruct (H (vol_demo [("b", 7)]) "a" "b" [] Hm) as (E & _ & Hall & _).
  destruct (Hloop (vol_demo [("a", 1); ("c", 3)]) "a" 1 "b" ["c"])
    as (Hskip & _).
  destruct (Hgroup (vol_demo [("a", 1); ("c", 3)]) "a" 1 1 "b" ["c"] Ha)
    as (Eg & Hq).
  split; [split; [exact Hm|]; split; [exact E|]; exact (Hall [["b"; "c"]])|].
  split; [exact Hb|]. split; [exact (Hskip Hb)|].
  split; [exact (f_equal (fun r => fst (fst r)) Eg)|].
  apply Hq. right. left. reflexivity.
Defined.

(** C6 on a volume where [b] is a separate file and [c] already a link to
    the master [a]. *)
Lemma C6_witness :
  ~ In "a" ["b"; "c"] /\
  In (CallDeleteFileW "b")
    (snd (DeduplicateGroup (vol_demo [("a", 1); ("b", 2); ("c", 1)])
            ["a"; "b"; "c"])) /\
  mutates "a" (CallDeleteFileW "b") = false /\
  fst (DeduplicateGroup (vol_demo [("a", 1); ("b", 2); ("c", 1)])
         ["a"; "b"; "c"])
    = (true, vol_demo [("a", 1); ("c", 1); ("b", 1)]).
Proof.
  assert (Hn : ~ In "a" ["b"; "c"])
    by (simpl; intros [H|[H|[]]]; discriminate H).
  assert (Hin : In (CallDeleteFileW "b")
                  (snd (DeduplicateGroup
                          (vol_demo [("a", 1); ("b", 2); ("c", 1)])
                          ["a"; "b"; "c"])))
    by (vm_compute; auto 10).
  destruct (@C6_master_never_target Volume Volume_Win32
              (vol_demo [("a", 1); ("b", 2); ("c", 1)]) "a" ["b"; "c"])
    as [_ H].
  split; [exact Hn|]. split; [exact Hin|].
  split; [exact (H Hn _ Hin)|]. vm_compute. reflexivity.
Defined.

(** C7 on a volume where [b] is already a link to the master [a]. *)
Lemma C7_witness :
  fst (GetFileUniqueIdAndLinkCount (vol_demo [("a", 1); ("b", 1)]) "a")
    = Some (1, 2) /\
  fst (GetFileUniqueIdAndLinkCount (vol_demo [("a", 1); ("b", 1)]) "b")
    = Some (1, 2) /\
  fst (DeduplicateGroup (vol_demo [("a", 1); ("b", 1)]) ["a"; "b"])
    = (true, vol_demo [("a", 1); ("b", 1)]) /\
  Forall (fun e => is_mutation e = false)
    (snd (DeduplicateGroup (vol_demo [("a", 1); ("b", 1)]) ["a"; "b"])).
Proof.
  assert (Ha : fst (GetFileUniqueIdAndLinkCount
                      (vol_demo [("a", 1); ("b", 1)]) "a") = Some (1, 2))
    by (vm_compute; reflexivity).
  assert (Hb : fst (GetFileUniqueIdAndLinkCount
                      (vol_demo [("a", 1); ("b", 1)]) "b") = Some (1, 2))
    by (vm_compute; reflexivity).
  destruct (@C7_already_linked_is_noop Volume Volume_Win32
              (vol_demo [("a", 1); ("b", 1)]) "a" 1) as [_ H].
  assert (Hall : forall m, In m ["b"] ->
            exists l, fst (GetFileUniqueIdAndLinkCount
                             (vol_demo [("a", 1); ("b", 1)]) m) = Some (1, l))
    by (intros m [<-|[]]; exists 2; exact Hb).
  destruct (H ["b"] 2 Ha Hall) as (ev & E & HF & _).
  split; [exact Ha|]. split; [exact Hb|].
  split; [exact (f_equal fst E)|].
  exact (eq_ind_r (fun l => Forall (fun e => is_mutation e = false) l) HF
           (f_equal snd E)).
Defined.

Example enumerate_tree :
  EnumerateFilesAndGroupBySize "root" (Some tree_demo) [(100, ["x"])] ".bin"
  = [(100, ["x"]);
     (20000, ["root\a.bin"; "root\b.BIN"; "root\sub\d.bin"])].
Proof. vm_compute. reflexivity. Qed.

Example wmain_argv_runs :
  wmain_argv ["dedup"; "root"; ".bin"] (Some tree_demo) fs_tree vol_tree
  = Some (0, vol_tree_after, events_tree) /\
  dir_entries vol_tree_after
  = [("root\a.bin", 1); ("root\sub\d.bin", 3); ("root\c.txt", 4);
     ("root\b.BIN", 1)] /\
  filter is_mutation events_tree
  = [CallDeleteFileW "root\b.BIN";
     CallCreateHardLinkW "root\b.BIN" "root\a.bin"].
Proof. repeat split; vm_compute; reflexivity. Qed.

Lemma HasExtension_spec_witness :
  HasExtension "root\Photo.JPG" ".jpg" = true.
Proof.
  apply (proj2 (HasExtension_spec "root\Photo.JPG" ".jpg")).
  - discriminate.
  - exists "root\photo", "jpg". simpl.
    repeat split; discriminate.
Defined.

Lemma EnumerateFilesAndGroupBySize_spec_witness :
  size_member
    (EnumerateFilesAndGroupBySize "root" (Some tree_demo) [] ".bin")
    20000 "root\sub\d.bin".
Proof.
  apply (proj2 (EnumerateFilesAndGroupBySize_spec "root" (Some tree_demo) []
                  ".bin")).
  right. exists tree_demo, (mkFindData 32 0 20000 "d.bin").
  split; [reflexivity|]. split.
  - apply (@listed_sub "root" tree_demo (mkFindData 16 0 0 "sub")
             [ Entry (mkFindData 16 0 0 ".") None;
               Entry (mkFindData 16 0 0 "..") None;
               Entry (mkFindData 32 0 20000 "d.bin") None ]);
      try reflexivity.
    + simpl. auto 10.
    + apply (@listed_file "root\sub" _ (mkFindData 32 0 20000 "d.bin") None);
        try reflexivity.
      simpl. auto.
  - split; [reflexivity|]. split; [unfold MIN_SIZE_TO_CONSIDER; lia|].
    reflexivity.
Defined.

Lemma demo_all_of_size :
  all_of_size fs_demo ["a"; "b"; "c"; "d"] 5.
Proof.
  intros p [<-|[<-|[<-|[<-|[]]]]]; eexists; split; reflexivity.
Qed.

Lemma Compare_routes_every_file_witness :
  @nil Msg = [] /\
  (forall k q, bucket_member [] k q ->
               bucket_member [((2, "x"%byte), ["c"; "d"])] k q) /\
  exists new, ["a"; "b"] = ["a"] ++ new /\
    forall q, In q ["b"; "c"; "d"] ->
      In q new \/
      exists k, bucket_member [((2, "x"%byte), ["c"; "d"])] k q.
Proof.
  apply (@Compare_routes_every_file fs_demo "a" ["b"; "c"; "d"] 0 [] ["a"]
           [((2, "x"%byte), ["c"; "d"])] ["a"; "b"] [] 5).
  - lia.
  - exact demo_all_of_size.
  - vm_compute. reflexivity.
Defined.

Lemma GroupFiles_groups_are_content_classes_witness :
  exists new, [["a"; "b"]; ["c"; "d"]] = [] ++ new /\
    forall p q, In p ["a"; "b"; "c"; "d"] -> In q ["a"; "b"; "c"; "d"] ->
      p <> q ->
      ((exists g, In g new /\ In p g /\ In q g) <-> fs_demo p = fs_demo q).
Proof.
  apply (@GroupFiles_groups_are_content_classes fs_demo
           ["a"; "b"; "c"; "d"] [] 0 [["a"; "b"]; ["c"; "d"]] [] 5).
  - lia.
  - exact demo_all_of_size.
  - intros p q dp dq _ _ _ _ i Hi. lia.
  - vm_compute. reflexivity.
Defined.

Lemma Names_unique_id (v : Names) (p : path) :
  unique_id v p
  = option_map
      (fun id => Z.lor (Z.shiftl (Z.shiftr id 32) 32 mod 2 ^ 64)
                       (Z.land id (2 ^ 32 - 1)))
      (find_entry v p).
Proof.
  unfold unique_id, GetFileUniqueIdAndLinkCount.
  cbn [CreateFileW GetFileInformationByHandle Names_Win32].
  destruct (find_entry v p); reflexivity.
Qed.

Lemma find_entry_remove (v : list (path * Z)) (p q : path) :
  q <> p -> find_entry (remove_entry v p) q = find_entry v q.
Proof.
  intros Hne. induction v as [|[n id] v IH]; [reflexivity|].
  cbn [remove_entry filter fst find_entry].
  destruct (String.eqb_spec p n) as [->|Hpn]; cbn [negb].
  - destruct (String.eqb_spec q n); [contradiction|]. exact IH.
  - cbn [find_entry]. destruct (String.eqb q n); [reflexivity|exact IH].
Qed.

Lemma find_entry_app (v : list (path * Z)) (n q : path) (id : Z) :
  find_entry (v ++ [(n, id)]) q
  = match find_entry v q with
    | Some i => Some i
    | None => if String.eqb q n then Some id else None
    end.
Proof.
  induction v as [|[m i] v IH]; cbn [app find_entry]; [reflexivity|].
  destruct (String.eqb q m); [reflexivity|exact IH].
Qed.

Lemma Names_DeleteFileW_frame (w w1 : Names) (p : path) :
  DeleteFileW w p = inl w1 ->
  forall q, q <> p -> unique_id w1 q = unique_id w q.
Proof.
  cbn [DeleteFileW Names_Win32].
  destruct (find_entry w p); [|discriminate].
  intros E q Hq. inversion E; subst w1.
  rewrite !Names_unique_id, find_entry_remove; auto.
Qed.

Lemma Names_CreateHardLinkW_links (w w2 : Names) (newName existing : path) :
  CreateHardLinkW w newName existing = inl w2 ->
  unique_id w2 newName = unique_id w existing /\
  forall q, q <> newName -> unique_id w2 q = unique_id w q.
Proof.
  cbn [CreateHardLinkW Names_Win32].
  destruct (find_entry w newName) eqn:En; [discriminate|].
  destruct (find_entry w existing) as [id|] eqn:Ee; [|discriminate].
  intros E. inversion E; subst w2. split.
  - rewrite !Names_unique_id, find_entry_app, En, Ee, String.eqb_refl.
    reflexivity.
  - intros q Hq. rewrite !Names_unique_id, find_entry_app.
    destruct (find_entry w q); [reflexivity|].
    destruct (String.eqb_spec q newName); [contradiction|reflexivity].
Qed.

Lemma DeduplicateGroup_links_members_witness :
  let w : Names := [("a", 1); ("b", 2); ("c", 1)] in
  let w' : Names := [("a", 1); ("c", 1); ("b", 1)] in
  let ev := snd (DeduplicateGroup w ["a"; "b"; "c"]) in
  unique_id w' "a" = unique_id w "a" /\
  (forall q, ~ In q ["b"; "c"] -> unique_id w' q = unique_id w q) /\
  (true = true ->
   forall m, In m ["b"; "c"] ->
     unique_id w' m = unique_id w "a" \/ reported_skipped "a" m ev).
Proof.
  intros w w' ev.
  apply (@DeduplicateGroup_links_members Names Names_Win32
           Names_DeleteFileW_frame Names_CreateHardLinkW_links
           w w' "a" ["b"; "c"] true ev).
  - repeat constructor; simpl; intuition discriminate.
  - vm_compute. reflexivity.
Defined.

Lemma DeduplicateGroup_call_protocol_witness :
  exists blocks,
    filter is_path_call
      (snd (DeduplicateGroup (vol_demo [("a", 1); ("b", 2); ("c", 1)])
              ["a"; "b"; "c"]))
    = CallCreateFileW "a" :: concat blocks /\
    Forall2 (member_calls "a") ["b"; "c"] blocks.
Proof.
  apply (proj2 (DeduplicateGroup_call_protocol
                  (vol_demo [("a", 1); ("b", 2); ("c", 1)]) "a" "b" ["c"])).
  vm_compute. reflexivity.
Defined.

Lemma scramble_first_agree (fs : FileSystem) :
  agree_from fs (scramble_first fs) 1.
Proof.
  intros p. unfold scramble_first.
  destruct (fs p) as [[|b d]|]; simpl; auto.
Qed.

Lemma Compare_ignores_prefix_witness :
  CompareFilesBufferedAdvanced fs_demo "a" ["b"; "c"; "d"; "e"] 1 [] ["a"]
  = CompareFilesBufferedAdvanced (scramble_first fs_demo) "a"
      ["b"; "c"; "d"; "e"] 1 [] ["a"].
Proof.
  apply (@Compare_ignores_prefix fs_demo (scramble_first fs_demo) 1).
  apply scramble_first_agree.
Defined.

Lemma GroupFiles_ignores_prefix_witness :
  GroupFilesByContentUsingMap fs_long ["a"; "b"; "c"; "d"; "e"; "f"] [] 1
  = GroupFilesByContentUsingMap (scramble_first fs_long)
      ["a"; "b"; "c"; "d"; "e"; "f"] [] 1.
Proof.
  apply (@GroupFiles_ignores_prefix fs_long (scramble_first fs_long)).
  apply scramble_first_agree.
Defined.

Lemma wmain_argv_relinks_listed_duplicates_witness :
  exists l fd master fdm d,
    Some tree_demo = Some l /\
    listed "root" l "root\b.BIN" fd /\ listed "root" l master fdm /\
    file_size fd = file_size fdm /\ MIN_SIZE_TO_CONSIDER <= file_size fd /\
    HasExtension "root\b.BIN" ".bin" = true /\
    HasExtension master ".bin" = true /\
    fs_tree "root\b.BIN" = Some d /\ fs_tree master = Some d /\
    forall n ex, CallCreateHardLinkW "root\b.BIN" "root\a.bin"
                 = CallCreateHardLinkW n ex ->
      n = "root\b.BIN" /\ ex = master.
Proof.
  apply (@wmain_argv_relinks_listed_duplicates Volume Volume_Win32
           ["dedup"; "root"; ".bin"] (Some tree_demo) fs_tree vol_tree
           vol_tree_after 0 events_tree
           (CallCreateHardLinkW "root\b.BIN" "root\a.bin") "root\b.BIN").
  - vm_compute. reflexivity.
  - vm_compute. tauto.
  - reflexivity.
Defined.

Example deduplicate_without_links :
  DeduplicateGroup vol_nolinks ["a"; "b"; "c"]
  = (true, mkVolume [("a", 1)] [] false,
     [CallCreateFileW "a"; CallGetFileInformationByHandle 1;
      CallCloseHandle 1; Say (OutMaster "a");
      CallCreateFileW "b"; CallGetFileInformationByHandle 2;
      CallCloseHandle 2; CallDeleteFileW "b"; CallCreateHardLinkW "b" "a";
      Say (ErrHardLink "b" "a" 1);
      CallCreateFileW "c"; CallGetFileInformationByHandle 3;
      CallCloseHandle 3; CallDeleteFileW "c"; CallCreateHardLinkW "c" "a";
      Say (ErrHardLink "c" "a" 1)]).
Proof. vm_compute. reflexivity. Qed.

Lemma GroupFiles_groups_in_input_order_witness :
  exists new, [["a"; "b"]; ["d"; "e"]] = [] ++ new /\
    (forall g, In g new -> subseq g ["a"; "b"; "c"; "d"; "e"; "f"]) /\
    (NoDup ["a"; "b"; "c"; "d"; "e"; "f"] ->
     forall g, In g new -> NoDup g).
Proof.
  apply (@GroupFiles_groups_in_input_order fs_long
           ["a"; "b"; "c"; "d"; "e"; "f"] [] 0 [["a"; "b"]; ["d"; "e"]] []).
  vm_compute. reflexivity.
Defined.

Lemma Enumerate_in_search_order_witness :
  subseq ["root\a.bin"; "root\b.BIN"; "root\sub\d.bin"]
    (map fst (files_found "root" (Some tree_demo))).
Proof.
  apply (proj2 (Enumerate_in_search_order "root" (Some tree_demo) ".bin")
           20000).
  vm_compute. auto.
Defined.

Lemma wmain_argv_keeps_first_found_witness :
  subseq ["root\a.bin"; "root\b.BIN"]
    (map fst (files_found (nth 1 ["dedup"; "root"; ".bin"] "")
                (Some tree_demo))).
Proof.
  apply (@wmain_argv_keeps_first_found Volume Volume_Win32
           ["dedup"; "root"; ".bin"] (Some tree_demo) fs_tree vol_tree
           vol_tree_after 0 events_tree).
  - vm_compute. reflexivity.
  - vm_compute. tauto.
Defined.

Lemma GetFileUniqueId_is_file_index_witness :
  let v := vol_demo [("a", 2 ^ 32 + 5); ("b", 2 ^ 32 + 5); ("c", 7)] in
  exists info1 info2,
    file_information v "a" = Some info1 /\
    file_information v "c" = Some info2 /\
    2 = nNumberOfLinks info1 /\ 1 = nNumberOfLinks info2 /\
    (is_dword (nFileIndexHigh info1) -> is_dword (nFileIndexLow info1) ->
     2 ^ 32 + 5 = nFileIndexHigh info1 * 2 ^ 32 + nFileIndexLow info1 /\
     0 <= 2 ^ 32 + 5 < 2 ^ 64 /\
     (is_dword (nFileIndexHigh info2) -> is_dword (nFileIndexLow info2) ->
      (2 ^ 32 + 5 = 7 <->
       nFileIndexHigh info1 = nFileIndexHigh info2 /\
       nFileIndexLow info1 = nFileIndexLow info2))).
Proof.
  intros v.
  apply (@GetFileUniqueId_is_file_index Volume Volume_Win32 v v "a" "c"
           (2 ^ 32 + 5) 2
           [CallCreateFileW "a";
            CallGetFileInformationByHandle (2 ^ 32 + 5);
            CallCloseHandle (2 ^ 32 + 5)]
           7 1
           [CallCreateFileW "c"; CallGetFileInformationByHandle 7;
            CallCloseHandle 7]).
  - vm_compute. reflexivity.
  - vm_compute. reflexivity.
Defined.

Lemma file_size_is_64_bit_witness :
  file_size (mkFindData 32 1 5 "big.bin") = 1 * 2 ^ 32 + 5 /\
  ((file_size (mkFindData 32 1 5 "big.bin") <? MIN_SIZE_TO_CONSIDER) = true
   <-> 1 = 0 /\ 5 < 16384).
Proof.
  apply (@file_size_is_64_bit (mkFindData 32 1 5 "big.bin"));
    unfold is_dword; simpl; lia.
Defined.

Lemma DeduplicateGroup_log_matches_volume_witness :
  exists steps,
    consolidates Volume_Win32 "a" vol_nolinks steps
      (mkVolume [("a", 1)] [] false) /\
    subseq (map fst steps) ["b"; "c"] /\
    log_matches "a" steps
      (snd (DeduplicateGroup vol_nolinks ["a"; "b"; "c"])) /\
    (steps <> [] -> true = true).
Proof.
  apply (@DeduplicateGroup_log_matches_volume Volume Volume_Win32
           vol_nolinks (mkVolume [("a", 1)] [] false) "a" ["b"; "c"] true).
  vm_compute. reflexivity.
Defined.

(** A trace that opens [b] while the handle of [a] is still open breaks the
    discipline. *)
Example open_handle_is_noticed :
  handle_run Volume_Win32 (vol_demo [("a", 1); ("b", 2)], None)
    [CallCreateFileW "a"; CallCreateFileW "b"; CallDeleteFileW "a"]
  = None.
Proof. reflexivity. Qed.


Lemma wmain_numbers_groups_witness :
  exists n,
    header_indices events_tree = seq 1 n /\
    (In (Say OutNoDuplicates) events_tree <-> n = 0%nat) /\
    (length (filter is_star events_tree) <= n)%nat /\
    (0 = 0 -> length (filter is_star events_tree) = n).
Proof.
  apply (@wmain_numbers_groups Volume Volume_Win32 3
           (EnumerateFilesAndGroupBySize "root" (Some tree_demo) [] ".bin")
           fs_tree vol_tree vol_tree_after 0 events_tree).
  - lia.
  - vm_compute. reflexivity.
Defined.

Lemma GroupFiles_reports_only_unopenable_witness :
  (forall m, In m [ErrOpeningRight "zz"] ->
             reports_unopenable fs_demo ["a"; "zz"; "b"] m) /\
  ((forall p, In p ["a"; "zz"; "b"] -> fs_demo p <> None) ->
   [ErrOpeningRight "zz"] = []).
Proof.
  apply (@GroupFiles_reports_only_unopenable fs_demo ["a"; "zz"; "b"] [] 0
           [["a"; "b"]]).
  vm_compute. reflexivity.
Defined.

Lemma wmain_consolidates_duplicates_witness :
  (exists id, unique_id names_demo_after "a" = Some id /\
              unique_id names_demo_after "b" = Some id) \/
  reported_aside "a" names_demo_events \/
  reported_aside "b" names_demo_events.
Proof.
  apply (@wmain_consolidates_duplicates Names Names_Win32
           Names_DeleteFileW_frame Names_CreateHardLinkW_links
           2 [(5, ["a"; "b"; "c"; "d"])] fs_demo names_demo names_demo_after
           names_demo_events 5 ["a"; "b"; "c"; "d"] 5 "a" "b").
  - simpl. repeat constructor; simpl; intuition discriminate.
  - vm_compute. reflexivity.
  - left. reflexivity.
  - exact demo_all_of_size.
  - simpl. auto.
  - simpl. auto.
  - discriminate.
  - reflexivity.
Defined.

Lemma wmain_argv_consolidates_duplicates_witness :
  (exists id, unique_id names_tree_after "root\a.bin" = Some id /\
              unique_id names_tree_after "root\b.BIN" = Some id) \/
  reported_aside "root\a.bin" names_tree_events \/
  reported_aside "root\b.BIN" names_tree_events.
Proof.
  apply (@wmain_argv_consolidates_duplicates Names Names_Win32
           Names_DeleteFileW_frame Names_CreateHardLinkW_links
           ["dedup"; "root"; ".bin"] (Some tree_demo) fs_tree names_tree
           names_tree_after names_tree_events "root\a.bin" "root\b.BIN"
           (mkFindData 32 0 20000 "a.bin") (mkFindData 32 0 20000 "b.BIN")).
  - vm_compute. repeat constructor; simpl; intuition discriminate.
  - intros x fd H. vm_compute in H.
    destruct H as [E|[E|[E|[]]]]; inversion E; subst; eexists;
      (split; [reflexivity|vm_compute; reflexivity]).
  - vm_compute. reflexivity.
  - vm_compute. auto.
  - vm_compute. auto.
  - discriminate.
  - reflexivity.
Defined.
